(** * PolyArb: the opportunity-detection engine, embedded in Rocq

    The development follows the JavaScript sources:
    - [polymarket.js]: [extractBaseEvent], [findRelatedMarkets];
    - [scanner.js]: [detectBasicArb], [detectCorrelatedArb],
      [detectMutuallyExclusiveArb], [scan], [getMockMarkets];
    - [watcher.js]: [watchCycle] and the [seenOpportunities] tracker.

    JavaScript numbers are IEEE 754 binary64 values: they are modelled by
    Rocq's primitive floats, whose operations are specified by
    [SpecFloat].  Strings are sequences of UTF-16 code units; a character of
    a Rocq [string] stands for one code unit below 256. *)

From Stdlib Require Import ZArith Lia Bool List String Ascii Floats Zpower.
From Stdlib Require Import Sorting.Sorted Sorting.Permutation DecimalString.
Import ListNotations.

(* ################################################################# *)
(** * Part I: the embedding *)

(* ================================================================= *)
(** ** Numbers *)

Module Num.

(** [MIN_EDGE] of scanner.js, the double nearest to 0.02. *)
Definition MIN_EDGE : float := 0x1.47ae147ae147bp-6%float.

(** [MIN_VOLUME] of scanner.js: declared, and read by no function. *)
Definition MIN_VOLUME : float := 10000%float.

(** [MIN_EDGE] of watcher.js, the double nearest to 0.03. *)
Definition WATCH_MIN_EDGE : float := 0x1.eb851eb851eb8p-6%float.

(** The default price 0.5 and the payout 1.0. *)
Definition half : float := 0.5%float.

(** An array length as a number. *)
Definition of_nat (n : nat) : float :=
  SF2Prim (binary_normalize prec emax (Z.of_nat n) 0 false).

(** [xs.reduce((a, b) => a + b, 0)]. *)
Definition sum (xs : list float) : float :=
  fold_left PrimFloat.add xs 0%float.

(** The exponent of the smallest positive double is [-1074]. *)
Definition sf_emin : Z := -1074.

(** The magnitude and the signed rank of a binary64 value, in units of the
    smallest positive double; the infinities sit just outside the finite
    range.  The rank is an order embedding of the numbers into [Z]. *)
Definition mag (m : positive) (e : Z) : Z := (Z.pos m * 2 ^ (e + 1074))%Z.

Definition rank (x : spec_float) : Z :=
  match x with
  | S754_zero _ => 0
  | S754_nan => 0
  | S754_infinity s => cond_Zopp s (2 ^ 2098)
  | S754_finite s m e => cond_Zopp s (mag m e)
  end.

Definition sf_is_nan (x : spec_float) : bool :=
  match x with S754_nan => true | _ => false end.

(** Two infinities of one sign: the only pair of numbers whose difference
    is not a number. *)
Definition same_infinity (x y : spec_float) : bool :=
  match x, y with
  | S754_infinity sx, S754_infinity sy => Bool.eqb sx sy
  | _, _ => false
  end.

Definition signed_nonzero (s : bool) (r : spec_float) : Prop :=
  (exists m e, r = S754_finite s m e) \/ r = S754_infinity s.

End Num.

(* ================================================================= *)
(** ** Characters and strings *)

Module Str.

Local Open Scope string_scope.

Definition code (c : ascii) : nat := nat_of_ascii c.

Definition is_digit (c : ascii) : bool :=
  (48 <=? code c)%nat && (code c <=? 57)%nat.

Definition digit_val (c : ascii) : Z := Z.of_nat (code c - 48).

(** White space and line terminators ([\s], [trim], [parseFloat]): TAB, LF,
    VT, FF, CR, SP and NBSP are the ones below 256. *)
Definition is_ws (c : ascii) : bool :=
  let n := code c in
  ((9 <=? n)%nat && (n <=? 13)%nat) || (n =? 32)%nat || (n =? 160)%nat.

Definition is_upper (c : ascii) : bool :=
  (65 <=? code c)%nat && (code c <=? 90)%nat.

Definition is_lower (c : ascii) : bool :=
  (97 <=? code c)%nat && (code c <=? 122)%nat.

(** Word characters of [\b]: letters, digits and the underscore. *)
Definition is_word (c : ascii) : bool :=
  is_upper c || is_lower c || is_digit c || (code c =? 95)%nat.

(** Case folding of the [i] flag, which on code units below 256 only
    identifies the ASCII letters of both cases. *)
Definition lower (c : ascii) : ascii :=
  if is_upper c then ascii_of_nat (code c + 32) else c.

Fixpoint trimStart (s : string) : string :=
  match s with
  | String c r => if is_ws c then trimStart r else s
  | EmptyString => s
  end.

(** [trimEnd] keeps a character when it is not white space or when
    something that is kept follows it. *)
Fixpoint trimEnd (s : string) : string :=
  match s with
  | String c r =>
      match trimEnd r with
      | EmptyString => if is_ws c then EmptyString else String c EmptyString
      | r' => String c r'
      end
  | EmptyString => EmptyString
  end.

Definition trim (s : string) : string := trimEnd (trimStart s).

(** [s.substring(0, n)]. *)
Definition take (n : nat) (s : string) : string := substring 0 n s.

Fixpoint span_digits (s : string) : list ascii * string :=
  match s with
  | String c r =>
      if is_digit c then let '(ds, rest) := span_digits r in (c :: ds, rest)
      else ([], s)
  | EmptyString => ([], s)
  end.

Definition digits_value (ds : list ascii) : Z :=
  fold_left (fun acc c => (10 * acc + digit_val c)%Z) ds 0%Z.

(** A natural number in decimal, as template literals print a length. *)
Definition of_nat (n : nat) : string := NilZero.string_of_uint (Nat.to_uint n).

End Str.

(* ================================================================= *)
(** ** [parseFloat] on strings *)

Module ParseFloat.

Import Str.
Local Open Scope string_scope.

(** The double nearest to [m * 10 ^ e10], ties to even.  The two early
    exits only spare the evaluation of very large powers: above [1e400]
    every value rounds to infinity, below [1e-400] to zero. *)
Definition decimal (neg : bool) (m : Z) (ndigits : nat) (e10 : Z) : spec_float :=
  match m with
  | Zpos p =>
      if (400 <? e10)%Z then S754_infinity neg
      else if (Z.of_nat ndigits + e10 <? -400)%Z then S754_zero neg
      else
        match (Z.pos p * 10 ^ Z.max 0 e10)%Z, (10 ^ Z.max 0 (- e10))%Z with
        | Zpos num, Zpos den =>
            SFdiv prec emax (S754_finite neg num 0) (S754_finite false den 0)
        | _, _ => S754_nan
        end
  | _ => S754_zero neg
  end.

(** The exponent part [e], [E] followed by an optionally signed run of
    digits; without digits there is no exponent part. *)
Definition exponent (s : string) : Z :=
  match s with
  | String c r =>
      if (lower c =? "e")%char then
        match r with
        | String "-" r' =>
            match span_digits r' with
            | ([], _) => 0
            | (ds, _) => - digits_value ds
            end
        | String "+" r' => digits_value (fst (span_digits r'))
        | _ => digits_value (fst (span_digits r))
        end%Z
      else 0%Z
  | EmptyString => 0%Z
  end.

(** The longest prefix of the trimmed input that is a [StrDecimalLiteral],
    turned into a number; [NaN] when there is none. *)
Definition of_string (input : string) : float :=
  let s := trimStart input in
  let '(neg, s1) :=
    match s with
    | String "-" r => (true, r)
    | String "+" r => (false, r)
    | _ => (false, s)
    end in
  if prefix "Infinity" s1 then (if neg then neg_infinity else infinity)
  else
    let '(ip, s2) := span_digits s1 in
    let '(fp, s3) :=
      match s2 with
      | String "." r => span_digits r
      | _ => ([], s2)
      end in
    match (ip ++ fp)%list with
    | [] => nan
    | ds =>
        SF2Prim (decimal neg (digits_value ds) (List.length ds)
                         (exponent s3 - Z.of_nat (List.length fp)))
    end.

(** A decimal literal of the program text, such as [0.02]. *)
Definition dec (literal : string) : float := of_string literal.

End ParseFloat.

(* ================================================================= *)
(** ** Values of market records *)

(** The fields of a market come from a JSON document: a field is absent
    ([JUndefined]) or holds a JSON scalar, an array, or an object ([JObj],
    standing for a plain object that has none of the properties the
    detectors read: no index, no [length], no [map]). *)
Inductive JsVal : Type :=
| JUndefined
| JNull
| JBool (b : bool)
| JNum (x : float)
| JStr (s : string)
| JArr (l : list JsVal)
| JObj.

Module Js.

(** [ToBoolean]. *)
Definition truthy (v : JsVal) : bool :=
  match v with
  | JUndefined | JNull => false
  | JBool b => b
  | JNum x => negb (is_zero x || is_nan x)
  | JStr s => negb (s =? "")%string
  | JArr _ | JObj => true
  end.

(** [a || b]. *)
Definition or (a b : JsVal) : JsVal := if truthy a then a else b.

(** [v?.[i]]: absent on [undefined] and [null], the element of an array,
    the one-character substring of a string, absent otherwise. *)
Definition index (v : JsVal) (i : nat) : JsVal :=
  match v with
  | JArr l => nth i l JUndefined
  | JStr s => match get i s with Some c => JStr (String c EmptyString) | None => JUndefined end
  | _ => JUndefined
  end.

(** [v.length] for a value that is not [undefined] or [null]; [None] is
    [undefined]. *)
Definition length (v : JsVal) : option nat :=
  match v with
  | JArr l => Some (List.length l)
  | JStr s => Some (String.length s)
  | _ => None
  end.

(** [parseFloat(v)] first turns [v] into a string.  A number prints so
    that reading it back gives the same number, except that both zeros
    print as ["0"]; an array prints its elements separated by commas, [null]
    and absent elements as empty strings, so the numeric prefix of an array
    is that of its first element; the other values print as words
    (["undefined"], ["null"], ["true"], ["[object Object]"]). *)
Fixpoint parseFloat (v : JsVal) : float :=
  match v with
  | JNum x => if is_zero x then 0%float else x
  | JStr s => ParseFloat.of_string s
  | JArr (e :: _) =>
      match e with
      | JUndefined | JNull => nan
      | _ => parseFloat e
      end
  | _ => nan
  end.

(** [o || d] for a text field. *)
Definition text_or (o : option string) (d : string) : string :=
  match o with
  | Some (String c r) => String c r
  | _ => d
  end.

End Js.

(* ================================================================= *)
(** ** Regular expressions

    The patterns of [extractBaseEvent] only need the constructs below.
    Matching is the backtracking semantics of the language definition: a
    matcher takes the character before the current position (for [\b]),
    the rest of the input and a continuation, and answers with the rest of
    the input after the whole match. *)

Module Regex.

Import Str.

Inductive re : Type :=
| Eps                                   (* the empty pattern *)
| Cls (p : ascii -> bool)               (* one character of a class *)
| Seq (a b : re)                        (* [ab] *)
| Alt (a b : re)                        (* [a|b], left first *)
| Star (p : ascii -> bool)              (* greedy [c*] over a class *)
| WordB.                                (* [\b] *)

Definition Cont : Type := option ascii -> string -> option string.

Definition word_opt (c : option ascii) : bool :=
  match c with Some a => is_word a | None => false end.

Definition head (s : string) : option ascii :=
  match s with String c _ => Some c | EmptyString => None end.

Fixpoint star (p : ascii -> bool) (prev : option ascii) (s : string) (k : Cont)
  : option string :=
  match s with
  | String c r =>
      if p c then
        match star p (Some c) r k with
        | Some out => Some out
        | None => k prev s
        end
      else k prev s
  | EmptyString => k prev s
  end.

Fixpoint rmatch (r : re) (prev : option ascii) (s : string) (k : Cont)
  : option string :=
  match r with
  | Eps => k prev s
  | Cls p =>
      match s with
      | String c rest => if p c then k (Some c) rest else None
      | EmptyString => None
      end
  | Seq a b => rmatch a prev s (fun prev' s' => rmatch b prev' s' k)
  | Alt a b =>
      match rmatch a prev s k with
      | Some out => Some out
      | None => rmatch b prev s k
      end
  | Star p => star p prev s k
  | WordB => if xorb (word_opt prev) (word_opt (head s)) then k prev s else None
  end.

(** The match of [r] that starts at the current position, if any: the
    rest of the input after it. *)
Definition match_here (r : re) (prev : option ascii) (s : string) : option string :=
  rmatch r prev s (fun _ rest => Some rest).

(** [s.replace(/r/g, repl)], scanning from the left.  [skip] counts the
    characters of the current match that are still to be dropped.  After an
    empty match the next character is copied and the search resumes behind
    it. *)
Fixpoint replace_from (r : re) (repl : string) (prev : option ascii) (skip : nat)
    (s : string) : string :=
  match s with
  | String c rest =>
      match skip with
      | S n => replace_from r repl (Some c) n rest
      | O =>
          match match_here r prev s with
          | Some out =>
              match String.length s - String.length out with
              | O => repl ++ String c (replace_from r repl (Some c) 0 rest)
              | S n => repl ++ replace_from r repl (Some c) n rest
              end
          | None => String c (replace_from r repl (Some c) 0 rest)
          end
      end
  | EmptyString =>
      match skip, match_here r prev EmptyString with
      | O, Some _ => repl
      | _, _ => EmptyString
      end
  end%string.

Definition replaceAll (r : re) (repl : string) (s : string) : string :=
  replace_from r repl None 0 s.

(** Pattern building blocks. *)
Definition chr (c : ascii) : re := Cls (fun x => (lower x =? c)%char).

Fixpoint lit (w : string) : re :=
  match w with
  | String c EmptyString => chr c
  | String c r => Seq (chr c) (lit r)
  | EmptyString => Eps
  end.

Fixpoint alts (rs : list re) : re :=
  match rs with
  | [] => Eps
  | [r] => r
  | r :: rs' => Alt r (alts rs')
  end.

Definition digit : re := Cls is_digit.
Definition opt (r : re) : re := Alt r Eps.
Definition plus (p : ascii -> bool) : re := Seq (Cls p) (Star p).

(** [\d{1,2}] and [\d{4}]. *)
Definition digits_1_2 : re := Seq digit (opt digit).
Definition digits_4 : re := Seq digit (Seq digit (Seq digit digit)).

(** A text with every character folded as the [i] flag folds it. *)
Fixpoint lowers (s : string) : string :=
  match s with
  | String c r => String (Str.lower c) (lowers r)
  | EmptyString => EmptyString
  end.

(** The character before the position reached after reading [s]. *)
Fixpoint lastOf (s : string) (prev : option ascii) : option ascii :=
  match s with
  | String c r => lastOf r (Some c)
  | EmptyString => prev
  end.

End Regex.

(* ================================================================= *)
(** ** polymarket.js: the canonical event key *)

Module Grouper.

Import Regex.
Local Open Scope string_scope.

Definition keywords : list string := ["by"; "before"; "after"; "in"; "on"].

Definition months : list string :=
  ["january"; "february"; "march"; "april"; "may"; "june"; "july"; "august";
   "september"; "october"; "november"; "december"].

(** [/\b(by|before|after|in|on)\s+(january|...|december|\d{1,2}|\d{4})\b/gi] *)
Definition dateQualifier : re :=
  Seq WordB
    (Seq (alts (map lit keywords))
       (Seq (plus Str.is_ws)
          (Seq (alts (map lit months ++ [digits_1_2; digits_4])) WordB))).

(** [/\b\d{1,2}(st|nd|rd|th)?\b/gi] *)
Definition ordinalDay : re :=
  Seq WordB (Seq digits_1_2 (Seq (opt (alts (map lit ["st"; "nd"; "rd"; "th"]))) WordB)).

(** [/\b(yes|no)\b/gi] *)
Definition yesNo : re := Seq WordB (Seq (alts (map lit ["yes"; "no"])) WordB).

(** [/\s+/g] *)
Definition spaces : re := plus Str.is_ws.

Definition extractBaseEvent (question : string) : string :=
  Str.take 50
    (Str.trim
       (replaceAll spaces " "
          (replaceAll yesNo ""
             (replaceAll ordinalDay ""
                (replaceAll dateQualifier "" question))))).

(** Read as a value: what [replace(/\s+/g, ' ')] makes of a text.  [inside]
    says that the position is inside a run of white space. *)
Fixpoint collapse (inside : bool) (s : string) : string :=
  match s with
  | String c r =>
      if Str.is_ws c then
        if inside then collapse true r else String " " (collapse true r)
      else String c (collapse false r)
  | EmptyString => EmptyString
  end.

Definition starts_ws (s : string) : bool :=
  match s with String c _ => Str.is_ws c | EmptyString => false end.

(** Every white space character is a space that no white space follows. *)
Fixpoint single_spaced (s : string) : bool :=
  match s with
  | String c r =>
      (if Str.is_ws c then (c =? " ")%char && negb (starts_ws r) else true)
      && single_spaced r
  | EmptyString => true
  end.

Definition ends_ws (s : string) : bool :=
  match lastOf s None with Some c => Str.is_ws c | None => false end.

End Grouper.

(* ================================================================= *)
(** ** Vocabulary of the statements about the matcher

    Two runs of the matcher are compared side by side.  A state relates the
    two positions (the previous characters and the rests of the inputs); a
    pattern carries related positions to related positions when the two runs
    fail together or end in related results. *)

Module Sim.

Import Regex.
Local Open Scope string_scope.

Definition State : Type := option ascii -> option ascii -> string -> string -> Prop.

Definition res_rel (Res : string -> string -> Prop) (o1 o2 : option string) : Prop :=
  match o1, o2 with
  | Some a, Some b => Res a b
  | None, None => True
  | _, _ => False
  end.

Definition krel (Res : string -> string -> Prop) (Post : State) (k1 k2 : Cont) : Prop :=
  forall p1 p2 s1 s2, Post p1 p2 s1 s2 -> res_rel Res (k1 p1 s1) (k2 p2 s2).

Definition sim (Res : string -> string -> Prop) (r : re) (Pre Post : State) : Prop :=
  forall p1 p2 s1 s2 k1 k2,
    Pre p1 p2 s1 s2 -> krel Res Post k1 k2 ->
    res_rel Res (rmatch r p1 s1 k1) (rmatch r p2 s2 k2).

(** A class cannot read the next character. *)
Definition fails (p : ascii -> bool) (s : string) : Prop :=
  match s with String c _ => p c = false | EmptyString => True end.

(** Both runs fail to read a character of the class, or both read one. *)
Inductive step (p : ascii -> bool) (Post : State) : string -> string -> Prop :=
| step_fail s1 s2 : fails p s1 -> fails p s2 -> step p Post s1 s2
| step_take c1 c2 r1 r2 :
    p c1 = true -> p c2 = true -> Post (Some c1) (Some c2) r1 r2 ->
    step p Post (String c1 r1) (String c2 r2).

(** A pattern all of whose classes ignore the letter case. *)
Fixpoint ci (r : re) : Prop :=
  match r with
  | Cls p | Star p => forall c, p (Str.lower c) = p c
  | Seq a b | Alt a b => ci a /\ ci b
  | Eps | WordB => True
  end.

(** The two texts differ in letter case only, before a common rest [u], or
    they are the same. *)
Definition alike (u s1 s2 : string) : Prop :=
  (exists w1 w2, s1 = w1 ++ u /\ s2 = w2 ++ u /\ lowers w1 = lowers w2) \/ s1 = s2.

Definition folded (u : string) : State :=
  fun p1 p2 s1 s2 => word_opt p1 = word_opt p2 /\ alike u s1 s2.

(** The two runs read the same text [Y], then [" b"], then different
    rests [u1] and [u2]; [atKeyword] is the position behind the space. *)
Definition sameText (u1 u2 s1 s2 : string) : Prop :=
  exists Y, s1 = Y ++ " b" ++ u1 /\ s2 = Y ++ " b" ++ u2.

Definition inText (u1 u2 : string) : State :=
  fun p1 p2 s1 s2 => p1 = p2 /\ sameText u1 u2 s1 s2.

Definition atKeyword (u1 u2 : string) : State :=
  fun p1 p2 s1 s2 => p1 = p2 /\ s1 = "b" ++ u1 /\ s2 = "b" ++ u2.

Definition either (u1 u2 : string) : State :=
  fun p1 p2 s1 s2 => inText u1 u2 p1 p2 s1 s2 \/ atKeyword u1 u2 p1 p2 s1 s2.

(** No character of [w] is [bad] in either letter case. *)
Fixpoint avoids (bad : ascii) (w : string) : bool :=
  match w with
  | String c r => negb (Str.lower bad =? c)%char && avoids bad r
  | EmptyString => true
  end.

End Sim.

(* ================================================================= *)
(** ** Markets, event groups and opportunities *)

(** A market record.  The text fields are absent or strings; the price,
    outcome and volume fields are whatever the data provider sent. *)
Record Market : Type := {
  market_id : option string;
  question : option string;
  title : option string;
  outcomes : JsVal;
  outcomePrices : JsVal;
  yes_price : JsVal;
  no_price : JsVal;
  volume : JsVal;
  volumeNum : JsVal
}.

(** [{ event, markets }] *)
Record EventGroup : Type := {
  event : string;
  markets : list Market
}.

Inductive ArbType : Type :=
| BASIC_ARB
| CORRELATED_DATE_ARB
| MUTUALLY_EXCLUSIVE_ARB.

(** The object a detector returns.  The [strategy] text, which only
    formats the numbers below for display, is left out. *)
Record Opportunity : Type := {
  opp_type : ArbType;
  name : string;
  edge : float;
  cost : float;
  payout : float;
  prices : list float;
  marketCount : nat;
  totalVolume : float;
  opp_markets : list Market
}.

(** Exceptions, and the completion of a computation that may throw. *)
Inductive JsError : Type := SyntaxError | TypeError.

Inductive Completion (A : Type) : Type :=
| Normal (a : A)
| Throw (e : JsError).

Arguments Normal {A} a.
Arguments Throw {A} e.

Definition bind {A B : Type} (c : Completion A) (f : A -> Completion B) : Completion B :=
  match c with
  | Normal a => f a
  | Throw e => Throw e
  end.

Notation "x <- c ;; k" := (bind c (fun x => k))
  (at level 61, c at next level, right associativity).

(** [try { body } catch { handler }] *)
Definition try_catch {A : Type} (body : Completion A) (handler : Completion A) : Completion A :=
  match body with
  | Normal a => Normal a
  | Throw _ => handler
  end.

Fixpoint map_completion {A B : Type} (f : A -> Completion B) (l : list A)
  : Completion (list B) :=
  match l with
  | [] => Normal []
  | a :: l' => b <- f a ;; bs <- map_completion f l' ;; Normal (b :: bs)
  end.

(* ================================================================= *)
(** ** polymarket.js: grouping *)

Module Grouping.

Local Open Scope string_scope.

(** The bucket object [groups]: its own properties in creation order. *)
Definition Buckets : Type := list (string * list Market).

(** The properties a fresh object literal inherits from [Object.prototype];
    reading one of them from [groups] gives a function or an object. *)
Definition inherited : list string :=
  ["constructor"; "__defineGetter__"; "__defineSetter__"; "hasOwnProperty";
   "__lookupGetter__"; "__lookupSetter__"; "isPrototypeOf";
   "propertyIsEnumerable"; "toString"; "valueOf"; "__proto__"; "toLocaleString"].

Definition is_inherited (key : string) : bool := existsb (String.eqb key) inherited.

Definition has_own (key : string) (groups : Buckets) : bool :=
  existsb (fun kv => fst kv =? key) groups.

(** [groups[key].push(market)] on an own property. *)
Fixpoint push (key : string) (market : Market) (groups : Buckets) : Buckets :=
  match groups with
  | (k, ms) :: rest =>
      if k =? key then (k, (ms ++ [market])%list) :: rest
      else (k, ms) :: push key market rest
  | [] => []
  end.

(** One iteration of the loop.  An own bucket is an array, hence truthy;
    an inherited property is truthy too and has no [push], so the call
    throws; otherwise the bucket is created first. *)
Definition add_market (groups : Buckets) (market : Market) : Completion Buckets :=
  let baseEvent := Grouper.extractBaseEvent (Js.text_or (question market) "") in
  if has_own baseEvent groups then Normal (push baseEvent market groups)
  else if is_inherited baseEvent then Throw TypeError
  else Normal (groups ++ [(baseEvent, [market])])%list.

Fixpoint add_markets (groups : Buckets) (ms : list Market) : Completion Buckets :=
  match ms with
  | [] => Normal groups
  | m :: rest => groups' <- add_market groups m ;; add_markets groups' rest
  end.

(** An array index: the canonical decimal numeral of an integer below
    [2^32 - 1]. *)
Definition array_index (key : string) : option Z :=
  match key with
  | String c r =>
      let '(ds, rest) := Str.span_digits key in
      match rest with
      | EmptyString =>
          if ((c =? "0")%char && negb (r =? "")) then None
          else
            let n := Str.digits_value ds in
            if (n <? 4294967295)%Z then Some n else None
      | _ => None
      end
  | EmptyString => None
  end.

Fixpoint insert_index {A : Type} (kv : Z * A) (l : list (Z * A)) : list (Z * A) :=
  match l with
  | y :: l' => if (fst y <? fst kv)%Z then y :: insert_index kv l' else kv :: l
  | [] => [kv]
  end.

(** The array-index entries of a list of keyed items, in ascending numeric
    order. *)
Definition indexed {A : Type} (keyOf : A -> string) (items : list A) : list (Z * A) :=
  fold_right insert_index []
    (flat_map (fun a => match array_index (keyOf a) with
                        | Some n => [(n, a)]
                        | None => []
                        end) items).

Definition not_index (key : string) : bool :=
  match array_index key with Some _ => false | None => true end.

(** The order in which the own properties of an object are listed: the
    array-index keys in ascending numeric order, then the other keys in
    creation order. *)
Definition propertyOrder {A : Type} (keyOf : A -> string) (items : list A) : list A :=
  (map snd (indexed keyOf items) ++ filter (fun a => not_index (keyOf a)) items)%list.

(** [Object.entries(groups)] *)
Definition entries (groups : Buckets) : Buckets := propertyOrder fst groups.

Definition findRelatedMarkets (ms : list Market) : Completion (list EventGroup) :=
  groups <- add_markets [] ms ;;
  Normal
    (map (fun kv => {| event := fst kv; markets := snd kv |})
       (filter (fun kv => (1 <? List.length (snd kv))%nat) (entries groups))).

(** *** The same result, read as a value

    [eventKey] is the bucket a market falls into, [firstSeen] lists keys in
    the order of their first occurrence, and [grouped] is the list of groups
    described from the input alone. *)

Definition eventKey (m : Market) : string :=
  Grouper.extractBaseEvent (Js.text_or (question m) "").

Definition firstSeen (keys : list string) : list string :=
  fold_left (fun acc k => if existsb (String.eqb k) acc then acc else (acc ++ [k])%list)
    keys [].

Definition members (key : string) (ms : list Market) : list Market :=
  filter (fun m => eventKey m =? key) ms.

Definition grouped (ms : list Market) : list EventGroup :=
  map (fun k => {| event := k; markets := members k ms |})
    (filter (fun k => (1 <? List.length (members k ms))%nat)
       (propertyOrder (fun k => k) (firstSeen (map eventKey ms)))).

(** Vocabulary of the statements about the loop: membership of a key, the
    buckets after the loop on a given input, inputs none of whose keys is
    inherited, and a market without any field. *)
Definition mem (k : string) (l : list string) : bool := existsb (String.eqb k) l.

Definition bucketsOf (ms : list Market) : Buckets :=
  map (fun k => (k, members k ms)) (firstSeen (map eventKey ms)).

Definition clean (ms : list Market) : Prop :=
  forall m, In m ms -> is_inherited (eventKey m) = false.

Definition relabel {A B : Type} (g : A -> B) (p : Z * A) : Z * B := (fst p, g (snd p)).

Definition noQuestion : Market :=
  {| market_id := None; question := None; title := None;
     outcomes := JUndefined; outcomePrices := JUndefined;
     yes_price := JUndefined; no_price := JUndefined;
     volume := JUndefined; volumeNum := JUndefined |}.

(** A market of which only the question is known. *)
Definition asked (q : string) : Market :=
  {| market_id := None; question := Some q; title := None;
     outcomes := JUndefined; outcomePrices := JUndefined;
     yes_price := JUndefined; no_price := JUndefined;
     volume := JUndefined; volumeNum := JUndefined |}.

End Grouping.

(* ================================================================= *)
(** ** scanner.js: the three detectors *)

Module Scanner.

Local Open Scope string_scope.
Local Open Scope float_scope.

(** [market.outcomePrices?.[0] || market.yes_price || 0.5], parsed. *)
Definition yesPrice (market : Market) : float :=
  Js.parseFloat
    (Js.or (Js.or (Js.index (outcomePrices market) 0) (yes_price market)) (JNum Num.half)).

(** [m.outcomePrices?.[1] || m.no_price || 0.5], parsed. *)
Definition noPrice (market : Market) : float :=
  Js.parseFloat
    (Js.or (Js.or (Js.index (outcomePrices market) 1) (no_price market)) (JNum Num.half)).

(** [parseFloat(market.volume || market.volumeNum || 0)] *)
Definition volumeOf (market : Market) : float :=
  Js.parseFloat (Js.or (Js.or (volume market) (volumeNum market)) (JNum 0)).

(** Read as a value: the price a rule works with is the entry when it is
    truthy, else the market's alternate field when that is truthy, else the
    default. *)
Definition pick (entry alt : JsVal) : float :=
  if Js.truthy entry then Js.parseFloat entry
  else if Js.truthy alt then Js.parseFloat alt
  else Num.half.

(** [market.question || market.title || 'Unknown Market'] *)
Definition displayName (market : Market) : string :=
  Js.text_or (question market) (Js.text_or (title market) "Unknown Market").

(** A market with its volume fields taken away, and what a detection says
    apart from the volume it reports and the markets it quotes. *)
Definition withoutVolume (m : Market) : Market :=
  {| market_id := market_id m; question := question m; title := title m;
     outcomes := outcomes m; outcomePrices := outcomePrices m;
     yes_price := yes_price m; no_price := no_price m;
     volume := JUndefined; volumeNum := JUndefined |}.

Definition sameButVolume (m m' : Market) : Prop := withoutVolume m = withoutVolume m'.

Definition signal (o : Opportunity)
  : ArbType * string * float * float * float * list float * nat :=
  (opp_type o, name o, edge o, cost o, payout o, prices o, marketCount o).

Definition sameSignal (o o' : Opportunity) : Prop := signal o = signal o'.

Definition sameGroup (g g' : EventGroup) : Prop :=
  event g = event g' /\ Forall2 sameButVolume (markets g) (markets g').

Definition detectBasicArb (market : Market) : option Opportunity :=
  let yesPrice := yesPrice market in
  let noPrice := noPrice market in
  let totalCost := yesPrice + noPrice in
  let edge := 1 - totalCost in
  if edge <=? 0 then None
  else
    Some {| opp_type := BASIC_ARB;
            name := displayName market;
            edge := edge;
            cost := totalCost;
            payout := 1;
            prices := [yesPrice; noPrice];
            marketCount := 1;
            totalVolume := volumeOf market;
            opp_markets := [market] |}.

Definition detectCorrelatedArb (group : EventGroup) : option Opportunity :=
  let n := List.length (markets group) in
  if (n <? 2)%nat then None
  else
    let noPrices := map noPrice (markets group) in
    let totalNoCost := Num.sum noPrices in
    let minPayout := Num.of_nat n - 1 in
    let edge := (minPayout - totalNoCost) / Num.of_nat n in
    if edge <=? 0 then None
    else
      Some {| opp_type := CORRELATED_DATE_ARB;
              name := event group ++ " (" ++ Str.of_nat n ++ " date markets)";
              edge := edge;
              cost := totalNoCost;
              payout := minPayout;
              prices := noPrices;
              marketCount := n;
              totalVolume :=
                fold_left (fun sum m => sum + volumeOf m) (markets group) 0;
              opp_markets := markets group |}.

(** [x.length < 3], false when the length is [undefined]. *)
Definition length_below (v : JsVal) (k : nat) : bool :=
  match Js.length v with
  | Some n => (n <? k)%nat
  | None => false
  end.

(** [prices.length !== outcomes.length] *)
Definition length_differs (n : nat) (v : JsVal) : bool :=
  match Js.length v with
  | Some k => negb (n =? k)%nat
  | None => true
  end.

(** [v.map(p => parseFloat(p))]: a [TypeError] unless [v] is an array. *)
Definition map_parseFloat (v : JsVal) : Completion (list float) :=
  match v with
  | JArr l => Normal (map Js.parseFloat l)
  | _ => Throw TypeError
  end.

Section WithJSON.

(** [JSON.parse] is a built-in; [None] is its [SyntaxError]. *)
Variable JSON_parse : string -> option JsVal.

Definition json_parse (s : string) : Completion JsVal :=
  match JSON_parse s with
  | Some v => Normal v
  | None => Throw SyntaxError
  end.

Definition mutuallyExclusiveOf (market : Market) (outcomes : JsVal) (prices : list float)
  : option Opportunity :=
  if length_differs (List.length prices) outcomes then None
  else
    let totalCost := Num.sum prices in
    let edge := 1 - totalCost in
    if edge <=? 0 then None
    else
      Some {| opp_type := MUTUALLY_EXCLUSIVE_ARB;
              name := displayName market;
              edge := edge;
              cost := totalCost;
              payout := 1;
              prices := prices;
              marketCount := 1;
              totalVolume := volumeOf market;
              opp_markets := [market] |}.

Definition detectMutuallyExclusiveArb (market : Market) : Completion (option Opportunity) :=
  let outcomes := Js.or (outcomes market) (JArr []) in
  if length_below outcomes 3 then Normal None
  else
    match outcomePrices market with
    | JArr l =>
        Normal (mutuallyExclusiveOf market outcomes (map Js.parseFloat l))
    | JStr s =>
        try_catch
          (v <- json_parse s ;;
           prices <- map_parseFloat v ;;
           Normal (mutuallyExclusiveOf market outcomes prices))
          (Normal None)
    | _ => Normal None
    end.

(** Read as a value: the price sequence the rule works with is the array
    itself, or what the text decodes to when that is an array. *)
Definition decoded (market : Market) : option (list float) :=
  match outcomePrices market with
  | JArr l => Some (map Js.parseFloat l)
  | JStr s =>
      match JSON_parse s with
      | Some (JArr l) => Some (map Js.parseFloat l)
      | _ => None
      end
  | _ => None
  end.

(** Read as a value: what [detectMutuallyExclusiveArb] returns. *)
Definition exclusiveArb (market : Market) : option Opportunity :=
  let outcomes := Js.or (outcomes market) (JArr []) in
  if length_below outcomes 3 then None
  else match decoded market with
       | Some prices => mutuallyExclusiveOf market outcomes prices
       | None => None
       end.

(** [arb && arb.edge >= MIN_EDGE] *)
Definition reportable (arb : option Opportunity) : list Opportunity :=
  match arb with
  | Some a => if Num.MIN_EDGE <=? edge a then [a] else []
  | None => []
  end.

(** [opportunities.sort((a, b) => b.edge - a.edge)].  The sort is stable,
    and a comparator result that is not a number counts as zero.  [insert]
    puts [x] behind the elements that the comparator orders strictly before
    it. *)
Definition compareEdge (a b : Opportunity) : float := edge b - edge a.

Fixpoint insert (x : Opportunity) (l : list Opportunity) : list Opportunity :=
  match l with
  | y :: l' => if compareEdge y x <? 0 then y :: insert x l' else x :: l
  | [] => [x]
  end.

Definition sort (l : list Opportunity) : list Opportunity := fold_right insert [] l.

(** An opportunity that passes the caller's threshold, and the order the
    sort aims at: an earlier opportunity has an edge at least as large. *)
Definition reported (o : Opportunity) : Prop := (Num.MIN_EDGE <=? edge o) = true.

Definition desc (a b : Opportunity) : Prop := (edge b <=? edge a) = true.

Definition getMockMarkets : list Market :=
  let mk q ps v os :=
    {| market_id := None; question := Some q; title := None;
       outcomes := JArr (map JStr os); outcomePrices := JArr (map JStr ps);
       yes_price := JUndefined; no_price := JUndefined;
       volume := JStr v; volumeNum := JUndefined |} in
  [ mk "US strikes Iran by March 2026?" ["0.15"; "0.82"] "1500000" ["Yes"; "No"];
    mk "US strikes Iran by April 2026?" ["0.22"; "0.75"] "800000" ["Yes"; "No"];
    mk "US strikes Iran by June 2026?" ["0.35"; "0.62"] "500000" ["Yes"; "No"];
    mk "Bitcoin above $100k end of 2026?" ["0.45"; "0.52"] "5000000" ["Yes"; "No"];
    mk "Who wins 2028 Presidential Election?" ["0.35"; "0.30"; "0.15"; "0.10"; "0.05"]
       "10000000" ["DeSantis"; "Newsom"; "Trump"; "Harris"; "Other"] ].

(** Markets that only carry prices, and groups of them, for examples. *)
Definition quoted (ps : list JsVal) : Market :=
  {| market_id := None; question := None; title := None;
     outcomes := JUndefined; outcomePrices := JArr ps;
     yes_price := JUndefined; no_price := JUndefined;
     volume := JUndefined; volumeNum := JUndefined |}.

Definition groupOf (lose : list string) : EventGroup :=
  {| event := "E"; markets := map (fun p => quoted [JStr "0.5"; JStr p]) lose |}.

(** [(m.outcomes?.length || 0) > 2] *)
Definition multiOutcome (m : Market) : bool :=
  match Js.length (outcomes m) with
  | Some n => (2 <? n)%nat
  | None => false
  end.

(** The detections of one scan that pass the threshold, in the order in
    which [scan] collects them. *)
Definition detections (ms : list Market) (groups : list EventGroup) : list Opportunity :=
  flat_map (fun market => reportable (detectBasicArb market)) ms
  ++ flat_map (fun group => reportable (detectCorrelatedArb group)) groups
  ++ flat_map (fun market => reportable (exclusiveArb market)) (filter multiOutcome ms).

(** What [getMarkets] delivered, or the mock markets after a failed fetch. *)
Definition marketsOf (fetched : option (list Market)) : list Market :=
  match fetched with Some ms => ms | None => getMockMarkets end.

(** The sorted [opportunities] array of [scan].  [fetched] is the result of
    [getMarkets]; [None] is a failed fetch, which falls back to the mock
    markets. *)
Definition scanOpportunities (fetched : option (list Market)) : Completion (list Opportunity) :=
  let markets := match fetched with Some ms => ms | None => getMockMarkets end in
  let basic := flat_map (fun market => reportable (detectBasicArb market)) markets in
  groups <- Grouping.findRelatedMarkets markets ;;
  let correlated := flat_map (fun group => reportable (detectCorrelatedArb group)) groups in
  exclusive <- map_completion detectMutuallyExclusiveArb (filter multiOutcome markets) ;;
  Normal (sort (basic ++ correlated ++ flat_map reportable exclusive)).

(** What [scan] returns: [undefined] ([None]) when nothing was found. *)
Definition scan (fetched : option (list Market)) : Completion (option (list Opportunity)) :=
  opportunities <- scanOpportunities fetched ;;
  Normal (match opportunities with [] => None | _ => Some opportunities end).

End WithJSON.

End Scanner.

(* ================================================================= *)
(** ** watcher.js: the watch cycle and the tracker *)

Module Watcher.

Local Open Scope string_scope.
Local Open Scope float_scope.

(** The type-specific part of a watch opportunity. *)
Inductive Detail : Type :=
| BASIC (yesPrice noPrice : float)
| CORRELATED (marketCount : nat) (totalCost minPayout : float).

Record WatchOpp : Type := {
  opp_id : string;
  opp_name : string;
  opp_edge : float;
  detail : Detail
}.

(** [parseFloat(market.outcomePrices?.[i] || 0.5)] *)
Definition priceAt (market : Market) (i : nat) : float :=
  Js.parseFloat (Js.or (Js.index (outcomePrices market) i) (JNum Num.half)).

(** [`${market.id || market.question}`]: an absent question prints as
    ["undefined"]. *)
Definition idText (market : Market) : string :=
  match market_id market with
  | Some (String c r) => String c r
  | _ => match question market with Some q => q | None => "undefined" end
  end.

Definition basicOf (market : Market) : list WatchOpp :=
  let yesPrice := priceAt market 0 in
  let noPrice := priceAt market 1 in
  let edge := 1 - (yesPrice + noPrice) in
  if Num.WATCH_MIN_EDGE <=? edge then
    [ {| opp_id := "basic:" ++ idText market;
         opp_name := Js.text_or (question market) "Unknown";
         opp_edge := edge;
         detail := BASIC yesPrice noPrice |} ]
  else [].

Definition correlatedOf (group : EventGroup) : list WatchOpp :=
  let n := List.length (markets group) in
  if (n <? 2)%nat then []
  else
    let noPrices := map (fun m => priceAt m 1) (markets group) in
    let totalCost := Num.sum noPrices in
    let minPayout := Num.of_nat n - 1 in
    let edge := (minPayout - totalCost) / Num.of_nat n in
    if Num.WATCH_MIN_EDGE <=? edge then
      [ {| opp_id := "correlated:" ++ event group;
           opp_name := event group;
           opp_edge := edge;
           detail := CORRELATED n totalCost minPayout |} ]
    else [].

(** The [opportunities] array of one cycle. *)
Definition collect (ms : list Market) : Completion (list WatchOpp) :=
  let basic := flat_map basicOf ms in
  groups <- Grouping.findRelatedMarkets ms ;;
  Normal (basic ++ flat_map correlatedOf groups)%list.

(** The tracker [seenOpportunities], a set of keys in insertion order. *)
Definition Tracker : Type := list string.

Definition has (key : string) (seen : Tracker) : bool := existsb (String.eqb key) seen.

(** The reporting loop: the tracker after it and the opportunities handed
    to [sendTelegramAlert], in order. *)
Fixpoint report (seen : Tracker) (opps : list WatchOpp) : Tracker * list WatchOpp :=
  match opps with
  | [] => (seen, [])
  | opp :: rest =>
      if has (opp_id opp) seen then report seen rest
      else
        let '(seen', sent) := report (seen ++ [opp_id opp])%list rest in
        (seen', opp :: sent)
  end.

(** [if (seenOpportunities.size > 1000) seenOpportunities.clear()] *)
Definition housekeeping (seen : Tracker) : Tracker :=
  if (1000 <? List.length seen)%nat then [] else seen.

(** Reporting and housekeeping, the tail of [watchCycle]. *)
Definition track (seen : Tracker) (opps : list WatchOpp) : Tracker * list WatchOpp :=
  let '(seen', sent) := report seen opps in (housekeeping seen', sent).

(** One call of [watchCycle]: a failed fetch returns at once. *)
Definition watchCycle (seen : Tracker) (fetched : option (list Market))
  : Completion (Tracker * list WatchOpp) :=
  match fetched with
  | None => Normal (seen, [])
  | Some ms => opps <- collect ms ;; Normal (track seen opps)
  end.

(** One turn of [main]'s loop, which catches what the cycle throws; the
    tracker is then as it was, since nothing throws once reporting starts. *)
Definition mainStep (seen : Tracker) (fetched : option (list Market))
  : Tracker * list WatchOpp :=
  match watchCycle seen fetched with
  | Normal out => out
  | Throw _ => (seen, [])
  end.

(** Consecutive cycles over given opportunity lists: the final tracker and
    everything that was sent. *)
Fixpoint trackAll (seen : Tracker) (cycles : list (list WatchOpp))
  : Tracker * list WatchOpp :=
  match cycles with
  | [] => (seen, [])
  | opps :: rest =>
      let '(seen', sent) := track seen opps in
      let '(seen'', sent') := trackAll seen' rest in
      (seen'', (sent ++ sent')%list)
  end.

(** Whether some cycle of the run ends with a clear. *)
Fixpoint clears (seen : Tracker) (cycles : list (list WatchOpp)) : bool :=
  match cycles with
  | [] => false
  | opps :: rest =>
      (1000 <? List.length (fst (report seen opps)))%nat
      || clears (fst (track seen opps)) rest
  end.

(** An opportunity with a given key, and a cycle that offers the keys
    ["0"], ["1"], ..., for examples. *)
Definition keyed (key : string) : WatchOpp :=
  {| opp_id := key; opp_name := key; opp_edge := Num.half;
     detail := BASIC Num.half 0 |}.

Definition numbered (n : nat) : list WatchOpp :=
  map (fun i => keyed (Str.of_nat i)) (seq 0 n).

(** Whether a cycle offers an opportunity with the given key. *)
Definition offers (key : string) (opps : list WatchOpp) : bool :=
  existsb (fun o => String.eqb key (opp_id o)) opps.

(** What one cycle finds, read as a value. *)
Definition found (ms : list Market) : list WatchOpp :=
  (flat_map basicOf ms ++ flat_map correlatedOf (Grouping.grouped ms))%list.

Definition sentCount (key : string) (sent : list WatchOpp) : nat :=
  count_occ string_dec (map opp_id sent) key.

End Watcher.

(* ================================================================= *)
(** ** quantum.js: the scores printed with an opportunity

    The texts that carry pictographs are modelled by tags: the verdicts of
    [fibonacciEdgeDetection] and the recommendations.  The level text
    [`FIBONACCI_${level}`] is modelled by the level it prints. *)

Module Quantum.

Local Open Scope float_scope.

Definition SCHRODINGER_CONSTANT : float := ParseFloat.dec "0.042069".
Definition EINSTEIN_FACTOR : float := 1 / ParseFloat.dec "137.035999".
Definition HEISENBERG_BUFFER : float := ParseFloat.dec "0.01".

(** [Math.PI] *)
Definition PI : float := 0x1.921fb54442d18p+1.

Inductive WaveFunction : Type := COLLAPSED_PROFITABLE | SUPERPOSITION_WAIT.

Record PhaseShift : Type := {
  raw : float;
  quantumAdjusted : float;
  phaseAngle : float;
  waveFunction : WaveFunction
}.

Section WithMath.

(** [Math.atan2] is a built-in. *)
Variable atan2 : float -> float -> float.

Definition calculateQuantumPhaseShift (prices : list float) : PhaseShift :=
  let sum := Num.sum prices in
  let expectedSum := 1 in
  let rawShift := expectedSum - sum in
  let quantumAdjusted := rawShift * (1 + SCHRODINGER_CONSTANT) in
  {| raw := rawShift;
     quantumAdjusted := quantumAdjusted;
     phaseAngle := atan2 rawShift EINSTEIN_FACTOR * (180 / PI);
     waveFunction := if 0 <? rawShift then COLLAPSED_PROFITABLE else SUPERPOSITION_WAIT |}.

End WithMath.

Inductive FibLevel : Type :=
| FIBONACCI (level : float)
| SUB_FIBONACCI.

Inductive FibVerdict : Type := FRACTAL_EDGE_DETECTED | BELOW_FRACTAL_THRESHOLD.

(** [goldenRatio] is absent from the result below the threshold. *)
Record FibResult : Type := {
  level : FibLevel;
  strength : float;
  goldenRatio : option float;
  verdict : FibVerdict
}.

Definition PHI : float := ParseFloat.dec "1.618033988749".

Definition fibLevels : list float :=
  map ParseFloat.dec ["0.236"; "0.382"; "0.5"; "0.618"; "0.786"]%string.

(** The loop over the levels, and the result after it. *)
Fixpoint fibLoop (levels : list float) (edge : float) : FibResult :=
  match levels with
  | level :: rest =>
      if level * ParseFloat.dec "0.1" <=? edge then
        {| level := FIBONACCI level;
           strength := edge / (level * ParseFloat.dec "0.1");
           goldenRatio := Some (edge * PHI);
           verdict := FRACTAL_EDGE_DETECTED |}
      else fibLoop rest edge
  | [] =>
      {| level := SUB_FIBONACCI;
         strength := edge * 100;
         goldenRatio := None;
         verdict := BELOW_FRACTAL_THRESHOLD |}
  end.

Definition fibonacciEdgeDetection (edge : float) : FibResult := fibLoop fibLevels edge.

Inductive Recommendation : Type := EXECUTE | MONITOR | OBSERVE | PASS.

Definition getQuantumRecommendation (edge : float) (waveFunction : WaveFunction)
  : Recommendation :=
  match waveFunction with
  | COLLAPSED_PROFITABLE =>
      if ParseFloat.dec "0.05" <? edge then EXECUTE
      else if ParseFloat.dec "0.03" <? edge then MONITOR
      else if ParseFloat.dec "0.01" <? edge then OBSERVE
      else PASS
  | SUPERPOSITION_WAIT =>
      if ParseFloat.dec "0.03" <? edge then MONITOR
      else if ParseFloat.dec "0.01" <? edge then OBSERVE
      else PASS
  end.

(** The recommendation line of [generateQuantumReport(arb)]:
    [getQuantumRecommendation(arb.edge, phase.waveFunction)] with
    [phase = calculateQuantumPhaseShift(arb.prices)]. *)
Definition recommendationOf (atan2 : float -> float -> float) (arb : Opportunity)
  : Recommendation :=
  getQuantumRecommendation (edge arb)
    (waveFunction (calculateQuantumPhaseShift atan2 (prices arb))).

(** [opp.yesPrice || 0.5], for a field that a correlated opportunity does
    not have. *)
Definition orHalf (field : option float) : float :=
  match field with
  | Some v => if Js.truthy (JNum v) then v else Num.half
  | None => Num.half
  end.

(** The phase printed with an alert of the watcher:
    [calculateQuantumPhaseShift([opp.yesPrice || 0.5, opp.noPrice || 0.5])]. *)
Definition alertPhase (atan2 : float -> float -> float) (opp : Watcher.WatchOpp)
  : PhaseShift :=
  match Watcher.detail opp with
  | Watcher.BASIC yesPrice noPrice =>
      calculateQuantumPhaseShift atan2 [orHalf (Some yesPrice); orHalf (Some noPrice)]
  | Watcher.CORRELATED _ _ _ =>
      calculateQuantumPhaseShift atan2 [orHalf None; orHalf None]
  end.

End Quantum.

(* ################################################################# *)
(** * Part II: properties *)

(* ================================================================= *)
(** ** Binary64 arithmetic: the sign of a difference

    The detectors compare [1 - cost] with zero and the sort compares
    [b.edge - a.edge] with zero.  Rounding a difference never changes its
    sign: the exact difference of two doubles is a multiple of the smallest
    positive double, so it cannot round to zero, and rounding is monotone. *)

Module NumFacts.

Import Num.
Local Open Scope Z_scope.

Lemma fexp_value (e : Z) : fexp prec emax e = Z.max (e - 53) (-1074).
Proof. reflexivity. Qed.

(** Bit length of a positive mantissa. *)
Lemma digits2_pos_bounds (m : positive) :
  2 ^ (Z.pos (digits2_pos m) - 1) <= Z.pos m < 2 ^ Z.pos (digits2_pos m).
Proof.
  induction m as [m IH | m IH | ]; cbn [digits2_pos].
  - rewrite Pos2Z.inj_succ.
    replace (Z.succ (Z.pos (digits2_pos m)) - 1) with (Z.succ (Z.pos (digits2_pos m) - 1)) by lia.
    rewrite !Z.pow_succ_r by lia. lia.
  - rewrite Pos2Z.inj_succ.
    replace (Z.succ (Z.pos (digits2_pos m)) - 1) with (Z.succ (Z.pos (digits2_pos m) - 1)) by lia.
    rewrite !Z.pow_succ_r by lia. lia.
  - cbn. lia.
Qed.

(** One right shift halves the mantissa of the record. *)
Lemma shr_1_m (mrs : shr_record) :
  0 <= shr_m mrs -> shr_m (shr_1 mrs) = shr_m mrs / 2.
Proof.
  destruct mrs as [m r s]; cbn [shr_m shr_1]; intros Hm.
  destruct m as [ | [p | p | ] | p ]; cbn [shr_m]; try lia; try reflexivity.
  - rewrite Pos2Z.inj_xI. apply Z.div_unique with (r := 1); lia.
  - rewrite Pos2Z.inj_xO. apply Z.div_unique with (r := 0); lia.
Qed.

Lemma iter_shr_1_m (p : positive) : forall mrs : shr_record,
  0 <= shr_m mrs -> shr_m (iter_pos shr_1 p mrs) = shr_m mrs / 2 ^ Z.pos p.
Proof.
  induction p as [p IH | p IH | ]; intros mrs Hm; cbn [iter_pos].
  - assert (H1 : 0 <= shr_m (shr_1 mrs)) by (rewrite shr_1_m by assumption; apply Z.div_pos; lia).
    assert (H2 : 0 <= shr_m (iter_pos shr_1 p (shr_1 mrs)))
      by (rewrite IH by assumption; apply Z.div_pos; [assumption | apply Z.pow_pos_nonneg; lia]).
    rewrite IH, IH, shr_1_m by assumption.
    rewrite !Z.div_div by (try apply Z.pow_pos_nonneg; lia).
    f_equal. replace (Z.pos p~1) with (1 + Z.pos p + Z.pos p) by lia.
    rewrite !Z.pow_add_r by lia. change (2 ^ 1) with 2. lia.
  - assert (H2 : 0 <= shr_m (iter_pos shr_1 p mrs))
      by (rewrite IH by assumption; apply Z.div_pos; [assumption | apply Z.pow_pos_nonneg; lia]).
    rewrite IH, IH by assumption.
    rewrite !Z.div_div by (try apply Z.pow_pos_nonneg; lia).
    f_equal. replace (Z.pos p~0) with (Z.pos p + Z.pos p) by lia.
    rewrite Z.pow_add_r by lia. reflexivity.
  - rewrite shr_1_m by assumption. reflexivity.
Qed.

Lemma shr_record_of_loc_m (m : Z) (l : location) : shr_m (shr_record_of_loc m l) = m.
Proof. destruct l as [ | [ | | ]]; reflexivity. Qed.

(** Truncating a positive mantissa to the target precision keeps it positive,
    as long as the exponent is not below the smallest one. *)
Lemma shr_fexp_pos (m : positive) (e : Z) (l : location) :
  sf_emin <= e ->
  0 < shr_m (fst (shr_fexp prec emax (Z.pos m) e l)) /\
  sf_emin <= snd (shr_fexp prec emax (Z.pos m) e l).
Proof.
  intros He. unfold shr_fexp, shr. rewrite fexp_value. cbn [Zdigits2].
  pose proof (digits2_pos_bounds m) as Hd.
  set (d := Z.pos (digits2_pos m)) in *.
  destruct (Z.max (d + e - 53) (-1074) - e) as [ | n | n ] eqn:Hn; cbn [fst snd];
    rewrite ?shr_record_of_loc_m; unfold sf_emin in *; try lia.
  split; [ | lia ].
  rewrite iter_shr_1_m by (rewrite shr_record_of_loc_m; lia).
  rewrite shr_record_of_loc_m.
  assert (Hnd : Z.pos n = d - 53) by lia.
  apply Z.div_str_pos. split; [ apply Z.pow_pos_nonneg; lia | ].
  apply Z.le_trans with (2 ^ (d - 1)); [ | lia ].
  apply Z.pow_le_mono_r; lia.
Qed.

Lemma round_nearest_even_pos (m : Z) (l : location) : 0 < m -> 0 < round_nearest_even m l.
Proof.
  intros Hm. destruct l as [ | [ | | ]]; cbn [round_nearest_even]; try lia.
  destruct (Z.even m); lia.
Qed.

Lemma binary_round_aux_sign (s : bool) (m : positive) (e : Z) (l : location) :
  sf_emin <= e -> signed_nonzero s (binary_round_aux prec emax s (Z.pos m) e l).
Proof.
  intros He. unfold binary_round_aux.
  destruct (shr_fexp_pos m e l He) as [H1 H2].
  destruct (shr_fexp prec emax (Z.pos m) e l) as [mrs' e'] eqn:E1. cbn [fst snd] in H1, H2.
  pose proof (round_nearest_even_pos _ (loc_of_shr_record mrs') H1) as H3.
  destruct (round_nearest_even (shr_m mrs') (loc_of_shr_record mrs')) as [ | m2 | m2 ] eqn:E2; try lia.
  destruct (shr_fexp_pos m2 e' loc_Exact H2) as [H4 H5].
  destruct (shr_fexp prec emax (Z.pos m2) e' loc_Exact) as [mrs'' e''] eqn:E3. cbn [fst snd] in H4, H5.
  destruct (shr_m mrs'') as [ | m3 | m3 ]; try lia.
  destruct (e'' <=? emax - prec); [ left; eauto | right; reflexivity ].
Qed.

Lemma shl_align_exp (m : positive) (e e' : Z) : Z.min e e' <= snd (shl_align m e e').
Proof. unfold shl_align. destruct (e' - e) eqn:E; cbn [snd]; lia. Qed.

Lemma binary_round_sign (s : bool) (m : positive) (e : Z) :
  sf_emin <= e -> signed_nonzero s (binary_round prec emax s m e).
Proof.
  intros He. unfold binary_round.
  pose proof (shl_align_exp m e (fexp prec emax (Z.pos (digits2_pos m) + e))) as H.
  destruct (shl_align m e (fexp prec emax (Z.pos (digits2_pos m) + e))) as [mz ez].
  cbn [snd] in H. apply binary_round_aux_sign.
  rewrite fexp_value in H. unfold sf_emin in *. lia.
Qed.


(** *** The rank orders the numbers as the comparison does *)

Lemma bounded_inv (m : positive) (e : Z) :
  bounded prec emax m e = true ->
  -1074 <= e <= 971 /\ Z.pos (digits2_pos m) <= 53 /\
  (-1074 < e -> Z.pos (digits2_pos m) = 53).
Proof.
  unfold bounded, canonical_mantissa. rewrite fexp_value.
  intros H. apply andb_true_iff in H. destruct H as [H1 H2].
  apply Z.eqb_eq in H1. apply Z.leb_le in H2.
  change (emax - prec) with 971 in H2. lia.
Qed.

Lemma mag_pos (m : positive) (e : Z) : -1074 <= e -> 0 < mag m e.
Proof.
  intros He. unfold mag. apply Z.mul_pos_pos; [ lia | apply Z.pow_pos_nonneg; lia ].
Qed.

Lemma mag_lt_top (m : positive) (e : Z) :
  bounded prec emax m e = true -> mag m e < 2 ^ 2098.
Proof.
  intros Hb. destruct (bounded_inv _ _ Hb) as (He & Hd & _).
  pose proof (digits2_pos_bounds m) as [_ Hm].
  assert (Hm53 : Z.pos m < 2 ^ 53).
  { eapply Z.lt_le_trans; [ exact Hm | apply Z.pow_le_mono_r; lia ]. }
  unfold mag.
  apply Z.lt_le_trans with (2 ^ 53 * 2 ^ (e + 1074)).
  - apply Z.mul_lt_mono_pos_r; [ apply Z.pow_pos_nonneg; lia | exact Hm53 ].
  - rewrite <- Z.pow_add_r by lia. apply Z.pow_le_mono_r; lia.
Qed.

Lemma mag_lt_of_exp (m1 m2 : positive) (e1 e2 : Z) :
  bounded prec emax m1 e1 = true -> bounded prec emax m2 e2 = true ->
  e1 < e2 -> mag m1 e1 < mag m2 e2.
Proof.
  intros Hb1 Hb2 Hlt.
  destruct (bounded_inv _ _ Hb1) as (He1 & Hd1 & _).
  destruct (bounded_inv _ _ Hb2) as (He2 & _ & Hd2).
  pose proof (digits2_pos_bounds m1) as [_ Hm1].
  pose proof (digits2_pos_bounds m2) as [Hm2 _].
  rewrite Hd2 in Hm2 by lia. change (53 - 1) with 52 in Hm2.
  assert (Hm53 : Z.pos m1 < 2 ^ 53).
  { eapply Z.lt_le_trans; [ exact Hm1 | apply Z.pow_le_mono_r; lia ]. }
  unfold mag.
  set (K := 2 ^ (e1 + 1074)).
  assert (HK : 0 < K) by (apply Z.pow_pos_nonneg; lia).
  replace (e2 + 1074) with ((e2 - e1) + (e1 + 1074)) by lia.
  rewrite Z.pow_add_r by lia. fold K.
  assert (H2 : 2 <= 2 ^ (e2 - e1)).
  { change 2 with (2 ^ 1) at 1. apply Z.pow_le_mono_r; lia. }
  apply Z.lt_le_trans with (2 ^ 53 * K).
  - apply Z.mul_lt_mono_pos_r; assumption.
  - rewrite Z.mul_assoc. apply Z.mul_le_mono_nonneg_r; [ lia | ].
    change (2 ^ 53) with (2 ^ 52 * 2).
    apply Z.mul_le_mono_nonneg; lia.
Qed.

Lemma mag_compare (m1 m2 : positive) (e1 e2 : Z) :
  bounded prec emax m1 e1 = true -> bounded prec emax m2 e2 = true ->
  (mag m1 e1 ?= mag m2 e2) =
  match e1 ?= e2 with
  | Lt => Lt
  | Gt => Gt
  | Eq => Pos.compare_cont Eq m1 m2
  end.
Proof.
  intros Hb1 Hb2.
  destruct (Z.compare_spec e1 e2) as [Heq | Hlt | Hgt].
  - subst e2. unfold mag.
    destruct (bounded_inv _ _ Hb1) as (He1 & _).
    assert (HK : 0 < 2 ^ (e1 + 1074)) by (apply Z.pow_pos_nonneg; lia).
    change (Pos.compare_cont Eq m1 m2) with (m1 ?= m2)%positive.
    destruct (Pos.compare_spec m1 m2) as [Hm | Hm | Hm].
    + subst m2. apply Z.compare_refl.
    + apply Z.compare_lt_iff. apply Z.mul_lt_mono_pos_r; [ exact HK | lia ].
    + apply Z.compare_gt_iff. apply Z.mul_lt_mono_pos_r; [ exact HK | lia ].
  - apply Z.compare_lt_iff. apply mag_lt_of_exp; assumption.
  - apply Z.compare_gt_iff. apply mag_lt_of_exp; assumption.
Qed.

Lemma rank_bounds (x : spec_float) :
  valid_binary x = true -> - 2 ^ 2098 <= rank x <= 2 ^ 2098.
Proof.
  assert (Hp : 0 < 2 ^ 2098) by (apply Z.pow_pos_nonneg; lia).
  destruct x as [s | s | | s m e]; cbn [rank valid_binary]; intros Hv; try lia.
  - destruct s; cbn [cond_Zopp]; lia.
  - pose proof (mag_lt_top _ _ Hv).
    destruct (bounded_inv _ _ Hv) as (He & _).
    pose proof (mag_pos m e ltac:(lia)).
    destruct s; cbn [cond_Zopp]; lia.
Qed.

(** The comparison of two valid numbers is the comparison of their ranks. *)
Lemma SFcompare_rank (x y : spec_float) :
  valid_binary x = true -> valid_binary y = true ->
  sf_is_nan x = false -> sf_is_nan y = false ->
  SFcompare x y = Some (rank x ?= rank y).
Proof.
  assert (Hp : 0 < 2 ^ 2098) by (apply Z.pow_pos_nonneg; lia).
  intros Hx Hy Nx Ny.
  destruct x as [sx | sx | | sx mx ex]; try discriminate Nx;
  destruct y as [sy | sy | | sy my ey]; try discriminate Ny;
  cbn [SFcompare rank]; cbn [valid_binary] in Hx, Hy; f_equal; symmetry;
  try (pose proof (mag_lt_top _ _ Hx); destruct (bounded_inv _ _ Hx) as (Hex & _);
       pose proof (mag_pos mx ex ltac:(lia)));
  try (pose proof (mag_lt_top _ _ Hy); destruct (bounded_inv _ _ Hy) as (Hey & _);
       pose proof (mag_pos my ey ltac:(lia)));
  try (destruct sx); try (destruct sy); cbn [cond_Zopp];
  try (first [ apply Z.compare_eq_iff; lia | apply Z.compare_lt_iff; lia
             | apply Z.compare_gt_iff; lia ]).
  - rewrite Z.compare_opp. rewrite (mag_compare my mx ey ex) by assumption.
    rewrite (Z.compare_antisym ex ey).
    destruct (ex ?= ey); cbn [CompOpp]; try reflexivity.
    rewrite (Pos.compare_cont_antisym mx my). reflexivity.
  - apply mag_compare; assumption.
Qed.


(** ** Subtraction never changes the sign of the exact difference *)

Lemma shl_align_val (m : positive) (e e' : Z) :
  e' <= e -> Z.pos (fst (shl_align m e e')) = Z.pos m * 2 ^ (e - e').
Proof.
  intros Hle. unfold shl_align.
  destruct (e' - e) as [ | d | d ] eqn:E; cbn [fst]; try lia.
  - replace (e - e') with 0 by lia. lia.
  - change (Pos.iter xO m d) with (shift_pos d m).
    rewrite shift_pos_correct. replace (e - e') with (Z.pos d) by lia.
    rewrite Z.mul_comm. reflexivity.
Qed.

Lemma binary_normalize_compare_zero (M e : Z) :
  sf_emin <= e ->
  SFcompare (binary_normalize prec emax M e false) (S754_zero false) = Some (M ?= 0).
Proof.
  intros He. destruct M as [ | p | p ]; cbn [binary_normalize].
  - reflexivity.
  - destruct (binary_round_sign false p e He) as [(m & e0 & ->) | ->]; reflexivity.
  - destruct (binary_round_sign true p e He) as [(m & e0 & ->) | ->]; reflexivity.
Qed.

Lemma SFsub_finite_compare (sx sy : bool) (mx my : positive) (ex ey : Z) :
  bounded prec emax mx ex = true -> bounded prec emax my ey = true ->
  SFcompare (SF64sub (S754_finite sx mx ex) (S754_finite sy my ey)) (S754_zero false)
  = Some (rank (S754_finite sx mx ex) ?= rank (S754_finite sy my ey)).
Proof.
  intros Hx Hy.
  destruct (bounded_inv _ _ Hx) as (Hex & _). destruct (bounded_inv _ _ Hy) as (Hey & _).
  unfold SF64sub, SFsub. cbv zeta.
  set (ez := Z.min ex ey).
  assert (Hzx : ez <= ex) by (unfold ez; lia).
  assert (Hzy : ez <= ey) by (unfold ez; lia).
  rewrite binary_normalize_compare_zero by (unfold sf_emin, ez; lia).
  rewrite !shl_align_val by assumption.
  f_equal. cbn [rank]. unfold mag.
  set (K := 2 ^ (ez + 1074)).
  assert (HK : 0 < K) by (apply Z.pow_pos_nonneg; unfold ez; lia).
  replace (2 ^ (ex + 1074)) with (2 ^ (ex - ez) * K)
    by (unfold K; rewrite <- Z.pow_add_r by lia; f_equal; lia).
  replace (2 ^ (ey + 1074)) with (2 ^ (ey - ez) * K)
    by (unfold K; rewrite <- Z.pow_add_r by lia; f_equal; lia).
  set (a := Z.pos mx * 2 ^ (ex - ez)). set (b := Z.pos my * 2 ^ (ey - ez)).
  rewrite !Z.mul_assoc. fold a b.
  assert (Hab : cond_Zopp sx (a * K) - cond_Zopp sy (b * K)
                = (cond_Zopp sx a - cond_Zopp sy b) * K)
    by (destruct sx, sy; cbn [cond_Zopp]; ring).
  rewrite (Z.compare_sub (cond_Zopp sx (a * K))), Hab.
  set (M := cond_Zopp sx a - cond_Zopp sy b).
  destruct (Z.compare_spec M 0) as [H0 | H0 | H0]; symmetry.
  - apply Z.compare_eq_iff. rewrite H0. reflexivity.
  - apply Z.compare_lt_iff. apply Z.mul_neg_pos; assumption.
  - apply Z.compare_gt_iff. apply Z.mul_pos_pos; assumption.
Qed.

Lemma SFsub_compare (x y : spec_float) :
  valid_binary x = true -> valid_binary y = true ->
  same_infinity x y = false ->
  SFcompare (SF64sub x y) (S754_zero false) = SFcompare x y.
Proof.
  intros Hx Hy Hinf.
  destruct x as [sx | sx | | sx mx ex]; destruct y as [sy | sy | | sy my ey];
    try reflexivity;
    try (destruct sx; reflexivity); try (destruct sy; reflexivity);
    try (destruct sx, sy; reflexivity).
  - destruct sx, sy; try discriminate Hinf; reflexivity.
  - rewrite SFsub_finite_compare by assumption.
    symmetry. apply SFcompare_rank; auto.
Qed.

Lemma SFsub_same_infinity (x y : spec_float) :
  same_infinity x y = true -> SF64sub x y = S754_nan.
Proof.
  destruct x as [sx | sx | | sx mx ex]; destruct y as [sy | sy | | sy my ey];
    try discriminate. destruct sx, sy; try discriminate; reflexivity.
Qed.

Lemma SFcompare_antisym (x y : spec_float) :
  SFcompare y x = option_map CompOpp (SFcompare x y).
Proof.
  destruct x as [sx | sx | | sx mx ex]; destruct y as [sy | sy | | sy my ey];
    cbn [SFcompare option_map]; try reflexivity;
    try (destruct sx; reflexivity); try (destruct sy; reflexivity);
    try (destruct sx, sy; reflexivity).
  destruct sx, sy; cbn [CompOpp]; try reflexivity; f_equal;
    rewrite (Z.compare_antisym ex ey); destruct (ex ?= ey); cbn [CompOpp]; try reflexivity;
    rewrite (Pos.compare_cont_antisym mx my); cbn [CompOpp];
    try rewrite CompOpp_involutive; reflexivity.
Qed.

(** *** Primitive floats: comparisons through ranks *)

Definition frank (x : float) : Z := rank (Prim2SF x).
Definition fnan (x : float) : bool := sf_is_nan (Prim2SF x).

Lemma fnan_is_nan (x : float) : fnan x = is_nan x.
Proof.
  unfold fnan, Prim2SF.
  destruct (is_nan x); [ reflexivity | ].
  destruct (is_zero x); [ reflexivity | ].
  destruct (is_infinity x); [ reflexivity | ].
  destruct (FloatOps.Z.frexp x) as [r e].
  destruct (shr_fexp prec emax _ _ _) as [mrs e'].
  destruct (shr_m mrs); reflexivity.
Qed.

Lemma Prim2SF_zero : Prim2SF 0%float = S754_zero false.
Proof. reflexivity. Qed.

Lemma Prim2SF_one : Prim2SF 1%float = S754_finite false 4503599627370496 (-52).
Proof. reflexivity. Qed.

Lemma SFcompare_nan_l (y : spec_float) : SFcompare S754_nan y = None.
Proof. reflexivity. Qed.

Lemma SFcompare_nan_r (x : spec_float) : SFcompare x S754_nan = None.
Proof. destruct x; reflexivity. Qed.

Lemma compare_rank (x y : float) :
  SFcompare (Prim2SF x) (Prim2SF y) =
  if fnan x || fnan y then None else Some (frank x ?= frank y).
Proof.
  unfold fnan, frank.
  pose proof (Prim2SF_valid x) as Hx. pose proof (Prim2SF_valid y) as Hy.
  destruct (sf_is_nan (Prim2SF x)) eqn:Nx.
  - destruct (Prim2SF x); try discriminate Nx. reflexivity.
  - destruct (sf_is_nan (Prim2SF y)) eqn:Ny.
    + destruct (Prim2SF y); try discriminate Ny. apply SFcompare_nan_r.
    + apply SFcompare_rank; assumption.
Qed.

Lemma leb_rank (x y : float) :
  (x <=? y)%float = negb (fnan x || fnan y) && (frank x <=? frank y).
Proof.
  rewrite leb_spec. unfold SFleb. rewrite compare_rank.
  destruct (fnan x || fnan y); [ reflexivity | ]. cbn [negb andb].
  unfold Z.leb. destruct (frank x ?= frank y); reflexivity.
Qed.

Lemma ltb_rank (x y : float) :
  (x <? y)%float = negb (fnan x || fnan y) && (frank x <? frank y).
Proof.
  rewrite ltb_spec. unfold SFltb. rewrite compare_rank.
  destruct (fnan x || fnan y); [ reflexivity | ]. cbn [negb andb].
  unfold Z.ltb. destruct (frank x ?= frank y); reflexivity.
Qed.

Lemma leb_true (x y : float) :
  (x <=? y)%float = true <-> fnan x = false /\ fnan y = false /\ frank x <= frank y.
Proof.
  rewrite leb_rank, andb_true_iff, negb_true_iff, orb_false_iff, Z.leb_le. tauto.
Qed.

Lemma ltb_true (x y : float) :
  (x <? y)%float = true <-> fnan x = false /\ fnan y = false /\ frank x < frank y.
Proof.
  rewrite ltb_rank, andb_true_iff, negb_true_iff, orb_false_iff, Z.ltb_lt. tauto.
Qed.

Lemma same_infinity_compare (x y : spec_float) :
  same_infinity x y = true -> SFcompare x y = Some Eq.
Proof.
  destruct x as [sx | sx | | sx mx ex]; destruct y as [sy | sy | | sy my ey];
    try discriminate. destruct sx, sy; try discriminate; reflexivity.
Qed.

(** The sign of a rounded difference is the comparison of the operands. *)
Lemma sub_ltb_zero (x y : float) : (x - y <? 0)%float = (x <? y)%float.
Proof.
  rewrite !ltb_spec, sub_spec, Prim2SF_zero. unfold SFltb.
  destruct (same_infinity (Prim2SF x) (Prim2SF y)) eqn:E.
  - rewrite (SFsub_same_infinity _ _ E), (same_infinity_compare _ _ E). reflexivity.
  - rewrite SFsub_compare by (try apply Prim2SF_valid; exact E). reflexivity.
Qed.

Lemma zero_ltb_sub (x y : float) : (0 <? x - y)%float = (y <? x)%float.
Proof.
  rewrite !ltb_spec, sub_spec, Prim2SF_zero. unfold SFltb.
  rewrite (SFcompare_antisym (SF64sub (Prim2SF x) (Prim2SF y)) (S754_zero false)).
  rewrite (SFcompare_antisym (Prim2SF x) (Prim2SF y)).
  destruct (same_infinity (Prim2SF x) (Prim2SF y)) eqn:E.
  - rewrite (SFsub_same_infinity _ _ E), (same_infinity_compare _ _ E). reflexivity.
  - rewrite SFsub_compare by (try apply Prim2SF_valid; exact E). reflexivity.
Qed.

Lemma sub_leb_zero (x y : float) :
  same_infinity (Prim2SF x) (Prim2SF y) = false ->
  (x - y <=? 0)%float = (x <=? y)%float.
Proof.
  intros E. rewrite !leb_spec, sub_spec, Prim2SF_zero. unfold SFleb.
  rewrite SFsub_compare by (try apply Prim2SF_valid; exact E). reflexivity.
Qed.

(** The gate of the single-market detectors: [1 - c <= 0] is [c >= 1]. *)
Lemma one_sub_leb_zero (c : float) : (1 - c <=? 0)%float = (1 <=? c)%float.
Proof. apply sub_leb_zero. rewrite Prim2SF_one. reflexivity. Qed.

(** A gate [e <= 0] that does not fire: [e] is positive or not a number. *)
Lemma leb_zero_false (e : float) :
  (e <=? 0)%float = false <-> (0 <? e)%float = true \/ is_nan e = true.
Proof.
  rewrite <- fnan_is_nan, leb_rank, ltb_rank.
  assert (H0 : fnan 0%float = false) by reflexivity.
  assert (R0 : frank 0%float = 0) by reflexivity.
  rewrite H0, R0, orb_false_r. cbn [orb].
  destruct (fnan e); cbn [negb andb].
  - intuition.
  - rewrite Z.leb_gt, Z.ltb_lt. intuition discriminate.
Qed.

End NumFacts.

(* ================================================================= *)
(** ** The detectors *)

Module ScannerFacts.

Import Scanner.
Local Open Scope string_scope.
Local Open Scope float_scope.

Lemma parseFloat_or (entry alt : JsVal) :
  Js.parseFloat (Js.or (Js.or entry alt) (JNum Num.half)) = pick entry alt.
Proof.
  unfold pick, Js.or.
  destruct (Js.truthy entry) eqn:E; [ rewrite E; reflexivity | ].
  destruct (Js.truthy alt) eqn:A; reflexivity.
Qed.

Lemma yesPrice_pick (market : Market) :
  yesPrice market = pick (Js.index (outcomePrices market) 0) (yes_price market).
Proof. apply parseFloat_or. Qed.

Lemma noPrice_pick (market : Market) :
  noPrice market = pick (Js.index (outcomePrices market) 1) (no_price market).
Proof. apply parseFloat_or. Qed.

(** C1 (corrected).  The prices that the basic rule works with are not
    simply the first and second outcome price with 0.5 for an absent one.
    An entry of [outcomePrices] counts only when it is truthy; otherwise the
    field [yes_price] (for the second price [no_price]) is taken when that
    is truthy, and only then 0.5; what is taken is read by [parseFloat].
    With [yes] and [no] read in this way, [detectBasicArb] answers "no
    signal" exactly when [yes + no >= 1] in the arithmetic of the program;
    otherwise it returns an opportunity with edge [1 - (yes + no)], cost
    [yes + no] and payout [1.0].  The further parts spell the reading out:
    a number that is neither zero nor NaN is taken as it is, a text that is
    not empty is parsed, and where there is no entry, or the entry is the
    number 0 or the empty text, the alternate field decides, 0.5 standing in
    for an absent alternate.  On the mock market with the prices "0.45" and
    "0.52" the rule signals with the cost and the edge that double
    arithmetic gives, 0.97 and 0.030000000000000027. *)
Theorem detectBasicArb_signal_iff (market : Market) :
  let yes := pick (Js.index (outcomePrices market) 0) (yes_price market) in
  let no := pick (Js.index (outcomePrices market) 1) (no_price market) in
  match detectBasicArb market with
  | None => (1 <=? yes + no) = true
  | Some opp =>
      (1 <=? yes + no) = false /\
      edge opp = 1 - (yes + no) /\ cost opp = yes + no /\ payout opp = 1 /\
      opp_type opp = BASIC_ARB /\ prices opp = [yes; no]
  end /\
  (forall y n rest, outcomePrices market = JArr (JNum y :: JNum n :: rest) ->
     (is_zero y || is_nan y = false -> yes = y) /\
     (is_zero n || is_nan n = false -> no = n)) /\
  (forall s t rest, outcomePrices market = JArr (JStr s :: JStr t :: rest) ->
     (s <> "" -> yes = ParseFloat.of_string s) /\
     (t <> "" -> no = ParseFloat.of_string t)) /\
  (forall rest,
     outcomePrices market = JUndefined \/ outcomePrices market = JArr [] \/
     outcomePrices market = JArr (JNum 0 :: rest) \/
     outcomePrices market = JArr (JStr "" :: rest) ->
     (yes_price market = JUndefined -> yes = 0.5) /\
     (forall a, yes_price market = JNum a -> is_zero a || is_nan a = false -> yes = a)) /\
  (forall e rest,
     outcomePrices market = JUndefined \/ outcomePrices market = JArr [e] \/
     outcomePrices market = JArr (e :: JNum 0 :: rest) \/
     outcomePrices market = JArr (e :: JStr "" :: rest) ->
     (no_price market = JUndefined -> no = 0.5) /\
     (forall a, no_price market = JNum a -> is_zero a || is_nan a = false -> no = a)) /\
  (exists opp, detectBasicArb (quoted [JStr "0.45"; JStr "0.52"]) = Some opp /\
     prices opp = [0x1.ccccccccccccdp-2; 0x1.0a3d70a3d70a4p-1] /\
     cost opp = 0x1.f0a3d70a3d70ap-1 /\ edge opp = 0x1.eb851eb851ecp-6).
Proof.
  intros yes no.
  assert (Hnum : forall a alt, is_zero a || is_nan a = false -> pick (JNum a) alt = a).
  { intros a alt H. unfold pick. cbn [Js.truthy Js.parseFloat]. rewrite H. cbn [negb].
    apply orb_false_iff in H. destruct H as [H _]. rewrite H. reflexivity. }
  assert (Htxt : forall s alt, s <> "" -> pick (JStr s) alt = ParseFloat.of_string s).
  { intros s alt H. unfold pick. cbn [Js.truthy Js.parseFloat].
    destruct s as [ | c s ]; [ contradiction | reflexivity ]. }
  assert (Halt : forall entry alt,
            Js.truthy entry = false ->
            (alt = JUndefined -> pick entry alt = 0.5) /\
            (forall a, alt = JNum a -> is_zero a || is_nan a = false -> pick entry alt = a)).
  { intros entry alt H. unfold pick. rewrite H. split.
    - intros ->. reflexivity.
    - intros a -> Ha. cbn [Js.truthy Js.parseFloat]. rewrite Ha. cbn [negb].
      apply orb_false_iff in Ha. destruct Ha as [Ha _]. rewrite Ha. reflexivity. }
  split.
  { unfold detectBasicArb.
    rewrite yesPrice_pick, noPrice_pick. fold yes no. cbv zeta.
    rewrite NumFacts.one_sub_leb_zero.
    destruct (1 <=? yes + no); cbn [edge cost payout prices opp_type]; auto 10. }
  split.
  { intros y n rest H. unfold yes, no. rewrite H. cbn [Js.index nth].
    split; intros Hz; apply Hnum; exact Hz. }
  split.
  { intros s t rest H. unfold yes, no. rewrite H. cbn [Js.index nth].
    split; intros Hs; apply Htxt; exact Hs. }
  split.
  { intros rest H. unfold yes. apply Halt.
    destruct H as [ H | [ H | [ H | H ] ] ]; rewrite H; reflexivity. }
  split.
  { intros e rest H. unfold no. apply Halt.
    destruct H as [ H | [ H | [ H | H ] ] ]; rewrite H; reflexivity. }
  clear. eexists. split; [ vm_compute; reflexivity | ].
  repeat split; vm_compute; reflexivity.
Qed.

(** C1, counterexample.  The first and second outcome price of the first
    market are 0 and 0.6 and add up to less than 1, yet nothing is
    signalled: the zero is read as 0.5.  The second market has no outcome
    prices, so that both would default to 0.5 and add up to 1, yet the rule
    signals with an edge of 0.5: it reads the fields [yes_price] and
    [no_price]. *)
Lemma detectBasicArb_reads_other_prices :
  let market := quoted [JNum 0; JNum (ParseFloat.dec "0.6")] in
  let priced :=
    {| market_id := None; question := Some "Q"; title := None;
       outcomes := JUndefined; outcomePrices := JUndefined;
       yes_price := JNum (ParseFloat.dec "0.2"); no_price := JNum (ParseFloat.dec "0.3");
       volume := JUndefined; volumeNum := JUndefined |} in
  (outcomePrices market = JArr [JNum 0; JNum (ParseFloat.dec "0.6")] /\
   (1 <=? 0 + ParseFloat.dec "0.6") = false /\
   detectBasicArb market = None) /\
  (outcomePrices priced = JUndefined /\
   (1 <=? ParseFloat.dec "0.5" + ParseFloat.dec "0.5") = true /\
   exists opp, detectBasicArb priced = Some opp /\ edge opp = ParseFloat.dec "0.5").
Proof.
  split; [ repeat split; vm_compute; reflexivity | ].
  split; [ reflexivity | ]. split; [ vm_compute; reflexivity | ].
  eexists. split; vm_compute; reflexivity.
Qed.


(** *** The correlated-date rule *)

(** C2, counterexample.  A price text that does not parse makes the edge
    NaN; the gate [edge <= 0] does not fire and an opportunity is returned
    although [edge > 0] is false.  And three prices of 0.30 add up to the
    double just below 0.9, not to 0.9. *)
Lemma detectCorrelatedArb_nan_edge :
  (exists opp, detectCorrelatedArb (groupOf ["n/a"; "0.30"]) = Some opp /\
               (0 <? edge opp) = false /\ is_nan (edge opp) = true) /\
  (exists opp, detectCorrelatedArb (groupOf ["0.30"; "0.30"; "0.30"]) = Some opp /\
               (cost opp =? ParseFloat.dec "0.9") = false).
Proof. split; eexists; (split; [ vm_compute; reflexivity | ]); vm_compute; auto. Qed.

(** X21.  For a group of [n] markets the rule adds up the second
    ("lose") prices (alternate field or 0.5 when the entry is absent), takes
    [minPayout = n - 1] and [edge = (minPayout - cost) / n], and answers "no
    signal" exactly when [n < 2] or [edge <= 0]; so it returns an opportunity
    exactly when [edge > 0] or the edge is NaN.  Lose prices 0.82, 0.75, 0.62
    give cost 2.19 and a negative edge, hence no signal; three prices 0.30
    give the double just below 0.9 as cost and a signal whose edge is the
    double 0.3666666666666667, which is the double next above the one
    nearest to 11/30 (0.36666666666666664). *)
Theorem detectCorrelatedArb_rule (group : EventGroup) :
  let n := List.length (markets group) in
  let lose := map (fun m => pick (Js.index (outcomePrices m) 1) (no_price m)) (markets group) in
  let total := Num.sum lose in
  let minPayout := Num.of_nat n - 1 in
  let e := (minPayout - total) / Num.of_nat n in
  match detectCorrelatedArb group with
  | None => (n < 2)%nat \/ (e <=? 0) = true
  | Some opp =>
      (2 <= n)%nat /\ ((0 <? e) = true \/ is_nan e = true) /\
      edge opp = e /\ cost opp = total /\ payout opp = minPayout /\
      prices opp = lose /\ marketCount opp = n
  end
  /\ Num.of_nat 3 - 1 = 2
  /\ Num.sum (map noPrice (markets (groupOf ["0.82"; "0.75"; "0.62"]))) = ParseFloat.dec "2.19"
  /\ ((2 - ParseFloat.dec "2.19") / 3 <? 0) = true
  /\ detectCorrelatedArb (groupOf ["0.82"; "0.75"; "0.62"]) = None
  /\ (exists opp, detectCorrelatedArb (groupOf ["0.30"; "0.30"; "0.30"]) = Some opp /\
        cost opp = next_down (ParseFloat.dec "0.9") /\
        edge opp = ParseFloat.dec "0.3666666666666667" /\
        edge opp = next_up (11 / 30) /\
        11 / 30 = ParseFloat.dec "0.36666666666666664" /\
        (ParseFloat.dec "0.3666" <? edge opp) = true /\
        (edge opp <? ParseFloat.dec "0.3668") = true).
Proof.
  intros n lose total minPayout e. split.
  - unfold detectCorrelatedArb. fold n.
    assert (Hlose : map noPrice (markets group) = lose).
    { unfold lose. apply map_ext. intros m. apply noPrice_pick. }
    rewrite Hlose. fold total. cbv zeta. fold minPayout. fold e.
    destruct (n <? 2)%nat eqn:Hn.
    + left. apply Nat.ltb_lt. exact Hn.
    + apply Nat.ltb_ge in Hn.
      destruct (e <=? 0) eqn:He.
      * right. reflexivity.
      * cbn [edge cost payout prices marketCount].
        repeat split; auto. apply NumFacts.leb_zero_false. exact He.
  - clear. repeat apply conj; try (vm_compute; reflexivity).
    eexists. split; [ vm_compute; reflexivity | ].
    repeat apply conj; vm_compute; reflexivity.
Qed.

(** *** The mutually-exclusive rule *)

Section Exclusive.

Variable JSON_parse : string -> option JsVal.

Lemma mutuallyExclusiveOf_gate (market : Market) (outs : JsVal) (ps : list float) :
  mutuallyExclusiveOf market outs ps =
  if length_differs (List.length ps) outs then None
  else if 1 <=? Num.sum ps then None
  else Some {| opp_type := MUTUALLY_EXCLUSIVE_ARB;
               name := displayName market;
               edge := 1 - Num.sum ps;
               cost := Num.sum ps;
               payout := 1;
               prices := ps;
               marketCount := 1;
               totalVolume := volumeOf market;
               opp_markets := [market] |}.
Proof.
  unfold mutuallyExclusiveOf. rewrite NumFacts.one_sub_leb_zero. reflexivity.
Qed.

Lemma detectMutuallyExclusiveArb_decoded (market : Market) :
  detectMutuallyExclusiveArb JSON_parse market =
  Normal
    (let outs := Js.or (outcomes market) (JArr []) in
     if length_below outs 3 then None
     else match decoded JSON_parse market with
          | Some ps => mutuallyExclusiveOf market outs ps
          | None => None
          end).
Proof.
  unfold detectMutuallyExclusiveArb, decoded. cbv zeta.
  destruct (length_below (Js.or (outcomes market) (JArr [])) 3); [ reflexivity | ].
  destruct (outcomePrices market) as [ | | b | x | s | l | ]; try reflexivity.
  unfold json_parse. destruct (JSON_parse s) as [ v | ]; [ | reflexivity ].
  destruct v; reflexivity.
Qed.

(** X22.  [detectMutuallyExclusiveArb] never throws.  It answers
    "no signal" when the price field is neither an array nor a text that
    decodes to one, when the market has fewer than 3 outcomes, and when the
    number of prices differs from the number of outcomes.  Otherwise it
    answers "no signal" exactly when the sum of the parsed prices is [>= 1];
    if not (the sum is below 1, or is NaN because a price does not parse) it
    returns an opportunity with edge [1 - sum], cost [sum], payout [1.0]. *)
Theorem detectMutuallyExclusiveArb_rule (market : Market) :
  let outs := Js.or (outcomes market) (JArr []) in
  exists r, detectMutuallyExclusiveArb JSON_parse market = Normal r /\
    match decoded JSON_parse market with
    | None => r = None
    | Some ps =>
        if length_below outs 3 || length_differs (List.length ps) outs then r = None
        else
          match r with
          | None => (1 <=? Num.sum ps) = true
          | Some opp =>
              (1 <=? Num.sum ps) = false /\
              edge opp = 1 - Num.sum ps /\ cost opp = Num.sum ps /\
              payout opp = 1 /\ prices opp = ps /\
              opp_type opp = MUTUALLY_EXCLUSIVE_ARB
          end
    end.
Proof.
  intros outs. eexists. split; [ apply detectMutuallyExclusiveArb_decoded | ].
  cbv zeta. fold outs.
  destruct (decoded JSON_parse market) as [ ps | ].
  - rewrite mutuallyExclusiveOf_gate.
    destruct (length_below outs 3); [ reflexivity | ]. cbn [orb].
    destruct (length_differs (List.length ps) outs); [ reflexivity | ].
    destruct (1 <=? Num.sum ps); cbn [edge cost payout prices opp_type]; auto 10.
  - destruct (length_below outs 3); reflexivity.
Qed.

End Exclusive.

(** C3, counterexample.  Three outcomes and three prices that do not
    parse: no decoding fails and the lengths agree, yet the sum is NaN, hence not below 1, and an
    opportunity is returned all the same. *)
Lemma detectMutuallyExclusiveArb_nan_sum :
  let market :=
    {| market_id := None; question := Some "Q"; title := None;
       outcomes := JArr [JStr "A"; JStr "B"; JStr "C"];
       outcomePrices := JArr [JStr "x"; JStr "y"; JStr "z"];
       yes_price := JUndefined; no_price := JUndefined;
       volume := JUndefined; volumeNum := JUndefined |} in
  exists opp,
    detectMutuallyExclusiveArb (fun _ => None) market = Normal (Some opp) /\
    (Num.sum (prices opp) <? 1) = false /\ is_nan (edge opp) = true.
Proof. eexists. split; [ vm_compute; reflexivity | ]. vm_compute. auto. Qed.


(** *** Totality and defaults *)



(** *** Falsy prices *)

(** X23.  A price entry that is present but falsy (the number 0, the empty
    string) is treated exactly as an absent one: if [absent] is [market] with
    its falsy entries removed, both rules and the watcher read the same
    prices from the two, and the basic rule gives the same answer up to the
    market it quotes. *)
Theorem falsy_price_is_absent (market absent : Market) (group : EventGroup) :
  yes_price absent = yes_price market ->
  no_price absent = no_price market ->
  (forall i, Js.index (outcomePrices absent) i =
             if Js.truthy (Js.index (outcomePrices market) i)
             then Js.index (outcomePrices market) i else JUndefined) ->
  yesPrice market = yesPrice absent /\
  noPrice market = noPrice absent /\
  Watcher.priceAt market 0 = Watcher.priceAt absent 0 /\
  Watcher.priceAt market 1 = Watcher.priceAt absent 1 /\
  option_map (fun o => (edge o, cost o, prices o)) (detectBasicArb market) =
  option_map (fun o => (edge o, cost o, prices o)) (detectBasicArb absent) /\
  (Js.truthy (Js.index (outcomePrices market) 0) = false ->
   Js.truthy (yes_price market) = false -> yesPrice market = ParseFloat.dec "0.5") /\
  (Js.truthy (Js.index (outcomePrices market) 1) = false ->
   Js.truthy (no_price market) = false -> noPrice market = ParseFloat.dec "0.5") /\
  match detectCorrelatedArb group with
  | Some opp => prices opp = map noPrice (markets group)
  | None => True
  end.
Proof.
  intros Hy Hn Hidx.
  assert (Hor : forall i d, Js.or (Js.index (outcomePrices market) i) d =
                            Js.or (Js.index (outcomePrices absent) i) d).
  { intros i d. rewrite Hidx. unfold Js.or.
    destruct (Js.truthy (Js.index (outcomePrices market) i)) eqn:E.
    - rewrite E. reflexivity.
    - reflexivity. }
  assert (Hyes : yesPrice market = yesPrice absent)
    by (unfold yesPrice; rewrite Hor, Hy; reflexivity).
  assert (Hno : noPrice market = noPrice absent)
    by (unfold noPrice; rewrite Hor, Hn; reflexivity).
  repeat split; try assumption.
  - unfold Watcher.priceAt. rewrite Hor. reflexivity.
  - unfold Watcher.priceAt. rewrite Hor. reflexivity.
  - unfold detectBasicArb. rewrite Hyes, Hno. cbv zeta.
    destruct (1 - (yesPrice absent + noPrice absent) <=? 0); reflexivity.
  - intros E A. rewrite yesPrice_pick. unfold pick. rewrite E, A. reflexivity.
  - intros E A. rewrite noPrice_pick. unfold pick. rewrite E, A. reflexivity.
  - unfold detectCorrelatedArb.
    destruct (List.length (markets group) <? 2)%nat; [ exact I | ]. cbv zeta.
    match goal with |- context [if ?c then None else _] => destruct c end;
      [ exact I | reflexivity ].
Qed.

(** A zero yes-price next to a no-price of 0.6 is read as 0.5, so that the
    cost is 1.1 and nothing is signalled; the lose price 0 of the correlated
    rule is read as 0.5 as well. *)
Lemma falsy_price_is_absent_witness :
  let market := quoted [JNum 0; JNum (ParseFloat.dec "0.6")] in
  let absent := quoted [JUndefined; JNum (ParseFloat.dec "0.6")] in
  yesPrice market = yesPrice absent /\
  yesPrice market = ParseFloat.dec "0.5" /\
  detectBasicArb market = None /\
  noPrice (quoted [JStr "0.4"; JNum 0]) = ParseFloat.dec "0.5" /\
  yesPrice (quoted [JStr ""; JStr "0.4"]) = ParseFloat.dec "0.5".
Proof.
  split.
  - refine (proj1 (falsy_price_is_absent
                     (quoted [JNum 0; JNum (ParseFloat.dec "0.6")])
                     (quoted [JUndefined; JNum (ParseFloat.dec "0.6")])
                     (groupOf []) eq_refl eq_refl _)).
    intros [ | [ | [ | i ] ] ]; vm_compute; reflexivity.
  - repeat split; vm_compute; reflexivity.
Defined.

(** *** The rules as the specification words them *)

Lemma leb_false (a b : float) :
  (a <=? b) = false <-> (b <? a) = true \/ is_nan a = true \/ is_nan b = true.
Proof.
  rewrite <- !NumFacts.fnan_is_nan, NumFacts.leb_rank, NumFacts.ltb_rank.
  destruct (NumFacts.fnan a), (NumFacts.fnan b); cbn [orb negb andb];
    try (intuition discriminate).
  rewrite Z.leb_gt, Z.ltb_lt. intuition discriminate.
Qed.

Lemma detectCorrelatedArb_value (group : EventGroup) :
  detectCorrelatedArb group =
  let n := List.length (markets group) in
  let total := Num.sum (map noPrice (markets group)) in
  let e := (Num.of_nat n - 1 - total) / Num.of_nat n in
  if (n <? 2)%nat then None
  else if e <=? 0 then None
  else Some {| opp_type := CORRELATED_DATE_ARB;
               name := event group ++ " (" ++ Str.of_nat n ++ " date markets)";
               edge := e;
               cost := total;
               payout := Num.of_nat n - 1;
               prices := map noPrice (markets group);
               marketCount := n;
               totalVolume :=
                 fold_left (fun sum m => sum + volumeOf m) (markets group) 0;
               opp_markets := markets group |}.
Proof. reflexivity. Qed.

(** C2 (corrected).  For a group of [n] markets, with [total] the sum of
    the second ("lose") prices as the rule reads them (the entry when it is
    truthy, else the field [no_price], else 0.5), [minPayout = n - 1] and
    [e = (minPayout - total) / n]: the rule answers "no signal" when
    [n < 2]; for [n >= 2] it answers "no signal" exactly when [e <= 0], so
    it returns an opportunity exactly when [e > 0] or [e] is NaN, and the
    opportunity has edge [e], cost [total] and payout [minPayout].  Lose
    prices 0.82, 0.75, 0.62 give cost 2.19 and a negative edge, hence no
    signal; three prices 0.30 give the double just below 0.9 as cost and a
    signal whose edge is the double next above the one nearest to 11/30. *)
Theorem correlated_signal_iff (group : EventGroup) :
  let n := List.length (markets group) in
  let lose := map noPrice (markets group) in
  let total := Num.sum lose in
  let minPayout := Num.of_nat n - 1 in
  let e := (minPayout - total) / Num.of_nat n in
  ((n < 2)%nat -> detectCorrelatedArb group = None) /\
  ((2 <= n)%nat ->
     (detectCorrelatedArb group = None <-> (e <=? 0) = true) /\
     ((exists opp, detectCorrelatedArb group = Some opp) <->
        (0 <? e) = true \/ is_nan e = true) /\
     (forall opp, detectCorrelatedArb group = Some opp ->
        edge opp = e /\ cost opp = total /\ payout opp = minPayout /\
        prices opp = lose /\ marketCount opp = n)) /\
  (forall m, noPrice m = pick (Js.index (outcomePrices m) 1) (no_price m)) /\
  Num.of_nat 3 - 1 = 2 /\
  (Num.sum (map noPrice (markets (groupOf ["0.82"; "0.75"; "0.62"]))) = ParseFloat.dec "2.19" /\
   ((2 - ParseFloat.dec "2.19") / 3 <? 0) = true /\
   detectCorrelatedArb (groupOf ["0.82"; "0.75"; "0.62"]) = None) /\
  (exists opp, detectCorrelatedArb (groupOf ["0.30"; "0.30"; "0.30"]) = Some opp /\
     cost opp = next_down (ParseFloat.dec "0.9") /\
     edge opp = next_up (11 / 30) /\
     (ParseFloat.dec "0.3666" <? edge opp) = true /\
     (edge opp <? ParseFloat.dec "0.3668") = true).
Proof.
  intros n lose total minPayout e.
  split; [ | split; [ | split; [ exact noPrice_pick | ] ] ].
  - intros Hn. rewrite detectCorrelatedArb_value. cbv zeta. fold n.
    apply Nat.ltb_lt in Hn. rewrite Hn. reflexivity.
  - intros Hn. rewrite detectCorrelatedArb_value. cbv zeta.
    fold n lose total minPayout e.
    apply Nat.ltb_ge in Hn. rewrite Hn.
    destruct (e <=? 0) eqn:He.
    + split; [ split; reflexivity | ]. split.
      * split; [ intros [opp H]; discriminate H | ].
        intros H. apply NumFacts.leb_zero_false in H. congruence.
      * intros opp H. discriminate H.
    + split; [ split; discriminate | ]. split.
      * split; [ intros _; apply NumFacts.leb_zero_false; exact He | ].
        intros _. eexists. reflexivity.
      * intros opp H. injection H as <-.
        cbn [edge cost payout prices marketCount]. repeat split.
  - clear. repeat apply conj; try (vm_compute; reflexivity).
    eexists. split; [ vm_compute; reflexivity | ].
    repeat apply conj; vm_compute; reflexivity.
Qed.

Section ExclusiveRule.

Variable JSON_parse : string -> option JsVal.

(** C3 (corrected).  [detectMutuallyExclusiveArb] never throws.  It answers
    "no signal" when the market has fewer than 3 outcomes, when the price
    field is a text that does not decode (or is neither a text nor an
    array), and when the number of prices differs from the number of
    outcomes.  When none of these hold, it answers "no signal" exactly when
    the sum of the parsed prices is [>= 1]; so it signals exactly when the
    sum is below 1 or is NaN (a price that does not parse makes it NaN),
    with edge [1 - sum], cost [sum] and payout [1.0].  The five prices 0.35,
    0.30, 0.15, 0.10, 0.05 of the mock market add up to the double 0.95 and
    give a signal with edge [1 - 0.95]. *)
Theorem exclusive_signal_iff (market : Market) :
  let outs := Js.or (outcomes market) (JArr []) in
  let result := detectMutuallyExclusiveArb JSON_parse market in
  (exists r, result = Normal r) /\
  (length_below outs 3 = true -> result = Normal None) /\
  (forall l, outcomePrices market = JArr l ->
     decoded JSON_parse market = Some (map Js.parseFloat l)) /\
  (forall s, outcomePrices market = JStr s ->
     (JSON_parse s = None -> result = Normal None) /\
     (forall l, JSON_parse s = Some (JArr l) ->
        decoded JSON_parse market = Some (map Js.parseFloat l))) /\
  (decoded JSON_parse market = None -> result = Normal None) /\
  (forall ps, decoded JSON_parse market = Some ps ->
     (length_differs (List.length ps) outs = true -> result = Normal None) /\
     (length_below outs 3 = false -> length_differs (List.length ps) outs = false ->
        (result = Normal None <-> (1 <=? Num.sum ps) = true) /\
        ((exists opp, result = Normal (Some opp)) <->
           (Num.sum ps <? 1) = true \/ is_nan (Num.sum ps) = true) /\
        (forall opp, result = Normal (Some opp) ->
           edge opp = 1 - Num.sum ps /\ cost opp = Num.sum ps /\ payout opp = 1 /\
           prices opp = ps /\ opp_type opp = MUTUALLY_EXCLUSIVE_ARB))) /\
  (exists five opp,
     In five getMockMarkets /\
     detectMutuallyExclusiveArb JSON_parse five = Normal (Some opp) /\
     List.length (prices opp) = 5%nat /\
     cost opp = ParseFloat.dec "0.95" /\ edge opp = 1 - ParseFloat.dec "0.95" /\
     payout opp = 1).
Proof.
  intros outs result. unfold result.
  rewrite detectMutuallyExclusiveArb_decoded. cbv zeta. fold outs.
  split; [ eexists; reflexivity | ].
  split; [ intros H; rewrite H; reflexivity | ].
  split; [ intros l H; unfold decoded; rewrite H; reflexivity | ].
  split.
  { intros s H. split.
    - intros Hp. unfold decoded. rewrite H, Hp.
      destruct (length_below outs 3); reflexivity.
    - intros l Hp. unfold decoded. rewrite H, Hp. reflexivity. }
  split; [ intros H; rewrite H; destruct (length_below outs 3); reflexivity | ].
  split; [ | clear; exists (nth 4 getMockMarkets (quoted [])); eexists;
             split; [ vm_compute; tauto | ];
             split; [ vm_compute; reflexivity | ];
             repeat split; vm_compute; reflexivity ].
  intros ps H. rewrite H, mutuallyExclusiveOf_gate. split.
  - intros Hd. rewrite Hd. destruct (length_below outs 3); reflexivity.
  - intros Hb Hd. rewrite Hb, Hd.
    assert (Hone : is_nan 1 = false) by reflexivity.
    destruct (1 <=? Num.sum ps) eqn:E.
    + split; [ split; reflexivity | ]. split.
      * split; [ intros [opp Ho]; discriminate Ho | ].
        intros Hs.
        assert (F : (1 <=? Num.sum ps) = false).
        { apply leb_false. destruct Hs as [Hs | Hs]; [ left | right; right ]; exact Hs. }
        congruence.
      * intros opp Ho. discriminate Ho.
    + split; [ split; discriminate | ]. split.
      * split; [ | intros _; eexists; reflexivity ].
        intros _. apply leb_false in E. destruct E as [E | [E | E]].
        -- left. exact E.
        -- congruence.
        -- right. exact E.
      * intros opp Ho. injection Ho as <-.
        cbn [edge cost payout prices opp_type]. repeat split.
Qed.

End ExclusiveRule.

(** C10 (corrected).  An outcome price that is present but falsy (the
    number 0, the empty text) is treated exactly as an absent one, but what
    stands in for it is not always 0.5: the scanner's rules take the field
    [yes_price] (for the second price [no_price]) when that is truthy, and
    0.5 otherwise; the watcher takes 0.5.  A market that quotes a zero
    yes-price and has no field [yes_price] is evaluated with [yes = 0.5].
    The correlated rule reads each "lose" price with the same coalescing. *)
Theorem falsy_price_coalesced (market : Market) (group : EventGroup) :
  let first := Js.index (outcomePrices market) 0 in
  let second := Js.index (outcomePrices market) 1 in
  (Js.truthy first = false ->
     yesPrice market =
       (if Js.truthy (yes_price market) then Js.parseFloat (yes_price market) else 0.5) /\
     Watcher.priceAt market 0 = 0.5) /\
  (Js.truthy second = false ->
     noPrice market =
       (if Js.truthy (no_price market) then Js.parseFloat (no_price market) else 0.5) /\
     Watcher.priceAt market 1 = 0.5) /\
  (forall rest,
     outcomePrices market = JUndefined \/ outcomePrices market = JArr [] \/
     outcomePrices market = JArr (JNum 0 :: rest) \/
     outcomePrices market = JArr (JStr "" :: rest) ->
     Js.truthy first = false) /\
  (forall e rest,
     outcomePrices market = JUndefined \/ outcomePrices market = JArr [e] \/
     outcomePrices market = JArr (e :: JNum 0 :: rest) \/
     outcomePrices market = JArr (e :: JStr "" :: rest) ->
     Js.truthy second = false) /\
  (forall n rest, outcomePrices market = JArr (JNum 0 :: JNum n :: rest) ->
     yes_price market = JUndefined -> is_zero n || is_nan n = false ->
     yesPrice market = 0.5 /\ noPrice market = n /\
     (detectBasicArb market = None <-> (1 <=? 0.5 + n) = true)) /\
  match detectCorrelatedArb group with
  | Some opp => prices opp = map noPrice (markets group)
  | None => True
  end /\
  (forall m, noPrice m = pick (Js.index (outcomePrices m) 1) (no_price m)).
Proof.
  intros first second.
  split.
  { intros H. split.
    - rewrite yesPrice_pick. unfold pick. fold first. rewrite H. reflexivity.
    - unfold Watcher.priceAt, Js.or. fold first. rewrite H. reflexivity. }
  split.
  { intros H. split.
    - rewrite noPrice_pick. unfold pick. fold second. rewrite H. reflexivity.
    - unfold Watcher.priceAt, Js.or. fold second. rewrite H. reflexivity. }
  split.
  { intros rest H. unfold first.
    destruct H as [ H | [ H | [ H | H ] ] ]; rewrite H; reflexivity. }
  split.
  { intros e rest H. unfold second.
    destruct H as [ H | [ H | [ H | H ] ] ]; rewrite H; reflexivity. }
  split.
  { intros n rest H Ha Hn.
    assert (Hy : yesPrice market = 0.5).
    { rewrite yesPrice_pick. unfold pick. rewrite H, Ha. reflexivity. }
    assert (Hno : noPrice market = n).
    { rewrite noPrice_pick. unfold pick. rewrite H.
      cbn [Js.index nth Js.truthy Js.parseFloat]. rewrite Hn. cbn [negb].
      apply orb_false_iff in Hn. destruct Hn as [Hn _]. rewrite Hn. reflexivity. }
    split; [ exact Hy | ]. split; [ exact Hno | ].
    unfold detectBasicArb. rewrite Hy, Hno. cbv zeta.
    rewrite NumFacts.one_sub_leb_zero.
    destruct (1 <=? 0.5 + n); split; intros; congruence. }
  split; [ | exact noPrice_pick ].
  rewrite detectCorrelatedArb_value. cbv zeta.
  destruct (List.length (markets group) <? 2)%nat; [ exact I | ].
  match goal with |- context [if ?c then None else _] => destruct c end;
    [ exact I | reflexivity ].
Qed.

(** C10, counterexample.  The first outcome price is the number 0 and the
    market has the field [yes_price] 0.2: the rule reads 0.2, not 0.5, and
    signals with edge [1 - (0.2 + 0.6)], where 0.5 would give no signal. *)
Lemma falsy_price_takes_alternate :
  let market :=
    {| market_id := None; question := Some "Q"; title := None;
       outcomes := JUndefined;
       outcomePrices := JArr [JNum 0; JNum (ParseFloat.dec "0.6")];
       yes_price := JNum (ParseFloat.dec "0.2"); no_price := JUndefined;
       volume := JUndefined; volumeNum := JUndefined |} in
  yesPrice market = ParseFloat.dec "0.2" /\
  (yesPrice market =? ParseFloat.dec "0.5") = false /\
  (exists opp, detectBasicArb market = Some opp /\
     edge opp = 1 - (ParseFloat.dec "0.2" + ParseFloat.dec "0.6")) /\
  (1 <=? ParseFloat.dec "0.5" + ParseFloat.dec "0.6") = true.
Proof.
  split; [ vm_compute; reflexivity | ]. split; [ vm_compute; reflexivity | ].
  split; [ | vm_compute; reflexivity ].
  eexists. split; vm_compute; reflexivity.
Qed.

End ScannerFacts.

(* ================================================================= *)
(** ** The sort of [scan] *)

Module SortFacts.

Import Scanner.
Local Open Scope float_scope.

Definition number (o : Opportunity) : Prop := NumFacts.fnan (edge o) = false.

Lemma reported_number (o : Opportunity) : reported o -> number o.
Proof. intros H. apply NumFacts.leb_true in H. apply H. Qed.

Lemma insert_perm (x : Opportunity) (l : list Opportunity) :
  Permutation (x :: l) (insert x l).
Proof.
  induction l as [ | y l IH ]; cbn [insert]; [ reflexivity | ].
  destruct (compareEdge y x <? 0); [ | reflexivity ].
  rewrite perm_swap. constructor. exact IH.
Qed.

Lemma sort_perm (l : list Opportunity) : Permutation l (sort l).
Proof.
  induction l as [ | x l IH ]; cbn [sort fold_right]; [ constructor | ].
  rewrite <- insert_perm. constructor. exact IH.
Qed.

Lemma sort_Forall (P : Opportunity -> Prop) (l : list Opportunity) :
  Forall P l -> Forall P (sort l).
Proof. intros H. eapply Permutation_Forall; [ apply sort_perm | exact H ]. Qed.

Lemma insert_Forall (P : Opportunity -> Prop) (x : Opportunity) (l : list Opportunity) :
  P x -> Forall P l -> Forall P (insert x l).
Proof.
  intros Hx Hl. eapply Permutation_Forall; [ apply insert_perm | ].
  constructor; assumption.
Qed.

(** On numbers the comparator [b.edge - a.edge] orders by decreasing edge. *)
Lemma compareEdge_lt (y x : Opportunity) :
  (compareEdge y x <? 0) = (edge x <? edge y).
Proof. apply NumFacts.sub_ltb_zero. Qed.

Lemma insert_sorted (x : Opportunity) (l : list Opportunity) :
  number x -> Forall number l ->
  StronglySorted desc l -> StronglySorted desc (insert x l).
Proof.
  intros Nx Nl Sl. induction l as [ | y l IH ]; cbn [insert].
  - repeat constructor.
  - apply Forall_cons_iff in Nl. destruct Nl as [Ny Nl].
    apply StronglySorted_inv in Sl. destruct Sl as [Sl Hy].
    rewrite compareEdge_lt. unfold number in Nx, Ny.
    destruct (edge x <? edge y) eqn:E.
    + constructor; [ apply IH; assumption | ].
      apply insert_Forall; [ | exact Hy ].
      apply NumFacts.ltb_true in E. apply NumFacts.leb_true. intuition lia.
    + constructor; [ constructor; assumption | ].
      rewrite NumFacts.ltb_rank, Nx, Ny in E. cbn in E. apply Z.ltb_ge in E.
      constructor.
      * apply NumFacts.leb_true. intuition.
      * eapply Forall_impl; [ | exact Hy ].
        intros z Hz. apply NumFacts.leb_true in Hz. apply NumFacts.leb_true.
        intuition lia.
Qed.

Lemma sort_sorted (l : list Opportunity) :
  Forall number l -> StronglySorted desc (sort l).
Proof.
  induction l as [ | x l IH ]; intros Nl; cbn [sort fold_right].
  - constructor.
  - apply Forall_cons_iff in Nl. destruct Nl as [Nx Nl].
    apply insert_sorted; [ exact Nx | | apply IH; exact Nl ].
    apply sort_Forall. exact Nl.
Qed.

Lemma ltb_irrefl (x : float) : (x <? x) = false.
Proof. rewrite NumFacts.ltb_rank, Z.ltb_irrefl. apply andb_false_r. Qed.

Lemma insert_stable (v : float) (x : Opportunity) (l : list Opportunity) :
  filter (fun o => PrimFloat.Leibniz.eqb (edge o) v) (insert x l) =
  filter (fun o => PrimFloat.Leibniz.eqb (edge o) v) (x :: l).
Proof.
  induction l as [ | y l IH ]; [ reflexivity | ].
  cbn [insert]. rewrite compareEdge_lt.
  destruct (edge x <? edge y) eqn:E; [ | reflexivity ].
  cbn [filter] in *. rewrite IH.
  destruct (PrimFloat.Leibniz.eqb (edge x) v) eqn:Ex;
    destruct (PrimFloat.Leibniz.eqb (edge y) v) eqn:Ey; try reflexivity.
  apply FloatAxioms.Leibniz.eqb_spec in Ex, Ey. rewrite Ex, Ey, ltb_irrefl in E.
  discriminate.
Qed.

Lemma sort_stable (l : list Opportunity) (v : float) :
  filter (fun o => PrimFloat.Leibniz.eqb (edge o) v) (sort l) =
  filter (fun o => PrimFloat.Leibniz.eqb (edge o) v) l.
Proof.
  induction l as [ | x l IH ]; [ reflexivity | ].
  cbn [sort fold_right]. fold (sort l). rewrite insert_stable.
  cbn [filter]. rewrite IH. reflexivity.
Qed.

(** X6.  The comparator [(a, b) => b.edge - a.edge] is exact about
    signs although the difference is rounded: it is negative exactly when
    [a]'s edge is the larger one and positive exactly when it is the smaller
    one, for all numbers, infinities included.  A difference of two
    different numbers never rounds to zero. *)
Theorem compareEdge_sign (a b : Opportunity) :
  (compareEdge a b <? 0) = (edge b <? edge a) /\
  (0 <? compareEdge a b) = (edge a <? edge b).
Proof.
  unfold compareEdge. split; [ apply NumFacts.sub_ltb_zero | apply NumFacts.zero_ltb_sub ].
Qed.

End SortFacts.

(* ================================================================= *)
(** ** Grouping *)

Module GroupingFacts.

Import Grouping.
Local Open Scope string_scope.

Lemma mem_In (k : string) (l : list string) : mem k l = true <-> In k l.
Proof.
  unfold mem. rewrite existsb_exists. split.
  - intros (x & Hx & E). apply String.eqb_eq in E. subst. exact Hx.
  - intros H. exists k. split; [ exact H | apply String.eqb_refl ].
Qed.

Lemma mem_false (k : string) (l : list string) : mem k l = false <-> ~ In k l.
Proof. rewrite <- mem_In. destruct (mem k l); intuition congruence. Qed.

(** *** Keys in the order of their first occurrence *)

Lemma firstSeen_snoc (l : list string) (k : string) :
  firstSeen (l ++ [k]) =
  if mem k (firstSeen l) then firstSeen l else (firstSeen l ++ [k])%list.
Proof. unfold firstSeen. rewrite fold_left_app. reflexivity. Qed.

Lemma firstSeen_In (l : list string) : forall k, In k (firstSeen l) <-> In k l.
Proof.
  induction l as [ | a l IH ] using rev_ind; intros k.
  - reflexivity.
  - rewrite firstSeen_snoc, in_app_iff. cbn [In].
    destruct (mem a (firstSeen l)) eqn:E.
    + rewrite IH. apply mem_In in E. apply IH in E. intuition (subst; auto).
    + rewrite in_app_iff, IH. cbn [In]. tauto.
Qed.

Lemma firstSeen_mem (l : list string) (k : string) : mem k (firstSeen l) = mem k l.
Proof.
  destruct (mem k l) eqn:E.
  - apply mem_In. apply firstSeen_In. apply mem_In. exact E.
  - apply mem_false. rewrite firstSeen_In. apply mem_false. exact E.
Qed.

Lemma firstSeen_NoDup (l : list string) : NoDup (firstSeen l).
Proof.
  induction l as [ | a l IH ] using rev_ind.
  - constructor.
  - rewrite firstSeen_snoc. destruct (mem a (firstSeen l)) eqn:E; [ exact IH | ].
    apply NoDup_app; [ exact IH | repeat constructor; intros [] | ].
    intros x Hx [Hy | []]. subst x. apply mem_false in E. contradiction.
Qed.

(** *** The buckets after the loop *)

Lemma members_snoc (k : string) (ms : list Market) (m : Market) :
  members k (ms ++ [m]) =
  (members k ms ++ if eventKey m =? k then [m] else [])%list.
Proof. unfold members. rewrite filter_app. reflexivity. Qed.

Lemma members_nil (k : string) (ms : list Market) :
  ~ In k (map eventKey ms) -> members k ms = [].
Proof.
  intros H. unfold members. induction ms as [ | m ms IH ]; [ reflexivity | ].
  cbn [filter]. destruct (eventKey m =? k) eqn:E.
  - exfalso. apply H. left. apply String.eqb_eq. exact E.
  - apply IH. intros Hin. apply H. right. exact Hin.
Qed.

Lemma has_own_map (key : string) (f : string -> list Market) (ks : list string) :
  has_own key (map (fun k => (k, f k)) ks) = mem key ks.
Proof.
  unfold has_own, mem. induction ks as [ | k ks IH ]; [ reflexivity | ].
  cbn [map existsb fst]. rewrite IH, (String.eqb_sym k key). reflexivity.
Qed.

Lemma push_map (key : string) (m : Market) (f : string -> list Market) (ks : list string) :
  NoDup ks ->
  push key m (map (fun k => (k, f k)) ks) =
  map (fun k => (k, if k =? key then (f k ++ [m])%list else f k)) ks.
Proof.
  induction ks as [ | k ks IH ]; intros ND; [ reflexivity | ].
  apply NoDup_cons_iff in ND. destruct ND as [Hk ND].
  cbn [map push]. destruct (k =? key) eqn:E.
  - f_equal. apply map_ext_in. intros k' Hk'.
    destruct (k' =? key) eqn:E'; [ | reflexivity ].
    apply String.eqb_eq in E, E'. subst. contradiction.
  - f_equal. apply IH. exact ND.
Qed.

Lemma add_market_bucketsOf (done : list Market) (m : Market) :
  add_market (bucketsOf done) m =
  if is_inherited (eventKey m) && negb (mem (eventKey m) (map eventKey done))
  then Throw TypeError
  else Normal (bucketsOf (done ++ [m])).
Proof.
  unfold add_market. fold (eventKey m). unfold bucketsOf at 1.
  rewrite has_own_map, firstSeen_mem.
  destruct (mem (eventKey m) (map eventKey done)) eqn:Own.
  - rewrite andb_false_r. apply f_equal.
    fold (bucketsOf done). unfold bucketsOf.
    rewrite push_map by apply firstSeen_NoDup.
    rewrite map_app. cbn [map]. rewrite firstSeen_snoc, firstSeen_mem, Own.
    apply map_ext. intros k. rewrite members_snoc.
    rewrite (String.eqb_sym k). destruct (eventKey m =? k); [ reflexivity | ].
    rewrite app_nil_r. reflexivity.
  - rewrite andb_true_r. destruct (is_inherited (eventKey m)); [ reflexivity | ].
    apply f_equal. fold (bucketsOf done). unfold bucketsOf.
    rewrite (map_app eventKey). cbn [map]. rewrite firstSeen_snoc, firstSeen_mem, Own.
    rewrite map_app. cbn [map]. apply f_equal2.
    + apply map_ext_in. intros k Hk. rewrite members_snoc.
      destruct (eventKey m =? k) eqn:E; [ | rewrite app_nil_r; reflexivity ].
      apply String.eqb_eq in E. subst k. apply (proj1 (firstSeen_In _ _)) in Hk.
      apply mem_false in Own. contradiction.
    + rewrite members_snoc, String.eqb_refl, members_nil; [ reflexivity | ].
      apply mem_false. exact Own.
Qed.

Lemma add_markets_bucketsOf (ms done : list Market) :
  clean done ->
  add_markets (bucketsOf done) ms =
  if existsb (fun m => is_inherited (eventKey m)) ms then Throw TypeError
  else Normal (bucketsOf (done ++ ms)).
Proof.
  revert done. induction ms as [ | m ms IH ]; intros done Hclean.
  - cbn [add_markets existsb]. rewrite app_nil_r. reflexivity.
  - cbn [add_markets existsb]. rewrite add_market_bucketsOf.
    destruct (is_inherited (eventKey m)) eqn:Inh.
    + cbn [orb andb].
      destruct (mem (eventKey m) (map eventKey done)) eqn:Own; [ | reflexivity ].
      exfalso. apply mem_In in Own. apply in_map_iff in Own.
      destruct Own as (m' & E & Hin). apply Hclean in Hin. congruence.
    + cbn [orb andb bind]. rewrite IH.
      * rewrite <- app_assoc. reflexivity.
      * intros m' Hin. apply in_app_iff in Hin. destruct Hin as [Hin | [<- | []]];
          [ apply Hclean; exact Hin | exact Inh ].
Qed.


(** *** The order of the entries *)

Lemma filter_map_comm {A B : Type} (p : B -> bool) (g : A -> B) (l : list A) :
  filter p (map g l) = map g (filter (fun a => p (g a)) l).
Proof.
  induction l as [ | a l IH ]; [ reflexivity | ].
  cbn [map filter]. destruct (p (g a)); cbn [map]; rewrite IH; reflexivity.
Qed.

Lemma insert_index_map {A B : Type} (g : A -> B) (kv : Z * A) (l : list (Z * A)) :
  map (relabel g) (insert_index kv l) = insert_index (relabel g kv) (map (relabel g) l).
Proof.
  induction l as [ | y l IH ]; [ reflexivity | ].
  cbn [insert_index map relabel fst]. destruct (fst y <? fst kv)%Z.
  - cbn [map]. rewrite IH. reflexivity.
  - reflexivity.
Qed.

Lemma indexed_map {A B : Type} (keyOf : B -> string) (g : A -> B) (items : list A) :
  indexed keyOf (map g items) = map (relabel g) (indexed (fun a => keyOf (g a)) items).
Proof.
  unfold indexed. induction items as [ | a items IH ]; [ reflexivity | ].
  cbn [map flat_map]. destruct (array_index (keyOf (g a))) as [ n | ].
  - cbn [app fold_right]. rewrite IH, insert_index_map. reflexivity.
  - cbn [app]. exact IH.
Qed.

Lemma propertyOrder_map {A B : Type} (keyOf : B -> string) (g : A -> B) (items : list A) :
  propertyOrder keyOf (map g items) = map g (propertyOrder (fun a => keyOf (g a)) items).
Proof.
  unfold propertyOrder. rewrite indexed_map, filter_map_comm, map_app, !map_map.
  reflexivity.
Qed.

Lemma insert_index_perm {A : Type} (kv : Z * A) (l : list (Z * A)) :
  Permutation (kv :: l) (insert_index kv l).
Proof.
  induction l as [ | y l IH ]; cbn [insert_index]; [ reflexivity | ].
  destruct (fst y <? fst kv)%Z; [ | reflexivity ].
  rewrite perm_swap. constructor. exact IH.
Qed.

Lemma indexed_perm {A : Type} (keyOf : A -> string) (items : list A) :
  Permutation (map snd (indexed keyOf items))
    (filter (fun a => negb (not_index (keyOf a))) items).
Proof.
  unfold indexed, not_index. induction items as [ | a items IH ]; [ constructor | ].
  cbn [flat_map filter]. destruct (array_index (keyOf a)) as [ n | ]; cbn [negb app].
  - cbn [fold_right]. rewrite <- insert_index_perm. cbn [map snd]. constructor. exact IH.
  - exact IH.
Qed.

Lemma filter_split_perm {A : Type} (p : A -> bool) (l : list A) :
  Permutation (filter (fun a => negb (p a)) l ++ filter p l) l.
Proof.
  induction l as [ | a l IH ]; [ constructor | ].
  cbn [filter]. destruct (p a); cbn [negb].
  - rewrite <- Permutation_middle. constructor. exact IH.
  - cbn [app]. constructor. exact IH.
Qed.

Lemma propertyOrder_perm {A : Type} (keyOf : A -> string) (items : list A) :
  Permutation (propertyOrder keyOf items) items.
Proof.
  unfold propertyOrder. rewrite indexed_perm.
  apply (filter_split_perm (fun a => not_index (keyOf a))).
Qed.

(** Without array-index keys the entries come in creation order. *)
Lemma propertyOrder_plain {A : Type} (keyOf : A -> string) (items : list A) :
  forallb (fun a => not_index (keyOf a)) items = true ->
  propertyOrder keyOf items = items.
Proof.
  intros H. unfold propertyOrder, indexed.
  assert (Hflat : flat_map (fun a => match array_index (keyOf a) with
                                     | Some n => [(n, a)]
                                     | None => []
                                     end) items = []).
  { induction items as [ | a items IH ]; [ reflexivity | ].
    cbn [forallb] in H. apply andb_true_iff in H. destruct H as [Ha H].
    cbn [flat_map]. unfold not_index in Ha.
    destruct (array_index (keyOf a)); [ discriminate | ]. apply IH. exact H. }
  rewrite Hflat. cbn [fold_right map app].
  induction items as [ | a items IH ]; [ reflexivity | ].
  cbn [forallb] in H. apply andb_true_iff in H. destruct H as [Ha H].
  cbn [filter]. rewrite Ha. f_equal. apply IH; [ exact H | ].
  cbn [flat_map] in Hflat. apply app_eq_nil in Hflat. apply Hflat.
Qed.

(** The array-index entries are listed in strictly ascending numeric
    order when their keys are distinct. *)
Lemma insert_index_sorted {A : Type} (kv : Z * A) (l : list (Z * A)) :
  StronglySorted (fun a b => (fst a <= fst b)%Z) l ->
  StronglySorted (fun a b => (fst a <= fst b)%Z) (insert_index kv l).
Proof.
  intros Sl. induction l as [ | y l IH ]; cbn [insert_index].
  - repeat constructor.
  - apply StronglySorted_inv in Sl. destruct Sl as [Sl Hy].
    destruct (fst y <? fst kv)%Z eqn:E.
    + apply Z.ltb_lt in E. constructor; [ apply IH; exact Sl | ].
      eapply Permutation_Forall; [ apply insert_index_perm | ].
      constructor; [ lia | exact Hy ].
    + apply Z.ltb_ge in E. constructor; [ constructor; assumption | ].
      constructor; [ exact E | ].
      eapply Forall_impl; [ | exact Hy ]. cbn. intros z Hz. lia.
Qed.

Lemma indexed_sorted {A : Type} (keyOf : A -> string) (items : list A) :
  StronglySorted (fun a b => (fst a <= fst b)%Z) (indexed keyOf items).
Proof.
  unfold indexed.
  induction (flat_map _ items) as [ | kv l IH ]; cbn [fold_right].
  - constructor.
  - apply insert_index_sorted. exact IH.
Qed.

(** *** What [findRelatedMarkets] computes *)

Lemma clean_nil : clean [].
Proof. intros m []. Qed.

Lemma findRelatedMarkets_value (ms : list Market) :
  findRelatedMarkets ms =
  if existsb (fun m => is_inherited (eventKey m)) ms then Throw TypeError
  else Normal (grouped ms).
Proof.
  unfold findRelatedMarkets. change (@nil (string * list Market)) with (bucketsOf []).
  rewrite add_markets_bucketsOf by apply clean_nil.
  destruct (existsb _ ms); [ reflexivity | ].
  cbn [bind app]. apply f_equal. unfold entries, bucketsOf, grouped.
  rewrite propertyOrder_map, filter_map_comm, map_map. reflexivity.
Qed.


Lemma members_In (k : string) (ms : list Market) (m : Market) :
  In m (members k ms) <-> In m ms /\ eventKey m = k.
Proof. unfold members. rewrite filter_In, String.eqb_eq. reflexivity. Qed.

Lemma members_key_In (k : string) (ms : list Market) :
  (1 <= List.length (members k ms))%nat -> In k (map eventKey ms).
Proof.
  intros H. destruct (members k ms) as [ | m l ] eqn:E; [ cbn in H; lia | ].
  assert (Hm : In m (members k ms)) by (rewrite E; left; reflexivity).
  apply members_In in Hm. destruct Hm as [Hin <-]. apply in_map. exact Hin.
Qed.

Lemma grouped_events (ms : list Market) :
  map event (grouped ms) =
  filter (fun k => (1 <? List.length (members k ms))%nat)
    (propertyOrder (fun k => k) (firstSeen (map eventKey ms))).
Proof. unfold grouped. rewrite map_map. cbn [event]. apply map_id. Qed.

(** X1.  When [findRelatedMarkets] returns, every group has at least two
    markets, and they are exactly the input markets whose question
    normalises to the group's event, in input order; no event occurs twice,
    and an event is listed exactly when at least two markets share it.  It
    throws a [TypeError] exactly when the question of some market
    normalises to the name of a property that the bucket object inherits. *)
Theorem findRelatedMarkets_groups (ms : list Market) :
  match findRelatedMarkets ms with
  | Normal gs =>
      Forall (fun g => (2 <= List.length (markets g))%nat /\
                       markets g = members (event g) ms) gs /\
      NoDup (map event gs) /\
      (forall k, In k (map event gs) <-> (2 <= List.length (members k ms))%nat) /\
      existsb (fun m => is_inherited (eventKey m)) ms = false
  | Throw e =>
      e = TypeError /\ exists m, In m ms /\ is_inherited (eventKey m) = true
  end.
Proof.
  rewrite findRelatedMarkets_value.
  destruct (existsb (fun m => is_inherited (eventKey m)) ms) eqn:E.
  - split; [ reflexivity | ]. apply existsb_exists in E. exact E.
  - split; [ | split; [ | split; [ | reflexivity ] ] ].
    + apply Forall_forall. intros g Hg. unfold grouped in Hg.
      apply in_map_iff in Hg. destruct Hg as (k & <- & Hk).
      apply filter_In in Hk. destruct Hk as [_ Hk]. apply Nat.ltb_lt in Hk.
      cbn [markets event]. split; [ lia | reflexivity ].
    + rewrite grouped_events. apply NoDup_filter.
      eapply Permutation_NoDup; [ symmetry; apply propertyOrder_perm | ].
      apply firstSeen_NoDup.
    + intros k. rewrite grouped_events, filter_In, Nat.ltb_lt.
      split; [ intros [_ H]; lia | intros H ]. split; [ | lia ].
      eapply Permutation_in; [ symmetry; apply propertyOrder_perm | ].
      apply firstSeen_In. apply members_key_In. lia.
Qed.

(** X2.  The groups come in the order in which an object lists its keys:
    first the events that are array-index numerals, in ascending numeric
    order, then the other events in the order of their first occurrence in
    the input.  So the groups are in first-seen order whenever no event is an
    array-index numeral. *)
Theorem findRelatedMarkets_order (ms : list Market) :
  let keys := firstSeen (map eventKey ms) in
  let big := fun k => (1 <? List.length (members k ms))%nat in
  match findRelatedMarkets ms with
  | Normal gs =>
      map event gs =
        (filter big (map snd (indexed (fun k => k) keys))
         ++ filter big (filter not_index keys))%list /\
      StronglySorted Z.le (map fst (indexed (fun k => k) keys)) /\
      Forall (fun p => array_index (snd p) = Some (fst p)) (indexed (fun k => k) keys) /\
      (forallb not_index keys = true -> map event gs = filter big keys)
  | Throw _ => True
  end.
Proof.
  intros keys big. rewrite findRelatedMarkets_value.
  destruct (existsb (fun m => is_inherited (eventKey m)) ms); [ exact I | ].
  rewrite grouped_events. fold keys big.
  split; [ unfold propertyOrder; apply filter_app | ].
  split.
  - pose proof (indexed_sorted (fun k : string => k) keys) as H.
    induction H as [ | a l Hl IH Ha ]; cbn [map]; constructor; [ exact IH | ].
    apply Forall_map. exact Ha.
  - split.
    + eapply Permutation_Forall.
      * unfold indexed. apply Permutation_sym. 
        assert (Hp : forall l : list (Z * string), Permutation (fold_right insert_index [] l) l).
        { induction l as [ | kv l IH ]; cbn [fold_right]; [ constructor | ].
          rewrite <- insert_index_perm. constructor. exact IH. }
        apply Hp.
      * apply Forall_flat_map. apply Forall_forall. intros k _.
        destruct (array_index k) eqn:E; repeat constructor. exact E.
    + intros H. rewrite propertyOrder_plain by exact H. reflexivity.
Qed.

(** The event of a market without a question, and of a question that
    only consists of stripped words. *)
Lemma eventKey_missing (m : Market) :
  match question m with None | Some EmptyString => true | _ => false end = true ->
  eventKey m = "".
Proof.
  unfold eventKey. destruct (question m) as [ [ | c q ] | ]; try discriminate;
    intros _; vm_compute; reflexivity.
Qed.

(** X3.  Markets without a question text all fall into the bucket of the
    empty event: whenever at least two markets of the input have no
    question, one of the returned groups has the event [""] and contains all
    of them, whatever they are about. *)
Theorem findRelatedMarkets_missing_question (ms : list Market) :
  let silent := filter (fun m => match question m with
                                 | None | Some EmptyString => true
                                 | _ => false
                                 end) ms in
  (2 <= List.length silent)%nat ->
  match findRelatedMarkets ms with
  | Normal gs => exists g, In g gs /\ event g = "" /\ incl silent (markets g)
  | Throw _ => True
  end.
Proof.
  intros silent Hlen. rewrite findRelatedMarkets_value.
  destruct (existsb (fun m => is_inherited (eventKey m)) ms); [ exact I | ].
  assert (Hincl : incl silent (members "" ms)).
  { intros m Hm. apply filter_In in Hm. destruct Hm as [Hin Hq].
    apply members_In. split; [ exact Hin | apply eventKey_missing; exact Hq ]. }
  assert (Hbig : (2 <= List.length (members "" ms))%nat).
  { unfold silent in *. clear silent.
    assert (Hle : forall l, incl (filter (fun m => match question m with
                                 | None | Some EmptyString => true
                                 | _ => false
                                 end) l) (members "" l) ->
        (List.length (filter (fun m => match question m with
                                 | None | Some EmptyString => true
                                 | _ => false
                                 end) l) <= List.length (members "" l))%nat).
    { intros l _. induction l as [ | a l IH ]; [ cbn; lia | ].
      unfold members in *. cbn [filter].
      destruct (match question a with None | Some EmptyString => true | _ => false end) eqn:Q.
      - rewrite (eventKey_missing a Q). cbn [String.eqb List.length]. lia.
      - destruct (eventKey a =? ""); cbn [List.length]; lia. }
    specialize (Hle ms Hincl). lia. }
  exists {| event := ""; markets := members "" ms |}.
  split; [ | split; [ reflexivity | exact Hincl ] ].
  unfold grouped. apply in_map_iff. exists "". split; [ reflexivity | ].
  apply filter_In. split.
  - eapply Permutation_in; [ symmetry; apply propertyOrder_perm | ].
    apply firstSeen_In. apply members_key_In. lia.
  - apply Nat.ltb_lt. lia.
Qed.

Lemma findRelatedMarkets_missing_question_witness :
  match findRelatedMarkets [noQuestion; noQuestion] with
  | Normal gs =>
      exists g, In g gs /\ event g = "" /\ incl [noQuestion; noQuestion] (markets g)
  | Throw _ => True
  end.
Proof.
  apply (findRelatedMarkets_missing_question [noQuestion; noQuestion]).
  cbn. lia.
Defined.



End GroupingFacts.

(* ================================================================= *)
(** ** The scan *)

Module ScanFacts.

Import Scanner.
Local Open Scope string_scope.
Local Open Scope float_scope.

Lemma map_completion_normal {A B : Type} (f : A -> Completion B) (g : A -> B)
    (l : list A) :
  (forall a, f a = Normal (g a)) -> map_completion f l = Normal (map g l).
Proof.
  intros H. induction l as [ | a l IH ]; [ reflexivity | ].
  cbn [map_completion map]. rewrite H, IH. reflexivity.
Qed.

Lemma flat_map_of_map {A B C : Type} (f : B -> list C) (g : A -> B) (l : list A) :
  flat_map f (map g l) = flat_map (fun a => f (g a)) l.
Proof.
  induction l as [ | a l IH ]; [ reflexivity | ]. cbn [map flat_map]. rewrite IH. reflexivity.
Qed.

Lemma reportable_reported (arb : option Opportunity) : Forall reported (reportable arb).
Proof.
  destruct arb as [ a | ]; cbn [reportable]; [ | constructor ].
  destruct (Num.MIN_EDGE <=? edge a) eqn:E; repeat constructor. exact E.
Qed.

Lemma flat_map_reported {A : Type} (f : A -> option Opportunity) (l : list A) :
  Forall reported (flat_map (fun a => reportable (f a)) l).
Proof. apply Forall_flat_map. apply Forall_forall. intros a _. apply reportable_reported. Qed.

Section WithJSON.

Variable JSON_parse : string -> option JsVal.

Lemma detectMutuallyExclusiveArb_value (market : Market) :
  detectMutuallyExclusiveArb JSON_parse market = Normal (exclusiveArb JSON_parse market).
Proof. apply ScannerFacts.detectMutuallyExclusiveArb_decoded. Qed.

Lemma detections_reported (ms : list Market) (groups : list EventGroup) :
  Forall reported (detections JSON_parse ms groups).
Proof.
  unfold detections. rewrite !Forall_app. repeat split; apply flat_map_reported.
Qed.

Lemma scanOpportunities_value (fetched : option (list Market)) :
  scanOpportunities JSON_parse fetched =
  (groups <- Grouping.findRelatedMarkets (marketsOf fetched) ;;
   Normal (sort (detections JSON_parse (marketsOf fetched) groups))).
Proof.
  unfold scanOpportunities. fold (marketsOf fetched).
  destruct (Grouping.findRelatedMarkets (marketsOf fetched)) as [ groups | e ];
    [ | reflexivity ].
  cbn [bind].
  rewrite (map_completion_normal _ _ _ detectMutuallyExclusiveArb_value).
  cbn [bind]. unfold detections. rewrite flat_map_of_map. reflexivity.
Qed.

(** X4.  What [scan] returns.  [scan] throws, a [TypeError], exactly when
    the question of some market normalises to an inherited property name,
    whatever the detectors found.  It returns [undefined] exactly when no
    such key occurs and no detection passes the threshold.  Otherwise it
    returns a list that is not empty, in which every opportunity has an edge
    of at least [MIN_EDGE], that is in descending order of edge (every
    earlier edge is at least every later one) and that is a permutation of
    the detections that pass the threshold. *)
Theorem scan_result (fetched : option (list Market)) :
  let ms := marketsOf fetched in
  let clash := existsb (fun m => Grouping.is_inherited (Grouping.eventKey m)) ms in
  ((exists e, scan JSON_parse fetched = Throw e) <-> clash = true) /\
  (scan JSON_parse fetched = Normal None <->
   clash = false /\ detections JSON_parse ms (Grouping.grouped ms) = []) /\
  match scan JSON_parse fetched with
  | Normal (Some out) =>
      clash = false /\
      out <> [] /\ Forall reported out /\ StronglySorted desc out /\
      Permutation (detections JSON_parse ms (Grouping.grouped ms)) out
  | Normal None => clash = false /\ detections JSON_parse ms (Grouping.grouped ms) = []
  | Throw e =>
      clash = true /\ e = TypeError /\
      exists m, In m ms /\ Grouping.is_inherited (Grouping.eventKey m) = true
  end.
Proof.
  intros ms clash. unfold scan. rewrite scanOpportunities_value. fold ms.
  rewrite GroupingFacts.findRelatedMarkets_value. fold clash.
  destruct clash eqn:E.
  - cbn [bind]. split; [ split; [ reflexivity | intros _; eexists; reflexivity ] | ].
    split; [ split; [ discriminate | intros [H _]; discriminate H ] | ].
    split; [ reflexivity | ]. split; [ reflexivity | ].
    unfold clash in E. apply existsb_exists in E. exact E.
  - cbn [bind].
    pose proof (detections_reported ms (Grouping.grouped ms)) as Hrep.
    pose proof (SortFacts.sort_perm (detections JSON_parse ms (Grouping.grouped ms))) as Hperm.
    split; [ split; [ intros [e H]; discriminate H | discriminate ] | ].
    destruct (sort (detections JSON_parse ms (Grouping.grouped ms))) as [ | o out ] eqn:Es.
    + apply Permutation_sym, Permutation_nil in Hperm.
      split; [ split; [ intros _; split; [ reflexivity | exact Hperm ] | reflexivity ] | ].
      split; [ reflexivity | exact Hperm ].
    + split.
      { split; [ discriminate | ]. intros [_ H]. rewrite H in Hperm.
        apply Permutation_nil in Hperm. discriminate Hperm. }
      rewrite <- Es. split; [ reflexivity | ].
      split; [ rewrite Es; discriminate | ].
      split; [ apply SortFacts.sort_Forall; exact Hrep | ].
      split; [ | rewrite Es; exact Hperm ].
      apply SortFacts.sort_sorted.
      eapply Forall_impl; [ | exact Hrep ]. apply SortFacts.reported_number.
Qed.

(** X5.  The sort neither loses nor invents an opportunity, and it is
    stable: the sorted list is a permutation of the detections that pass the
    threshold, and the opportunities of one and the same edge keep the order
    in which they were collected (basic, then correlated, then mutually
    exclusive, each in input order). *)
Theorem scan_keeps_detections (fetched : option (list Market)) (v : float) :
  let ms := marketsOf fetched in
  match scanOpportunities JSON_parse fetched with
  | Normal out =>
      Permutation (detections JSON_parse ms (Grouping.grouped ms)) out /\
      filter (fun o => PrimFloat.Leibniz.eqb (edge o) v) out =
      filter (fun o => PrimFloat.Leibniz.eqb (edge o) v)
        (detections JSON_parse ms (Grouping.grouped ms))
  | Throw _ => True
  end.
Proof.
  intros ms. rewrite scanOpportunities_value. fold ms.
  rewrite GroupingFacts.findRelatedMarkets_value.
  destruct (existsb _ ms); [ exact I | ]. cbn [bind].
  split; [ apply SortFacts.sort_perm | apply SortFacts.sort_stable ].
Qed.


End WithJSON.

End ScanFacts.

(* ================================================================= *)
(** ** Volume never decides a detection *)

Module VolumeFacts.

Import Scanner.
Local Open Scope string_scope.
Local Open Scope float_scope.

Lemma sameButVolume_fields (m m' : Market) :
  sameButVolume m m' ->
  question m = question m' /\ title m = title m' /\ outcomes m = outcomes m' /\
  outcomePrices m = outcomePrices m' /\ yes_price m = yes_price m' /\
  no_price m = no_price m'.
Proof.
  intros H. unfold sameButVolume in H.
  repeat split;
    [ apply (f_equal question) in H | apply (f_equal title) in H
    | apply (f_equal outcomes) in H | apply (f_equal outcomePrices) in H
    | apply (f_equal yes_price) in H | apply (f_equal no_price) in H ]; exact H.
Qed.

Lemma sameButVolume_list (ms ms' : list Market) :
  map withoutVolume ms = map withoutVolume ms' -> Forall2 sameButVolume ms ms'.
Proof.
  revert ms'. induction ms as [ | m ms IH ]; intros [ | m' ms' ] H;
    try discriminate; constructor.
  - exact (f_equal (fun l => hd (withoutVolume m) l) H).
  - apply IH. exact (f_equal (@tl Market) H).
Qed.

Lemma Forall2_flat_map {A B C D : Type} (P : A -> B -> Prop) (R : C -> D -> Prop)
    (f : A -> list C) (g : B -> list D) (l : list A) (l' : list B) :
  (forall a b, P a b -> Forall2 R (f a) (g b)) ->
  Forall2 P l l' -> Forall2 R (flat_map f l) (flat_map g l').
Proof.
  intros H HP. induction HP as [ | a b l l' Hab _ IH ]; cbn [flat_map];
    [ constructor | ]. apply Forall2_app; [ apply H; exact Hab | exact IH ].
Qed.

Lemma Forall2_filter {A B : Type} (P : A -> B -> Prop) (p : A -> bool) (q : B -> bool)
    (l : list A) (l' : list B) :
  (forall a b, P a b -> p a = q b) ->
  Forall2 P l l' -> Forall2 P (filter p l) (filter q l').
Proof.
  intros H HP. induction HP as [ | a b l l' Hab _ IH ]; cbn [filter];
    [ constructor | ]. rewrite (H a b Hab). destruct (q b); [ constructor | ]; assumption.
Qed.

Lemma Forall2_map_same {A B C : Type} (R : B -> C -> Prop) (f : A -> B) (g : A -> C)
    (l : list A) :
  (forall a, In a l -> R (f a) (g a)) -> Forall2 R (map f l) (map g l).
Proof.
  induction l as [ | a l IH ]; intros H; cbn [map]; constructor.
  - apply H. left. reflexivity.
  - apply IH. intros b Hb. apply H. right. exact Hb.
Qed.

Lemma reportable_same (a b : option Opportunity) :
  option_map signal a = option_map signal b ->
  Forall2 sameSignal (reportable a) (reportable b).
Proof.
  destruct a as [ o | ], b as [ o' | ]; cbn [option_map reportable]; intros H;
    try discriminate; [ | constructor ].
  assert (Hs : sameSignal o o') by (unfold sameSignal; congruence).
  assert (He : edge o = edge o') by (unfold sameSignal, signal in Hs; congruence).
  rewrite He. destruct (Num.MIN_EDGE <=? edge o'); repeat constructor. exact Hs.
Qed.

Lemma yesPrice_same (m m' : Market) : sameButVolume m m' -> yesPrice m = yesPrice m'.
Proof.
  intros H. destruct (sameButVolume_fields _ _ H) as (_ & _ & _ & Hp & Hy & _).
  unfold yesPrice. rewrite Hp, Hy. reflexivity.
Qed.

Lemma noPrice_same (m m' : Market) : sameButVolume m m' -> noPrice m = noPrice m'.
Proof.
  intros H. destruct (sameButVolume_fields _ _ H) as (_ & _ & _ & Hp & _ & Hn).
  unfold noPrice. rewrite Hp, Hn. reflexivity.
Qed.

Lemma displayName_same (m m' : Market) :
  sameButVolume m m' -> displayName m = displayName m'.
Proof.
  intros H. destruct (sameButVolume_fields _ _ H) as (Hq & Ht & _).
  unfold displayName. rewrite Hq, Ht. reflexivity.
Qed.

Lemma eventKey_same (m m' : Market) :
  sameButVolume m m' -> Grouping.eventKey m = Grouping.eventKey m'.
Proof.
  intros H. destruct (sameButVolume_fields _ _ H) as (Hq & _).
  unfold Grouping.eventKey. rewrite Hq. reflexivity.
Qed.

Lemma detectBasicArb_same (m m' : Market) :
  sameButVolume m m' ->
  option_map signal (detectBasicArb m) = option_map signal (detectBasicArb m').
Proof.
  intros H. unfold detectBasicArb.
  rewrite (yesPrice_same _ _ H), (noPrice_same _ _ H), (displayName_same _ _ H). cbv zeta.
  destruct (1 - (yesPrice m' + noPrice m') <=? 0); reflexivity.
Qed.

Lemma noPrices_same (ms ms' : list Market) :
  Forall2 sameButVolume ms ms' -> map noPrice ms = map noPrice ms'.
Proof.
  intros H. induction H as [ | m m' ms ms' Hm _ IH ]; [ reflexivity | ].
  cbn [map]. rewrite (noPrice_same _ _ Hm), IH. reflexivity.
Qed.

Lemma detectCorrelatedArb_same (g g' : EventGroup) :
  sameGroup g g' ->
  option_map signal (detectCorrelatedArb g) = option_map signal (detectCorrelatedArb g').
Proof.
  intros [He Hm]. unfold detectCorrelatedArb.
  rewrite (Forall2_length Hm), (noPrices_same _ _ Hm), He.
  destruct (List.length (markets g') <? 2)%nat; [ reflexivity | ]. cbv zeta.
  match goal with |- context [if ?c then None else _] => destruct c end; reflexivity.
Qed.

Section WithJSON.

Variable JSON_parse : string -> option JsVal.

Lemma exclusiveArb_same (m m' : Market) :
  sameButVolume m m' ->
  option_map signal (exclusiveArb JSON_parse m) =
  option_map signal (exclusiveArb JSON_parse m').
Proof.
  intros H. destruct (sameButVolume_fields _ _ H) as (_ & _ & Ho & Hp & _).
  unfold exclusiveArb, decoded. rewrite Ho, Hp. cbv zeta.
  destruct (length_below (Js.or (outcomes m') (JArr [])) 3); [ reflexivity | ].
  match goal with |- context [match ?d with Some _ => _ | None => None end] =>
    destruct d as [ ps | ] end; [ | reflexivity ].
  unfold mutuallyExclusiveOf. rewrite (displayName_same _ _ H).
  destruct (length_differs _ _); [ reflexivity | ]. cbv zeta.
  match goal with |- context [if ?c then None else _] => destruct c end; reflexivity.
Qed.

Lemma eventKeys_same (ms ms' : list Market) :
  Forall2 sameButVolume ms ms' -> map Grouping.eventKey ms = map Grouping.eventKey ms'.
Proof.
  intros H. induction H as [ | m m' ms ms' Hm _ IH ]; [ reflexivity | ].
  cbn [map]. rewrite (eventKey_same _ _ Hm), IH. reflexivity.
Qed.

Lemma members_same (k : string) (ms ms' : list Market) :
  Forall2 sameButVolume ms ms' ->
  Forall2 sameButVolume (Grouping.members k ms) (Grouping.members k ms').
Proof.
  intros H. unfold Grouping.members. apply Forall2_filter; [ | exact H ].
  intros a b Hab. rewrite (eventKey_same _ _ Hab). reflexivity.
Qed.

Lemma grouped_same (ms ms' : list Market) :
  Forall2 sameButVolume ms ms' ->
  Forall2 sameGroup (Grouping.grouped ms) (Grouping.grouped ms').
Proof.
  intros H. unfold Grouping.grouped. rewrite <- (eventKeys_same _ _ H).
  rewrite (filter_ext (fun k => (1 <? List.length (Grouping.members k ms'))%nat)
                      (fun k => (1 <? List.length (Grouping.members k ms))%nat))
    by (intros k; rewrite (Forall2_length (members_same k _ _ H)); reflexivity).
  apply Forall2_map_same. intros k _. split; [ reflexivity | ].
  cbn [markets]. apply members_same. exact H.
Qed.

Lemma inherited_same (ms ms' : list Market) :
  Forall2 sameButVolume ms ms' ->
  existsb (fun m => Grouping.is_inherited (Grouping.eventKey m)) ms =
  existsb (fun m => Grouping.is_inherited (Grouping.eventKey m)) ms'.
Proof.
  intros H. induction H as [ | m m' ms ms' Hm _ IH ]; [ reflexivity | ].
  cbn [existsb]. rewrite (eventKey_same _ _ Hm), IH. reflexivity.
Qed.

Lemma insert_same (x x' : Opportunity) (l l' : list Opportunity) :
  sameSignal x x' -> Forall2 sameSignal l l' ->
  Forall2 sameSignal (insert x l) (insert x' l').
Proof.
  intros Hx Hl. induction Hl as [ | y y' l l' Hy Hl IH ]; cbn [insert].
  - repeat constructor. exact Hx.
  - assert (Ex : edge x = edge x') by (unfold sameSignal, signal in Hx; congruence).
    assert (Ey : edge y = edge y') by (unfold sameSignal, signal in Hy; congruence).
    unfold compareEdge. rewrite Ex, Ey.
    destruct (edge x' - edge y' <? 0); repeat (constructor; try assumption).
Qed.

Lemma sort_same (l l' : list Opportunity) :
  Forall2 sameSignal l l' -> Forall2 sameSignal (sort l) (sort l').
Proof.
  intros H. induction H as [ | x x' l l' Hx _ IH ]; cbn [sort fold_right];
    [ constructor | ]. apply insert_same; assumption.
Qed.

Lemma sameSignal_map (l l' : list Opportunity) :
  Forall2 sameSignal l l' -> map signal l = map signal l'.
Proof.
  intros H. induction H as [ | x x' l l' Hx _ IH ]; [ reflexivity | ].
  cbn [map]. rewrite Hx, IH. reflexivity.
Qed.

Lemma detections_same (ms ms' : list Market) :
  Forall2 sameButVolume ms ms' ->
  Forall2 sameSignal (detections JSON_parse ms (Grouping.grouped ms))
                     (detections JSON_parse ms' (Grouping.grouped ms')).
Proof.
  intros H. unfold detections. repeat apply Forall2_app.
  - eapply Forall2_flat_map; [ | exact H ].
    intros a b Hab. apply reportable_same. apply detectBasicArb_same. exact Hab.
  - eapply Forall2_flat_map; [ | apply grouped_same; exact H ].
    intros a b Hab. apply reportable_same. apply detectCorrelatedArb_same. exact Hab.
  - eapply Forall2_flat_map.
    + intros a b Hab. apply reportable_same. apply exclusiveArb_same. exact Hab.
    + apply Forall2_filter; [ | exact H ].
      intros a b Hab. destruct (sameButVolume_fields _ _ Hab) as (_ & _ & Ho & _).
      unfold multiOutcome. rewrite Ho. reflexivity.
Qed.

(** X7.  Volume never decides a detection.  If two market lists differ
    only in their volume fields, a scan of either throws or returns alike,
    and the two sorted opportunity lists agree position by position on type,
    name, edge, cost, payout, prices and market count: only the reported
    volume and the quoted market records can differ.  No rule reads
    [MIN_VOLUME]. *)
Theorem scan_ignores_volume (ms ms' : list Market) :
  map withoutVolume ms = map withoutVolume ms' ->
  match scanOpportunities JSON_parse (Some ms), scanOpportunities JSON_parse (Some ms') with
  | Normal out, Normal out' => map signal out = map signal out'
  | Throw e, Throw e' => e = e'
  | _, _ => False
  end.
Proof.
  intros Heq. apply sameButVolume_list in Heq.
  rewrite !ScanFacts.scanOpportunities_value. cbn [marketsOf].
  rewrite !GroupingFacts.findRelatedMarkets_value, (inherited_same _ _ Heq).
  destruct (existsb _ ms'); cbn [bind]; [ reflexivity | ].
  apply sameSignal_map, sort_same, detections_same. exact Heq.
Qed.

(** C9.  No detector reads a volume.  If two market lists differ only in
    their volume fields, then market by market the basic rule and the
    mutually-exclusive rule give the same answer, and group by group (the
    two lists are grouped alike) the correlated rule does: the answers agree
    on whether there is a signal and on type, name, edge, cost, payout,
    prices and market count.  Only the reported total volume and the quoted
    market records can differ. *)
Theorem detectors_ignore_volume (ms ms' : list Market) :
  map withoutVolume ms = map withoutVolume ms' ->
  Forall2 (fun m m' =>
             option_map signal (detectBasicArb m) =
             option_map signal (detectBasicArb m')) ms ms' /\
  Forall2 (fun m m' =>
             exists r r',
               detectMutuallyExclusiveArb JSON_parse m = Normal r /\
               detectMutuallyExclusiveArb JSON_parse m' = Normal r' /\
               option_map signal r = option_map signal r') ms ms' /\
  Forall2 (fun g g' =>
             event g = event g' /\
             option_map signal (detectCorrelatedArb g) =
             option_map signal (detectCorrelatedArb g'))
    (Grouping.grouped ms) (Grouping.grouped ms') /\
  (forall m opp, detectBasicArb m = Some opp ->
     totalVolume opp = volumeOf m /\ opp_markets opp = [m]).
Proof.
  intros H. apply sameButVolume_list in H.
  split.
  { eapply Forall2_impl; [ | exact H ]. intros a b Hab.
    apply detectBasicArb_same. exact Hab. }
  split.
  { eapply Forall2_impl; [ | exact H ]. intros a b Hab.
    exists (exclusiveArb JSON_parse a), (exclusiveArb JSON_parse b).
    split; [ apply ScannerFacts.detectMutuallyExclusiveArb_decoded | ].
    split; [ apply ScannerFacts.detectMutuallyExclusiveArb_decoded | ].
    apply exclusiveArb_same. exact Hab. }
  split.
  { eapply Forall2_impl; [ | exact (grouped_same ms ms' H) ]. intros g g' Hg.
    split; [ exact (proj1 Hg) | apply detectCorrelatedArb_same; exact Hg ]. }
  intros m opp. unfold detectBasicArb. cbv zeta.
  destruct (1 - (yesPrice m + noPrice m) <=? 0); [ discriminate | ].
  intros E. injection E as <-. split; reflexivity.
Qed.

End WithJSON.

(** Two copies of a mock market that report different volumes. *)
Lemma scan_ignores_volume_witness :
  let m := quoted [JStr "0.40"; JStr "0.50"] in
  let m' := {| market_id := market_id m; question := question m; title := title m;
               outcomes := outcomes m; outcomePrices := outcomePrices m;
               yes_price := yes_price m; no_price := no_price m;
               volume := JStr "1500000"; volumeNum := JNum 7 |} in
  match scanOpportunities (fun _ => None) (Some [m]),
        scanOpportunities (fun _ => None) (Some [m']) with
  | Normal out, Normal out' => map signal out = map signal out'
  | Throw e, Throw e' => e = e'
  | _, _ => False
  end.
Proof.
  apply (scan_ignores_volume (fun _ => None)). reflexivity.
Defined.

Lemma detectors_ignore_volume_witness :
  let m := quoted [JStr "0.40"; JStr "0.50"] in
  let m' := {| market_id := market_id m; question := question m; title := title m;
               outcomes := outcomes m; outcomePrices := outcomePrices m;
               yes_price := yes_price m; no_price := no_price m;
               volume := JStr "1500000"; volumeNum := JNum 7 |} in
  Forall2 (fun a b =>
             option_map signal (detectBasicArb a) =
             option_map signal (detectBasicArb b)) [m] [m'] /\
  (volumeOf m =? volumeOf m') = false.
Proof.
  split; [ | vm_compute; reflexivity ].
  exact (proj1 (detectors_ignore_volume (fun _ => None)
                  [quoted [JStr "0.40"; JStr "0.50"]]
                  [{| market_id := None; question := None; title := None;
                      outcomes := JUndefined;
                      outcomePrices := JArr [JStr "0.40"; JStr "0.50"];
                      yes_price := JUndefined; no_price := JUndefined;
                      volume := JStr "1500000"; volumeNum := JNum 7 |}]
                  eq_refl)).
Defined.

End VolumeFacts.

(* ================================================================= *)
(** ** The tracker of the watcher *)

Module TrackerFacts.

Import Watcher.

Lemma has_In (k : string) (seen : Tracker) : has k seen = true <-> In k seen.
Proof. apply GroupingFacts.mem_In. Qed.

Lemma has_app (k : string) (a b : Tracker) : has k (a ++ b) = has k a || has k b.
Proof. unfold has. apply existsb_app. Qed.

Lemma has_single (k k' : string) : has k [k'] = String.eqb k k'.
Proof. unfold has. cbn [existsb]. apply orb_false_r. Qed.

Lemma offers_In (k : string) (opps : list WatchOpp) :
  offers k opps = true <-> In k (map opp_id opps).
Proof.
  unfold offers. rewrite existsb_exists, in_map_iff. split.
  - intros (o & Ho & E). apply String.eqb_eq in E. exists o. split; [ symmetry | ]; assumption.
  - intros (o & E & Ho). exists o. split; [ exact Ho | ]. rewrite E. apply String.eqb_refl.
Qed.

(** The tracker after the loop is the tracker before it followed by the
    keys that were sent, in the order of sending. *)
Lemma report_tracker (opps : list WatchOpp) : forall seen,
  fst (report seen opps) = (seen ++ map opp_id (snd (report seen opps)))%list.
Proof.
  induction opps as [ | opp rest IH ]; intros seen; cbn [report].
  - cbn [fst snd map]. rewrite app_nil_r. reflexivity.
  - destruct (has (opp_id opp) seen); [ apply IH | ].
    specialize (IH (seen ++ [opp_id opp])%list).
    destruct (report (seen ++ [opp_id opp]) rest) as [seen' sent].
    cbn [fst snd map] in *. rewrite IH, <- app_assoc. reflexivity.
Qed.

(** How often a key is sent in one cycle. *)
Lemma report_count (k : string) (opps : list WatchOpp) : forall seen,
  sentCount k (snd (report seen opps)) =
  if has k seen then 0 else if offers k opps then 1 else 0.
Proof.
  unfold sentCount.
  induction opps as [ | opp rest IH ]; intros seen; cbn [report].
  - cbn [snd map count_occ offers existsb]. destruct (has k seen); reflexivity.
  - cbn [offers existsb]. fold (offers k rest).
    destruct (has (opp_id opp) seen) eqn:Hs.
    + rewrite IH. destruct (has k seen) eqn:Hk; [ reflexivity | ].
      destruct (String.eqb k (opp_id opp)) eqn:E; [ | reflexivity ].
      apply String.eqb_eq in E. subst k. congruence.
    + specialize (IH (seen ++ [opp_id opp])%list).
      destruct (report (seen ++ [opp_id opp]) rest) as [seen' sent].
      cbn [snd map count_occ] in *. rewrite has_app, has_single in IH.
      destruct (string_dec (opp_id opp) k) as [ E | Hne ].
      * rewrite E in Hs, IH |- *. rewrite IH, Hs, String.eqb_refl. reflexivity.
      * rewrite IH. assert (E : String.eqb k (opp_id opp) = false)
          by (apply String.eqb_neq; congruence).
        rewrite E, orb_false_r. reflexivity.
Qed.

Lemma report_has (k : string) (opps : list WatchOpp) (seen : Tracker) :
  has k (fst (report seen opps)) = has k seen || offers k opps.
Proof.
  rewrite report_tracker, has_app.
  destruct (has k seen) eqn:Hk; [ reflexivity | ]. cbn [orb].
  pose proof (report_count k opps seen) as Hc. rewrite Hk in Hc.
  unfold sentCount in Hc.
  destruct (offers k opps).
  - apply has_In. apply (count_occ_In string_dec). lia.
  - destruct (has k (map opp_id (snd (report seen opps)))) eqn:E; [ | reflexivity ].
    apply has_In in E. apply (count_occ_In string_dec) in E. lia.
Qed.

Lemma report_NoDup (opps : list WatchOpp) : forall seen,
  NoDup seen -> NoDup (fst (report seen opps)).
Proof.
  induction opps as [ | opp rest IH ]; intros seen ND; cbn [report]; [ exact ND | ].
  destruct (has (opp_id opp) seen) eqn:Hs; [ apply IH; exact ND | ].
  specialize (IH (seen ++ [opp_id opp])%list).
  destruct (report (seen ++ [opp_id opp]) rest) as [seen' sent]. cbn [fst] in *.
  apply IH. apply NoDup_app; [ exact ND | repeat constructor; intros [] | ].
  intros x Hx [<- | []]. apply has_In in Hx. congruence.
Qed.

Lemma track_fst (seen : Tracker) (opps : list WatchOpp) :
  fst (track seen opps) = housekeeping (fst (report seen opps)).
Proof. unfold track. destruct (report seen opps). reflexivity. Qed.

Lemma track_snd (seen : Tracker) (opps : list WatchOpp) :
  snd (track seen opps) = snd (report seen opps).
Proof. unfold track. destruct (report seen opps). reflexivity. Qed.

Lemma sentCount_app (k : string) (a b : list WatchOpp) :
  sentCount k (a ++ b) = sentCount k a + sentCount k b.
Proof. unfold sentCount. rewrite map_app. apply count_occ_app. Qed.

Lemma trackAll_snd (seen : Tracker) (opps : list WatchOpp) (rest : list (list WatchOpp)) :
  snd (trackAll seen (opps :: rest)) =
  (snd (track seen opps) ++ snd (trackAll (fst (track seen opps)) rest))%list.
Proof.
  cbn [trackAll]. destruct (track seen opps) as [seen' sent]. cbn [fst snd].
  destruct (trackAll seen' rest) as [seen'' sent']. reflexivity.
Qed.

Lemma trackAll_fst (seen : Tracker) (opps : list WatchOpp) (rest : list (list WatchOpp)) :
  fst (trackAll seen (opps :: rest)) = fst (trackAll (fst (track seen opps)) rest).
Proof.
  cbn [trackAll]. destruct (track seen opps) as [seen' sent]. cbn [fst snd].
  destruct (trackAll seen' rest) as [seen'' sent']. reflexivity.
Qed.

Lemma report_incl (opps : list WatchOpp) : forall seen,
  incl (snd (report seen opps)) opps.
Proof.
  induction opps as [ | opp rest IH ]; intros seen; cbn [report].
  - intros x [].
  - destruct (has (opp_id opp) seen).
    + intros x Hx. right. exact (IH seen x Hx).
    + specialize (IH (seen ++ [opp_id opp])%list).
      destruct (report (seen ++ [opp_id opp]) rest) as [seen' sent]. cbn [snd] in *.
      intros x [<- | Hx]; [ left; reflexivity | right; exact (IH x Hx) ].
Qed.

(** X8.  One reporting loop.  A key that is in the tracker is never
    sent.  A key that is not is sent exactly once when the cycle offers it,
    however often it is offered, and not at all otherwise.  Afterwards the
    tracker is the old tracker followed by the keys that were sent, in the
    order of sending, so that a key is tracked exactly if it was tracked
    before or offered now. *)
Theorem report_sends_once (seen : Tracker) (opps : list WatchOpp) (k : string) :
  sentCount k (snd (report seen opps)) =
    (if has k seen then 0 else if offers k opps then 1 else 0) /\
  fst (report seen opps) = (seen ++ map opp_id (snd (report seen opps)))%list /\
  has k (fst (report seen opps)) = has k seen || offers k opps /\
  incl (snd (report seen opps)) opps.
Proof.
  split; [ apply report_count | ]. split; [ apply report_tracker | ].
  split; [ apply report_has | apply report_incl ].
Qed.

Lemma no_clear_housekeeping (seen : Tracker) :
  (1000 <? List.length seen)%nat = false -> housekeeping seen = seen.
Proof. intros H. unfold housekeeping. rewrite H. reflexivity. Qed.

(** X9.  Consecutive cycles.  As long as no cycle ends with a clear, a
    key is sent exactly once over the whole run if it is not in the tracker
    at the start and some cycle offers it, and never otherwise: an
    opportunity that stays active is not alerted again. *)
Theorem tracked_once (seen : Tracker) (cycles : list (list WatchOpp)) (k : string) :
  clears seen cycles = false ->
  sentCount k (snd (trackAll seen cycles)) =
  if has k seen then 0 else if existsb (offers k) cycles then 1 else 0.
Proof.
  revert seen. induction cycles as [ | opps rest IH ]; intros seen Hc.
  - cbn [trackAll snd existsb]. destruct (has k seen); reflexivity.
  - cbn [clears] in Hc. apply orb_false_iff in Hc. destruct Hc as [Hc1 Hc2].
    rewrite trackAll_snd, sentCount_app, track_snd, report_count, (IH _ Hc2).
    rewrite track_fst, (no_clear_housekeeping _ Hc1), report_has.
    cbn [existsb]. destruct (has k seen); [ reflexivity | ].
    destruct (offers k opps); [ reflexivity | ]. cbn [orb].
    destruct (existsb (offers k) rest); reflexivity.
Qed.

Lemma tracked_once_witness :
  sentCount "a" (snd (trackAll [] [[keyed "a"; keyed "b"]; [keyed "a"]; [keyed "c"; keyed "a"]]))
  = 1.
Proof.
  apply (tracked_once [] [[keyed "a"; keyed "b"]; [keyed "a"]; [keyed "c"; keyed "a"]] "a").
  reflexivity.
Defined.

(** X10.  The clear.  After every cycle the tracker holds at most 1000
    keys and no key twice.  When the loop leaves more than 1000 keys, the
    whole tracker is dropped, so that in the next cycle every opportunity
    that is offered is sent again, once, whether or not it was alerted
    before. *)
Theorem track_clears (seen : Tracker) (opps next : list WatchOpp) (k : string) :
  NoDup seen ->
  (List.length (fst (track seen opps)) <= 1000)%nat /\
  NoDup (fst (track seen opps)) /\
  ((1000 < List.length (fst (report seen opps)))%nat ->
   fst (track seen opps) = [] /\
   sentCount k (snd (track (fst (track seen opps)) next)) =
     if offers k next then 1 else 0).
Proof.
  intros ND. rewrite track_fst. unfold housekeeping.
  destruct (1000 <? List.length (fst (report seen opps)))%nat eqn:E.
  - split; [ cbn; lia | ]. split; [ constructor | ]. intros _.
    split; [ reflexivity | ]. rewrite track_snd, report_count. reflexivity.
  - apply Nat.ltb_ge in E. split; [ exact E | ].
    split; [ apply report_NoDup; exact ND | ]. intros H. lia.
Qed.

Lemma track_clears_witness :
  fst (track [] (numbered 1001)) = [] /\
  sentCount "7" (snd (track (fst (track [] (numbered 1001))) [keyed "7"])) = 1.
Proof.
  refine (proj2 (proj2 (track_clears [] (numbered 1001) [keyed "7"] "7" (NoDup_nil _))) _).
  apply Nat.ltb_lt. vm_compute. reflexivity.
Defined.

(** C4.  A key that is already in the tracker is never sent again.  Over
    consecutive cycles, as long as no cycle ends with a clear, a key is sent
    exactly once if it is not in the tracker at the start and some cycle
    offers it; in particular a key that two consecutive cycles offer is sent
    in the first and not in the second.  At the end of a cycle the tracker
    is dropped as a whole exactly when it holds more than 1000 keys; the
    next cycle then starts from the empty tracker, and a key that it offers
    is sent again, once. *)
Theorem tracker_once_until_clear (seen : Tracker) (cycles : list (list WatchOpp))
    (opps next : list WatchOpp) (k : string) :
  (has k seen = true -> sentCount k (snd (track seen opps)) = 0) /\
  (clears seen cycles = false ->
   sentCount k (snd (trackAll seen cycles)) =
   if has k seen then 0 else if existsb (offers k) cycles then 1 else 0) /\
  (has k seen = false -> offers k opps = true ->
   (1000 <? List.length (fst (report seen opps)))%nat = false ->
   sentCount k (snd (track seen opps)) = 1 /\
   sentCount k (snd (track (fst (track seen opps)) next)) = 0) /\
  fst (track seen opps) =
    (if (1000 <? List.length (fst (report seen opps)))%nat then []
     else fst (report seen opps)) /\
  ((1000 < List.length (fst (report seen opps)))%nat ->
   fst (track seen opps) = [] /\
   sentCount k (snd (track (fst (track seen opps)) next)) =
     if offers k next then 1 else 0).
Proof.
  split.
  { intros H. rewrite track_snd, report_count, H. reflexivity. }
  split.
  { revert seen. induction cycles as [ | cycle rest IH ]; intros seen Hc.
    - cbn [trackAll snd existsb]. destruct (has k seen); reflexivity.
    - cbn [clears] in Hc. apply orb_false_iff in Hc. destruct Hc as [Hc1 Hc2].
      rewrite trackAll_snd, sentCount_app, track_snd, report_count, (IH _ Hc2).
      rewrite track_fst, (no_clear_housekeeping _ Hc1), report_has.
      cbn [existsb]. destruct (has k seen); [ reflexivity | ].
      destruct (offers k cycle); [ reflexivity | ]. cbn [orb].
      destruct (existsb (offers k) rest); reflexivity. }
  split.
  { intros Hs Ho Hc. rewrite !track_snd, !report_count, Hs, Ho.
    split; [ reflexivity | ].
    rewrite track_fst, (no_clear_housekeeping _ Hc), report_has, Hs, Ho. reflexivity. }
  split.
  { rewrite track_fst. reflexivity. }
  intros H. apply Nat.ltb_lt in H. rewrite track_fst. unfold housekeeping. rewrite H.
  split; [ reflexivity | ]. rewrite track_snd, report_count. reflexivity.
Qed.

End TrackerFacts.

(* ================================================================= *)
(** ** The watch cycle *)

Module WatcherFacts.

Import Watcher.
Local Open Scope float_scope.

Lemma leb_trans (a b c : float) :
  (a <=? b) = true -> (b <=? c) = true -> (a <=? c) = true.
Proof.
  rewrite !NumFacts.leb_true. intuition lia.
Qed.

Lemma ltb_leb_trans (a b c : float) :
  (a <? b) = true -> (b <=? c) = true -> (a <? c) = true.
Proof.
  rewrite !NumFacts.ltb_true, NumFacts.leb_true. intuition lia.
Qed.

Lemma ltb_not_leb (a c : float) : (a <? c) = true -> (c <=? a) = false.
Proof.
  rewrite NumFacts.ltb_true, NumFacts.leb_rank. intros (Na & Nc & H).
  rewrite Na, Nc. cbn [orb negb andb]. apply Z.leb_gt. exact H.
Qed.

Lemma collect_value (ms : list Market) :
  collect ms =
  if existsb (fun m => Grouping.is_inherited (Grouping.eventKey m)) ms
  then Throw TypeError else Normal (found ms).
Proof.
  unfold collect. rewrite GroupingFacts.findRelatedMarkets_value.
  destruct (existsb _ ms); reflexivity.
Qed.

Lemma basicOf_edge (m : Market) :
  Forall (fun o => (Num.WATCH_MIN_EDGE <=? opp_edge o) = true) (basicOf m).
Proof.
  unfold basicOf. cbv zeta.
  match goal with |- context [if ?c then _ else _] => destruct c eqn:E end;
    repeat constructor. exact E.
Qed.

Lemma correlatedOf_edge (g : EventGroup) :
  Forall (fun o => (Num.WATCH_MIN_EDGE <=? opp_edge o) = true) (correlatedOf g).
Proof.
  unfold correlatedOf. cbv zeta.
  destruct (List.length (markets g) <? 2)%nat; [ constructor | ].
  match goal with |- context [if ?c then _ else _] => destruct c eqn:E end;
    repeat constructor. exact E.
Qed.

Lemma found_edge (ms : list Market) :
  Forall (fun o => (Num.WATCH_MIN_EDGE <=? opp_edge o) = true) (found ms).
Proof.
  unfold found. apply Forall_app. split; apply Forall_flat_map; apply Forall_forall;
    intros x _; [ apply basicOf_edge | apply correlatedOf_edge ].
Qed.

Lemma report_unseen (opps : list WatchOpp) : forall seen,
  Forall (fun o => has (opp_id o) seen = false) (snd (report seen opps)).
Proof.
  induction opps as [ | opp rest IH ]; intros seen; cbn [report]; [ constructor | ].
  destruct (has (opp_id opp) seen) eqn:Hs; [ apply IH | ].
  specialize (IH (seen ++ [opp_id opp])%list).
  destruct (report (seen ++ [opp_id opp]) rest) as [seen' sent]. cbn [snd] in *.
  constructor; [ exact Hs | ].
  eapply Forall_impl; [ | exact IH ]. cbn beta. intros o Ho.
  rewrite TrackerFacts.has_app in Ho. apply orb_false_iff in Ho. apply Ho.
Qed.

(** X11.  One turn of the watch loop.  After a failed fetch, and when the
    question of some market normalises to an inherited property name (the
    grouping then throws), nothing is sent and the tracker is left as it
    was: in the second case the basic opportunities that were already found
    are dropped with the rest.  Otherwise the turn reports what it found.
    Whatever is sent has an edge of at least the 3% threshold, was found in
    this cycle and has a key that was not in the tracker. *)
Theorem mainStep_cycle (seen : Tracker) (fetched : option (list Market)) :
  mainStep seen fetched =
    match fetched with
    | None => (seen, [])
    | Some ms =>
        if existsb (fun m => Grouping.is_inherited (Grouping.eventKey m)) ms
        then (seen, [])
        else track seen (found ms)
    end /\
  Forall (fun o => (Num.WATCH_MIN_EDGE <=? opp_edge o) = true /\
                   has (opp_id o) seen = false /\
                   exists ms, fetched = Some ms /\ In o (found ms))
    (snd (mainStep seen fetched)).
Proof.
  assert (Hv : mainStep seen fetched =
    match fetched with
    | None => (seen, [])
    | Some ms =>
        if existsb (fun m => Grouping.is_inherited (Grouping.eventKey m)) ms
        then (seen, [])
        else track seen (found ms)
    end).
  { unfold mainStep, watchCycle. destruct fetched as [ ms | ]; [ | reflexivity ].
    rewrite collect_value. destruct (existsb _ ms); reflexivity. }
  split; [ exact Hv | ]. rewrite Hv.
  destruct fetched as [ ms | ]; [ | constructor ].
  destruct (existsb _ ms); [ constructor | ].
  rewrite TrackerFacts.track_snd. apply Forall_forall. intros o Ho.
  pose proof (proj1 (Forall_forall _ _) (report_unseen (found ms) seen) o Ho) as Hu.
  pose proof (TrackerFacts.report_incl (found ms) seen) as Hin.
  split; [ | split; [ exact Hu | exists ms; split; [ reflexivity | apply Hin; exact Ho ] ] ].
  apply (proj1 (Forall_forall _ _) (found_edge ms)). apply Hin. exact Ho.
Qed.

End WatcherFacts.

(* ================================================================= *)
(** ** The scanner and the watcher side by side *)

Module CrossFacts.

Import Scanner.
Local Open Scope string_scope.
Local Open Scope float_scope.

Lemma add_nan_l (y : float) : nan + y = nan.
Proof. apply Prim2SF_inj. rewrite add_spec. reflexivity. Qed.

Lemma sub_nan_r (x : float) : x - nan = nan.
Proof.
  apply Prim2SF_inj. rewrite sub_spec.
  change (Prim2SF nan) with S754_nan. destruct (Prim2SF x); reflexivity.
Qed.

Lemma parse_bracket : ParseFloat.of_string "[" = nan.
Proof. vm_compute. reflexivity. Qed.

Lemma priceAt_yes (m : Market) :
  Js.truthy (yes_price m) = false -> Watcher.priceAt m 0 = yesPrice m.
Proof.
  intros H. unfold Watcher.priceAt, yesPrice, Js.or.
  destruct (Js.truthy (Js.index (outcomePrices m) 0)) eqn:E.
  - rewrite E. reflexivity.
  - rewrite H. reflexivity.
Qed.

Lemma priceAt_no (m : Market) :
  Js.truthy (no_price m) = false -> Watcher.priceAt m 1 = noPrice m.
Proof.
  intros H. unfold Watcher.priceAt, noPrice, Js.or.
  destruct (Js.truthy (Js.index (outcomePrices m) 1)) eqn:E.
  - rewrite E. reflexivity.
  - rewrite H. reflexivity.
Qed.

Lemma thresholds : (0 <? Num.MIN_EDGE) = true /\ (Num.MIN_EDGE <=? Num.WATCH_MIN_EDGE) = true.
Proof. split; reflexivity. Qed.

(** X12.  For a market without the alternate fields [yes_price] and
    [no_price], the watcher and the scanner compute one and the same edge,
    and the watcher raises a basic alert exactly when [detectBasicArb]
    returns an opportunity whose edge reaches the watcher's 3% threshold.
    Every such alert is therefore also reported by the scan, whose threshold
    is 2%. *)
Theorem watcher_agrees_with_scanner (m : Market) :
  Js.truthy (yes_price m) = false ->
  Js.truthy (no_price m) = false ->
  map Watcher.opp_edge (Watcher.basicOf m) =
    match detectBasicArb m with
    | Some opp => if Num.WATCH_MIN_EDGE <=? edge opp then [edge opp] else []
    | None => []
    end /\
  (List.length (Watcher.basicOf m) <= List.length (reportable (detectBasicArb m)))%nat.
Proof.
  intros Hy Hn. unfold Watcher.basicOf, detectBasicArb.
  rewrite (priceAt_yes m Hy), (priceAt_no m Hn). cbv zeta.
  set (e := 1 - (yesPrice m + noPrice m)).
  destruct thresholds as [H0 H1].
  destruct (Num.WATCH_MIN_EDGE <=? e) eqn:E.
  - assert (Hpos : (e <=? 0) = false).
    { apply WatcherFacts.ltb_not_leb.
      apply (WatcherFacts.ltb_leb_trans 0 Num.WATCH_MIN_EDGE e); [ | exact E ].
      exact (WatcherFacts.ltb_leb_trans 0 Num.MIN_EDGE Num.WATCH_MIN_EDGE H0 H1). }
    rewrite Hpos. cbn [edge reportable map Watcher.opp_edge List.length]. rewrite E.
    rewrite (WatcherFacts.leb_trans Num.MIN_EDGE Num.WATCH_MIN_EDGE e H1 E).
    split; [ reflexivity | cbn [List.length]; lia ].
  - cbn [map List.length]. split; [ | lia ].
    destruct (e <=? 0); [ reflexivity | ]. cbn [edge]. rewrite E. reflexivity.
Qed.

Lemma watcher_agrees_with_scanner_witness :
  let m := quoted [JStr "0.40"; JStr "0.50"] in
  map Watcher.opp_edge (Watcher.basicOf m) =
    match detectBasicArb m with
    | Some opp => if Num.WATCH_MIN_EDGE <=? edge opp then [edge opp] else []
    | None => []
    end /\
  (List.length (Watcher.basicOf m) <= List.length (reportable (detectBasicArb m)))%nat.
Proof.
  apply (watcher_agrees_with_scanner (quoted [JStr "0.40"; JStr "0.50"])); reflexivity.
Defined.

(** X13.  A price field that arrives as text, which only the
    mutually-exclusive rule decodes, misleads the basic rule: it takes the
    opening bracket for the yes price.  The price and the edge are then NaN,
    [detectBasicArb] does return an opportunity, and both thresholds drop it,
    so that neither the scan nor the watcher ever reports a basic
    opportunity for such a market. *)
Theorem text_prices_never_basic (m : Market) (rest : string) :
  outcomePrices m = JStr (String "[" rest) ->
  is_nan (yesPrice m) = true /\
  (exists opp, detectBasicArb m = Some opp /\ is_nan (edge opp) = true) /\
  reportable (detectBasicArb m) = [] /\
  Watcher.basicOf m = [].
Proof.
  intros Hp.
  assert (Hy : yesPrice m = nan).
  { unfold yesPrice. rewrite Hp. cbn [Js.index get Js.or Js.truthy].
    change (Js.parseFloat (JStr "[")) with (ParseFloat.of_string "[").
    apply parse_bracket. }
  assert (Hw : Watcher.priceAt m 0 = nan).
  { unfold Watcher.priceAt. rewrite Hp. cbn [Js.index get Js.or Js.truthy].
    change (Js.parseFloat (JStr "[")) with (ParseFloat.of_string "[").
    apply parse_bracket. }
  split; [ rewrite Hy; reflexivity | ].
  unfold detectBasicArb, Watcher.basicOf. rewrite Hy, Hw. cbv zeta.
  rewrite !add_nan_l, sub_nan_r.
  change (nan <=? 0) with false. cbn [reportable edge].
  change (Num.MIN_EDGE <=? nan) with false.
  change (Num.WATCH_MIN_EDGE <=? nan) with false.
  split; [ eexists; split; reflexivity | split; reflexivity ].
Qed.

Lemma text_prices_never_basic_witness :
  let m := {| market_id := None; question := Some "Q"; title := None;
              outcomes := JStr "[1, 2]"; outcomePrices := JStr "[0.15, 0.82]";
              yes_price := JUndefined; no_price := JUndefined;
              volume := JUndefined; volumeNum := JUndefined |} in
  reportable (detectBasicArb m) = [] /\ Watcher.basicOf m = [].
Proof.
  exact (proj2 (proj2 (text_prices_never_basic
           {| market_id := None; question := Some "Q"; title := None;
              outcomes := JStr "[1, 2]"; outcomePrices := JStr "[0.15, 0.82]";
              yes_price := JUndefined; no_price := JUndefined;
              volume := JUndefined; volumeNum := JUndefined |}
           "0.15, 0.82]" eq_refl))).
Defined.

(** X24.  For a group whose markets lack the alternate field
    [no_price], the watcher and the scanner compute one and the same
    correlated edge, and the watcher finds a correlated opportunity exactly
    when [detectCorrelatedArb] returns one whose edge reaches the watcher's
    3% threshold; the scan reports every such opportunity too. *)
Theorem watcher_agrees_on_groups (g : EventGroup) :
  Forall (fun m => Js.truthy (no_price m) = false) (markets g) ->
  map Watcher.opp_edge (Watcher.correlatedOf g) =
    match detectCorrelatedArb g with
    | Some opp => if Num.WATCH_MIN_EDGE <=? edge opp then [edge opp] else []
    | None => []
    end /\
  (List.length (Watcher.correlatedOf g)
   <= List.length (reportable (detectCorrelatedArb g)))%nat.
Proof.
  intros Hno. unfold Watcher.correlatedOf, detectCorrelatedArb. cbv zeta.
  assert (Hp : map (fun m => Watcher.priceAt m 1) (markets g) = map noPrice (markets g)).
  { apply map_ext_in. intros m Hin. rewrite Forall_forall in Hno.
    exact (priceAt_no m (Hno m Hin)). }
  rewrite Hp.
  destruct (List.length (markets g) <? 2)%nat; [ split; [ reflexivity | cbn; lia ] | ].
  set (e := (Num.of_nat (List.length (markets g)) - 1 - Num.sum (map noPrice (markets g)))
            / Num.of_nat (List.length (markets g))).
  destruct thresholds as [H0 H1].
  destruct (Num.WATCH_MIN_EDGE <=? e) eqn:E.
  - assert (Hpos : (e <=? 0) = false).
    { apply WatcherFacts.ltb_not_leb.
      apply (WatcherFacts.ltb_leb_trans 0 Num.WATCH_MIN_EDGE e); [ | exact E ].
      exact (WatcherFacts.ltb_leb_trans 0 Num.MIN_EDGE Num.WATCH_MIN_EDGE H0 H1). }
    rewrite Hpos. cbn [edge reportable map Watcher.opp_edge List.length]. rewrite E.
    rewrite (WatcherFacts.leb_trans Num.MIN_EDGE Num.WATCH_MIN_EDGE e H1 E).
    split; [ reflexivity | cbn [List.length]; lia ].
  - cbn [map List.length]. split; [ | lia ].
    destruct (e <=? 0); [ reflexivity | ]. cbn [edge]. rewrite E. reflexivity.
Qed.

Lemma watcher_agrees_on_groups_witness :
  let g := groupOf ["0.30"; "0.30"; "0.30"] in
  map Watcher.opp_edge (Watcher.correlatedOf g) =
    match detectCorrelatedArb g with
    | Some opp => if Num.WATCH_MIN_EDGE <=? edge opp then [edge opp] else []
    | None => []
    end /\
  (List.length (Watcher.correlatedOf g)
   <= List.length (reportable (detectCorrelatedArb g)))%nat.
Proof.
  apply (watcher_agrees_on_groups (groupOf ["0.30"; "0.30"; "0.30"])).
  repeat constructor.
Defined.

Lemma grouped_NoDup (ms : list Market) : NoDup (map event (Grouping.grouped ms)).
Proof.
  rewrite GroupingFacts.grouped_events. apply NoDup_filter.
  apply (Permutation_NoDup
           (Permutation_sym (GroupingFacts.propertyOrder_perm (fun k => k) _))).
  apply GroupingFacts.firstSeen_NoDup.
Qed.

Lemma correlatedOf_id (g : EventGroup) (o : Watcher.WatchOpp) :
  In o (Watcher.correlatedOf g) -> Watcher.opp_id o = "correlated:" ++ event g.
Proof.
  unfold Watcher.correlatedOf. cbv zeta.
  destruct (List.length (markets g) <? 2)%nat; [ intros [] | ].
  match goal with |- context [if ?c then _ else _] => destruct c end; [ | intros [] ].
  intros [ <- | [] ]. reflexivity.
Qed.

Lemma basicOf_id (m : Market) (o : Watcher.WatchOpp) :
  In o (Watcher.basicOf m) -> Watcher.opp_id o = "basic:" ++ Watcher.idText m.
Proof.
  unfold Watcher.basicOf. cbv zeta.
  match goal with |- context [if ?c then _ else _] => destruct c end; [ | intros [] ].
  intros [ <- | [] ]. reflexivity.
Qed.

Lemma correlated_ids_NoDup (gs : list EventGroup) :
  NoDup (map event gs) ->
  NoDup (map Watcher.opp_id (flat_map Watcher.correlatedOf gs)).
Proof.
  induction gs as [ | g gs IH ]; cbn [map flat_map]; intros H; [ constructor | ].
  inversion H as [ | k ks Hnot Hnd ]; subst.
  rewrite map_app. specialize (IH Hnd).
  assert (Hone : forall o, In o (Watcher.correlatedOf g) ->
            Watcher.correlatedOf g = [o]).
  { unfold Watcher.correlatedOf. cbv zeta.
    destruct (List.length (markets g) <? 2)%nat; [ intros o [] | ].
    match goal with |- context [if ?c then _ else _] => destruct c end;
      [ | intros o [] ].
    intros o [ <- | [] ]. reflexivity. }
  destruct (Watcher.correlatedOf g) as [ | o rest ] eqn:E; [ exact IH | ].
  rewrite (Hone o (or_introl eq_refl)). cbn [map app]. constructor; [ | exact IH ].
  intros Hin. apply in_map_iff in Hin. destruct Hin as (o' & Hid & Hin).
  apply in_flat_map in Hin. destruct Hin as (g' & Hg' & Ho').
  apply correlatedOf_id in Ho'.
  assert (Ho : Watcher.opp_id o = "correlated:" ++ event g).
  { apply correlatedOf_id. rewrite E. left. reflexivity. }
  rewrite Ho, Ho' in Hid. cbn [append] in Hid.
  apply Hnot. apply in_map_iff. exists g'. split; [ congruence | exact Hg' ].
Qed.

(** X25.  The tracker keys of one cycle.  No two correlated opportunities
    that a cycle finds share a key, and the key of a basic opportunity is
    never that of a correlated one: within a cycle a correlated opportunity
    is not suppressed by any other opportunity of that cycle.  (Two basic
    opportunities do share a key when their markets have the same id, or no
    id and the same question.) *)
Theorem cycle_keys (ms : list Market) :
  NoDup (map Watcher.opp_id (flat_map Watcher.correlatedOf (Grouping.grouped ms))) /\
  (forall b c, In b (flat_map Watcher.basicOf ms) ->
               In c (flat_map Watcher.correlatedOf (Grouping.grouped ms)) ->
               Watcher.opp_id b <> Watcher.opp_id c) /\
  (forall m m' b b', In b (Watcher.basicOf m) -> In b' (Watcher.basicOf m') ->
                     (Watcher.opp_id b = Watcher.opp_id b' <->
                      Watcher.idText m = Watcher.idText m')).
Proof.
  split; [ apply correlated_ids_NoDup, grouped_NoDup | ]. split.
  - intros b c Hb Hc.
    apply in_flat_map in Hb. destruct Hb as (m & _ & Hb).
    apply in_flat_map in Hc. destruct Hc as (g & _ & Hc).
    rewrite (basicOf_id m b Hb), (correlatedOf_id g c Hc). discriminate.
  - intros m m' b b' Hb Hb'.
    rewrite (basicOf_id m b Hb), (basicOf_id m' b' Hb'). cbn [append].
    split; [ intros H; congruence | intros ->; reflexivity ].
Qed.




End CrossFacts.

(* ================================================================= *)
(** ** The scores of quantum.js *)

Module QuantumFacts.

Import Scanner Quantum.
Local Open Scope string_scope.
Local Open Scope float_scope.

(** The sum of a two-element array starts from 0; this does not change what
    is left of 1. *)
Lemma zero_add_sub (x y : float) : 1 - ((0 + x) + y) = 1 - (x + y).
Proof.
  apply Prim2SF_inj. rewrite !sub_spec, !add_spec.
  change (Prim2SF 0) with (S754_zero false).
  destruct (Prim2SF x) as [ [ | ] | [ | ] | | sx mx ex ];
    destruct (Prim2SF y) as [ [ | ] | [ | ] | | sy my ey ]; reflexivity.
Qed.

Lemma leb_false_mono (a b e : float) :
  (a <=? b) = true -> (a <=? e) = false -> (b <=? e) = false.
Proof.
  intros Hab Hae. destruct (b <=? e) eqn:E; [ | reflexivity ].
  rewrite (WatcherFacts.leb_trans a b e Hab E) in Hae. discriminate.
Qed.

(** X14.  [fibonacciEdgeDetection] only ever reports the first level: an
    edge that reaches the threshold of a later level has reached that of
    0.236 before, so the levels 0.382, 0.5, 0.618 and 0.786 are never
    returned, and an edge that is not a number falls below all of them. *)
Theorem fibonacciEdgeDetection_first_level (edge : float) :
  fibonacciEdgeDetection edge =
  if ParseFloat.dec "0.236" * ParseFloat.dec "0.1" <=? edge then
    {| level := FIBONACCI (ParseFloat.dec "0.236");
       strength := edge / (ParseFloat.dec "0.236" * ParseFloat.dec "0.1");
       goldenRatio := Some (edge * PHI);
       verdict := FRACTAL_EDGE_DETECTED |}
  else
    {| level := SUB_FIBONACCI;
       strength := edge * 100;
       goldenRatio := None;
       verdict := BELOW_FRACTAL_THRESHOLD |}.
Proof.
  unfold fibonacciEdgeDetection, fibLevels. cbn [map fibLoop].
  destruct (ParseFloat.dec "0.236" * ParseFloat.dec "0.1" <=? edge) eqn:E1;
    [ reflexivity | ].
  rewrite (leb_false_mono (ParseFloat.dec "0.236" * ParseFloat.dec "0.1")
             (ParseFloat.dec "0.382" * ParseFloat.dec "0.1") edge);
    [ | vm_compute; reflexivity | exact E1 ].
  rewrite (leb_false_mono (ParseFloat.dec "0.236" * ParseFloat.dec "0.1")
             (ParseFloat.dec "0.5" * ParseFloat.dec "0.1") edge);
    [ | vm_compute; reflexivity | exact E1 ].
  rewrite (leb_false_mono (ParseFloat.dec "0.236" * ParseFloat.dec "0.1")
             (ParseFloat.dec "0.618" * ParseFloat.dec "0.1") edge);
    [ | vm_compute; reflexivity | exact E1 ].
  rewrite (leb_false_mono (ParseFloat.dec "0.236" * ParseFloat.dec "0.1")
             (ParseFloat.dec "0.786" * ParseFloat.dec "0.1") edge);
    [ | vm_compute; reflexivity | exact E1 ].
  reflexivity.
Qed.

Lemma recommendation_not_pass (e : float) (w : WaveFunction) :
  (ParseFloat.dec "0.01" <? e) = true -> getQuantumRecommendation e w <> PASS.
Proof.
  intros H. unfold getQuantumRecommendation. rewrite H.
  destruct w;
    repeat match goal with |- context [if ?c then _ else _] => destruct c end;
    discriminate.
Qed.

Lemma reported_above (o : Opportunity) :
  reported o -> (ParseFloat.dec "0.01" <? edge o) = true.
Proof.
  intros H.
  apply (WatcherFacts.ltb_leb_trans (ParseFloat.dec "0.01") Num.MIN_EDGE (edge o));
    [ vm_compute; reflexivity | exact H ].
Qed.

Lemma reported_positive (o : Opportunity) : reported o -> (0 <? edge o) = true.
Proof.
  intros H.
  apply (WatcherFacts.ltb_leb_trans 0 Num.MIN_EDGE (edge o));
    [ vm_compute; reflexivity | exact H ].
Qed.

Lemma detectBasicArb_raw (m : Market) (o : Opportunity) :
  detectBasicArb m = Some o -> 1 - Num.sum (prices o) = edge o.
Proof.
  unfold detectBasicArb. cbv zeta.
  destruct (1 - (yesPrice m + noPrice m) <=? 0); [ discriminate | ].
  intros H. injection H as <-. cbn [prices edge]. unfold Num.sum. cbn [fold_left].
  apply zero_add_sub.
Qed.

Lemma detectCorrelatedArb_type (g : EventGroup) (o : Opportunity) :
  detectCorrelatedArb g = Some o -> opp_type o = CORRELATED_DATE_ARB.
Proof.
  unfold detectCorrelatedArb. cbv zeta.
  destruct (List.length (markets g) <? 2)%nat; [ discriminate | ].
  match goal with |- context [if ?c then _ else _] => destruct c end; [ discriminate | ].
  intros H. injection H as <-. reflexivity.
Qed.

Section WithJSON.

Variable JSON_parse : string -> option JsVal.

Lemma exclusiveArb_raw (m : Market) (o : Opportunity) :
  exclusiveArb JSON_parse m = Some o -> 1 - Num.sum (prices o) = edge o.
Proof.
  unfold exclusiveArb. cbv zeta.
  destruct (length_below _ 3); [ discriminate | ].
  destruct (decoded JSON_parse m) as [ ps | ]; [ | discriminate ].
  unfold mutuallyExclusiveOf. cbv zeta.
  destruct (length_differs _ _); [ discriminate | ].
  destruct (1 - Num.sum ps <=? 0); [ discriminate | ].
  intros H. injection H as <-. reflexivity.
Qed.

Lemma detections_Forall (P : Opportunity -> Prop) (ms : list Market)
    (groups : list EventGroup) :
  (forall m o, detectBasicArb m = Some o -> reported o -> P o) ->
  (forall g o, detectCorrelatedArb g = Some o -> reported o -> P o) ->
  (forall m o, exclusiveArb JSON_parse m = Some o -> reported o -> P o) ->
  Forall P (detections JSON_parse ms groups).
Proof.
  intros Hb Hc He.
  assert (Hrep : forall (A : Type) (f : A -> option Opportunity) (l : list A),
             (forall a o, f a = Some o -> reported o -> P o) ->
             Forall P (flat_map (fun a => reportable (f a)) l)).
  { intros A f l Hf. apply Forall_flat_map. apply Forall_forall. intros a _.
    destruct (f a) as [ o | ] eqn:E; cbn [reportable]; [ | constructor ].
    destruct (Num.MIN_EDGE <=? edge o) eqn:Er; repeat constructor.
    exact (Hf a o E Er). }
  unfold detections. rewrite !Forall_app. repeat split; apply Hrep; assumption.
Qed.

Lemma scan_Forall (P : Opportunity -> Prop) (fetched : option (list Market)) :
  Forall P (detections JSON_parse (marketsOf fetched) (Grouping.grouped (marketsOf fetched))) ->
  match scanOpportunities JSON_parse fetched with
  | Normal out => Forall P out
  | Throw _ => True
  end.
Proof.
  intros H. rewrite ScanFacts.scanOpportunities_value.
  rewrite GroupingFacts.findRelatedMarkets_value.
  destruct (existsb _ (marketsOf fetched)); [ exact I | ]. cbn [bind].
  apply SortFacts.sort_Forall. exact H.
Qed.

Variable atan2 : float -> float -> float.

(** X15.  No opportunity that [scan] reports is recommended as PASS in its
    report: the threshold [MIN_EDGE] of the scan lies above the 0.01 below
    which [getQuantumRecommendation] passes. *)
Theorem scan_never_recommends_pass (fetched : option (list Market)) :
  match scanOpportunities JSON_parse fetched with
  | Normal out => Forall (fun o => recommendationOf atan2 o <> PASS) out
  | Throw _ => True
  end.
Proof.
  apply scan_Forall. apply Forall_forall. intros o Hin.
  pose proof (ScanFacts.detections_reported JSON_parse (marketsOf fetched)
                (Grouping.grouped (marketsOf fetched))) as Hrep.
  rewrite Forall_forall in Hrep.
  apply recommendation_not_pass. apply reported_above. apply Hrep. exact Hin.
Qed.

(** X16.  For a basic or mutually exclusive opportunity that [scan]
    reports, the raw phase shift of the report is the edge itself, the wave
    function is COLLAPSED_PROFITABLE, and the recommendation depends on the
    edge alone: EXECUTE above 0.05, MONITOR above 0.03, OBSERVE otherwise. *)
Theorem scan_phase_is_edge (fetched : option (list Market)) :
  match scanOpportunities JSON_parse fetched with
  | Normal out =>
      Forall (fun o =>
        opp_type o <> CORRELATED_DATE_ARB ->
        raw (calculateQuantumPhaseShift atan2 (prices o)) = edge o /\
        waveFunction (calculateQuantumPhaseShift atan2 (prices o)) = COLLAPSED_PROFITABLE /\
        recommendationOf atan2 o =
          if ParseFloat.dec "0.05" <? edge o then EXECUTE
          else if ParseFloat.dec "0.03" <? edge o then MONITOR
          else OBSERVE) out
  | Throw _ => True
  end.
Proof.
  apply scan_Forall.
  assert (Hraw : forall o, 1 - Num.sum (prices o) = edge o -> reported o ->
            raw (calculateQuantumPhaseShift atan2 (prices o)) = edge o /\
            waveFunction (calculateQuantumPhaseShift atan2 (prices o)) = COLLAPSED_PROFITABLE /\
            recommendationOf atan2 o =
              if ParseFloat.dec "0.05" <? edge o then EXECUTE
              else if ParseFloat.dec "0.03" <? edge o then MONITOR
              else OBSERVE).
  { intros o Hr Hrep.
    pose proof (reported_positive o Hrep) as Hpos.
    pose proof (reported_above o Hrep) as Hab.
    unfold recommendationOf, calculateQuantumPhaseShift. cbv zeta.
    cbn [raw waveFunction]. rewrite Hr, Hpos.
    split; [ reflexivity | ]. split; [ reflexivity | ].
    unfold getQuantumRecommendation. rewrite Hab.
    destruct (ParseFloat.dec "0.05" <? edge o); [ reflexivity | ].
    destruct (ParseFloat.dec "0.03" <? edge o); reflexivity. }
  apply detections_Forall.
  - intros m o H Hrep _. apply Hraw; [ exact (detectBasicArb_raw m o H) | exact Hrep ].
  - intros g o H _ Hne. exfalso. apply Hne. exact (detectCorrelatedArb_type g o H).
  - intros m o H Hrep _. apply Hraw; [ exact (exclusiveArb_raw m o H) | exact Hrep ].
Qed.

End WithJSON.

Lemma add_not_nan (x y : float) :
  NumFacts.fnan (x + y) = false -> NumFacts.fnan x = false /\ NumFacts.fnan y = false.
Proof.
  unfold NumFacts.fnan. rewrite add_spec.
  destruct (Prim2SF x) as [ sx | sx | | sx mx ex ];
    destruct (Prim2SF y) as [ sy | sy | | sy my ey ];
    intros H; try (split; reflexivity); discriminate H.
Qed.

Lemma sub_not_nan_r (x y : float) :
  NumFacts.fnan (x - y) = false -> NumFacts.fnan y = false.
Proof.
  unfold NumFacts.fnan. rewrite sub_spec.
  destruct (Prim2SF x) as [ sx | sx | | sx mx ex ];
    destruct (Prim2SF y) as [ sy | sy | | sy my ey ];
    intros H; try reflexivity; discriminate H.
Qed.

(** X17.  The phase in an alert of the watcher.  A correlated opportunity
    has no [yesPrice] and no [noPrice], so its phase is computed from
    [0.5, 0.5]: the raw shift is 0 and the wave function is
    SUPERPOSITION_WAIT, whatever the edge.  For a basic opportunity whose
    two prices are not zero, the raw shift is the edge and the wave function
    is COLLAPSED_PROFITABLE. *)
Theorem alertPhase_of_found (atan2 : float -> float -> float) (ms : list Market) :
  Forall (fun opp =>
    match Watcher.detail opp with
    | Watcher.CORRELATED _ _ _ =>
        raw (alertPhase atan2 opp) = 0 /\
        waveFunction (alertPhase atan2 opp) = SUPERPOSITION_WAIT
    | Watcher.BASIC yesPrice noPrice =>
        is_zero yesPrice = false -> is_zero noPrice = false ->
        raw (alertPhase atan2 opp) = Watcher.opp_edge opp /\
        waveFunction (alertPhase atan2 opp) = COLLAPSED_PROFITABLE
    end) (Watcher.found ms).
Proof.
  unfold Watcher.found. apply Forall_app.
  split; apply Forall_flat_map; apply Forall_forall.
  - intros m _. unfold Watcher.basicOf. cbv zeta.
    destruct (Num.WATCH_MIN_EDGE <=? 1 - (Watcher.priceAt m 0 + Watcher.priceAt m 1)) eqn:E;
      [ | apply Forall_nil ].
    apply Forall_cons; [ | apply Forall_nil ].
    cbn [Watcher.detail Watcher.opp_edge].
    intros Zy Zn.
    assert (Hpos : (0 <? 1 - (Watcher.priceAt m 0 + Watcher.priceAt m 1)) = true).
    { apply (WatcherFacts.ltb_leb_trans 0 Num.WATCH_MIN_EDGE
               (1 - (Watcher.priceAt m 0 + Watcher.priceAt m 1)));
        [ vm_compute; reflexivity | exact E ]. }
    assert (Hn : is_nan (Watcher.priceAt m 0) = false /\
                 is_nan (Watcher.priceAt m 1) = false).
    { rewrite <- !NumFacts.fnan_is_nan. apply add_not_nan. apply (sub_not_nan_r 1).
      destruct (proj1 (NumFacts.ltb_true _ _) Hpos) as (_ & Hn & _). exact Hn. }
    destruct Hn as (Ny & Nn).
    unfold alertPhase. cbn [Watcher.detail]. unfold orHalf, Js.truthy.
    rewrite Zy, Zn, Ny, Nn. cbn [orb negb].
    unfold calculateQuantumPhaseShift. cbv zeta. cbn [raw waveFunction].
    unfold Num.sum. cbn [fold_left]. rewrite zero_add_sub, Hpos. split; reflexivity.
  - intros g _. unfold Watcher.correlatedOf. cbv zeta.
    destruct (List.length (markets g) <? 2)%nat; [ apply Forall_nil | ].
    match goal with |- context [if ?c then _ else _] => destruct c end;
      [ | apply Forall_nil ].
    apply Forall_cons; [ | apply Forall_nil ].
    cbn [Watcher.detail]. unfold alertPhase. cbn [Watcher.detail].
    unfold calculateQuantumPhaseShift. cbv zeta. cbn [raw waveFunction].
    clear. split; vm_compute; reflexivity.
Qed.

End QuantumFacts.

(* ================================================================= *)
(** ** The regular expressions of [extractBaseEvent] *)

Module RegexFacts.

Import Regex Sim.
Local Open Scope string_scope.

Lemma length_app (a b : string) :
  String.length (a ++ b) = String.length a + String.length b.
Proof.
  induction a as [ | c a IH ]; cbn [append String.length]; [ reflexivity | ].
  rewrite IH. reflexivity.
Qed.

(** Only whether the previous character is a word character matters. *)
Lemma star_prev (p : ascii -> bool) : forall s p1 p2 (k1 k2 : Cont),
  (forall q1 q2 s', word_opt q1 = word_opt q2 -> k1 q1 s' = k2 q2 s') ->
  word_opt p1 = word_opt p2 ->
  star p p1 s k1 = star p p2 s k2.
Proof.
  induction s as [ | c s IH ]; intros p1 p2 k1 k2 Hk Hp; cbn [star].
  - apply Hk. exact Hp.
  - destruct (p c); [ | apply Hk; exact Hp ].
    rewrite (IH (Some c) (Some c) k1 k2 Hk eq_refl).
    destruct (star p (Some c) s k2); [ reflexivity | apply Hk; exact Hp ].
Qed.

Lemma rmatch_prev (r : re) : forall s p1 p2 (k1 k2 : Cont),
  (forall q1 q2 s', word_opt q1 = word_opt q2 -> k1 q1 s' = k2 q2 s') ->
  word_opt p1 = word_opt p2 ->
  rmatch r p1 s k1 = rmatch r p2 s k2.
Proof.
  induction r as [ | p | a IHa b IHb | a IHa b IHb | p | ];
    intros s p1 p2 k1 k2 Hk Hp; cbn [rmatch].
  - apply Hk. exact Hp.
  - destruct s as [ | c s ]; [ reflexivity | ].
    destruct (p c); [ apply Hk; reflexivity | reflexivity ].
  - apply IHa; [ | exact Hp ]. intros q1 q2 s' Hq. apply IHb; [ exact Hk | exact Hq ].
  - rewrite (IHa s p1 p2 k1 k2 Hk Hp), (IHb s p1 p2 k1 k2 Hk Hp). reflexivity.
  - apply star_prev; assumption.
  - rewrite Hp. destruct (xorb _ _); [ apply Hk; exact Hp | reflexivity ].
Qed.

Lemma match_here_prev (r : re) (s : string) (p1 p2 : option ascii) :
  word_opt p1 = word_opt p2 -> match_here r p1 s = match_here r p2 s.
Proof.
  intros Hp. unfold match_here. apply rmatch_prev; [ | exact Hp ].
  intros q1 q2 s' _. reflexivity.
Qed.

Lemma replace_from_prev (r : re) (repl s : string) (skip : nat) (p1 p2 : option ascii) :
  word_opt p1 = word_opt p2 ->
  replace_from r repl p1 skip s = replace_from r repl p2 skip s.
Proof.
  intros Hp. destruct s as [ | c s ]; cbn [replace_from].
  - destruct skip; [ | reflexivity ].
    rewrite (match_here_prev r "" p1 p2 Hp). reflexivity.
  - destruct skip; [ | reflexivity ].
    rewrite (match_here_prev r (String c s) p1 p2 Hp). reflexivity.
Qed.

(** Dropping a matched text [w] resumes behind it. *)
Lemma replace_skip (r : re) (repl u : string) : forall w prev,
  replace_from r repl prev (String.length w) (w ++ u) =
  replace_from r repl (lastOf w prev) 0 u.
Proof.
  induction w as [ | c w IH ]; intros prev; cbn [String.length append lastOf].
  - reflexivity.
  - cbn [replace_from]. apply IH.
Qed.

Lemma replace_match (r : re) (c : ascii) (w u : string) (prev : option ascii) :
  match_here r prev (String c (w ++ u)) = Some u ->
  replace_from r "" prev 0 (String c (w ++ u)) =
  replace_from r "" (lastOf w (Some c)) 0 u.
Proof.
  intros H. cbn [replace_from]. rewrite H.
  assert (E : String.length (String c (w ++ u)) - String.length u = S (String.length w)).
  { cbn [String.length]. rewrite length_app. lia. }
  rewrite E. cbn [append]. apply replace_skip.
Qed.

(** *** Two runs of the matcher side by side *)

Section Simulation.

Variable Res : string -> string -> Prop.

Lemma star_fails (p : ascii -> bool) (prev : option ascii) (s : string) (k : Cont) :
  fails p s -> star p prev s k = k prev s.
Proof.
  destruct s as [ | c s ]; cbn [fails star]; [ reflexivity | ].
  intros H. rewrite H. reflexivity.
Qed.

Lemma cls_fails (p : ascii -> bool) (prev : option ascii) (s : string) (k : Cont) :
  fails p s -> rmatch (Cls p) prev s k = None.
Proof.
  destruct s as [ | c s ]; cbn [fails rmatch]; [ reflexivity | ].
  intros H. rewrite H. reflexivity.
Qed.

Lemma sim_eps (Pre : State) : sim Res Eps Pre Pre.
Proof. intros p1 p2 s1 s2 k1 k2 HPre Hk. cbn [rmatch]. apply Hk. exact HPre. Qed.

Lemma sim_cls (p : ascii -> bool) (Pre Post : State) :
  (forall p1 p2 s1 s2, Pre p1 p2 s1 s2 -> step p Post s1 s2) ->
  sim Res (Cls p) Pre Post.
Proof.
  intros Hstep p1 p2 s1 s2 k1 k2 HPre Hk.
  destruct (Hstep p1 p2 s1 s2 HPre) as [ s1 s2 F1 F2 | c1 c2 r1 r2 H1 H2 HPost ].
  - rewrite (cls_fails p p1 s1 k1 F1), (cls_fails p p2 s2 k2 F2). exact I.
  - cbn [rmatch]. rewrite H1, H2. apply Hk. exact HPost.
Qed.

Lemma sim_seq (a b : re) (Pre Mid Post : State) :
  sim Res a Pre Mid -> sim Res b Mid Post -> sim Res (Seq a b) Pre Post.
Proof.
  intros Ha Hb p1 p2 s1 s2 k1 k2 HPre Hk. cbn [rmatch].
  apply (Ha p1 p2 s1 s2 _ _ HPre).
  intros q1 q2 t1 t2 HMid. apply (Hb q1 q2 t1 t2 k1 k2 HMid Hk).
Qed.

Lemma sim_alt (a b : re) (Pre Post : State) :
  sim Res a Pre Post -> sim Res b Pre Post -> sim Res (Alt a b) Pre Post.
Proof.
  intros Ha Hb p1 p2 s1 s2 k1 k2 HPre Hk. cbn [rmatch].
  pose proof (Ha p1 p2 s1 s2 k1 k2 HPre Hk) as R.
  destruct (rmatch a p1 s1 k1), (rmatch a p2 s2 k2); unfold res_rel in R |- *;
    try contradiction; [ exact R | ].
  apply (Hb p1 p2 s1 s2 k1 k2 HPre Hk).
Qed.

Lemma sim_star (p : ascii -> bool) (Pre Post : State) :
  (forall p1 p2 s1 s2, Pre p1 p2 s1 s2 -> step p Pre s1 s2) ->
  (forall p1 p2 s1 s2, Pre p1 p2 s1 s2 -> Post p1 p2 s1 s2) ->
  sim Res (Star p) Pre Post.
Proof.
  intros Hstep Hsub p1 p2 s1. revert p1 p2.
  induction s1 as [ | c1 r1 IH ]; intros p1 p2 s2 k1 k2 HPre Hk; cbn [rmatch].
  - pose proof (Hstep p1 p2 _ _ HPre) as Hs. inversion Hs as [ a b F1 F2 | ]; subst.
    rewrite (star_fails p p1 "" k1 F1), (star_fails p p2 s2 k2 F2).
    apply Hk, Hsub, HPre.
  - pose proof (Hstep p1 p2 _ _ HPre) as Hs.
    inversion Hs as [ a b F1 F2 | c1' c2 r1' r2 H1 H2 HPre' ]; subst.
    + rewrite (star_fails p p1 _ k1 F1), (star_fails p p2 s2 k2 F2).
      apply Hk, Hsub, HPre.
    + cbn [star]. rewrite H1, H2.
      pose proof (IH (Some c1) (Some c2) r2 k1 k2 HPre' Hk) as R. cbn [rmatch] in R.
      destruct (star p (Some c1) r1 k1), (star p (Some c2) r2 k2);
        unfold res_rel in R |- *; try contradiction; [ exact R | ].
      apply Hk, Hsub, HPre.
Qed.

Lemma sim_wordb (Pre : State) :
  (forall p1 p2 s1 s2, Pre p1 p2 s1 s2 ->
     word_opt p1 = word_opt p2 /\ word_opt (head s1) = word_opt (head s2)) ->
  sim Res WordB Pre Pre.
Proof.
  intros H p1 p2 s1 s2 k1 k2 HPre Hk. cbn [rmatch].
  destruct (H p1 p2 s1 s2 HPre) as (E1 & E2). rewrite E1, E2.
  destruct (xorb _ _); [ apply Hk; exact HPre | exact I ].
Qed.

Lemma sim_alts (rs : list re) (Pre Post : State) :
  rs <> [] -> Forall (fun r => sim Res r Pre Post) rs -> sim Res (alts rs) Pre Post.
Proof.
  intros Hne H. induction H as [ | r rs Hr Hrs IH ]; [ contradiction | ].
  destruct rs as [ | r' rs' ]; [ exact Hr | ].
  change (alts (r :: r' :: rs')) with (Alt r (alts (r' :: rs'))).
  apply sim_alt; [ exact Hr | apply IH; discriminate ].
Qed.

End Simulation.

(** *** Letter case *)

Lemma lower_idem (c : ascii) : Str.lower (Str.lower c) = Str.lower c.
Proof.
  destruct c as [ [ | ] [ | ] [ | ] [ | ] [ | ] [ | ] [ | ] [ | ] ]; reflexivity.
Qed.

Lemma is_word_lower (c : ascii) : Str.is_word (Str.lower c) = Str.is_word c.
Proof.
  destruct c as [ [ | ] [ | ] [ | ] [ | ] [ | ] [ | ] [ | ] [ | ] ]; reflexivity.
Qed.

Lemma is_ws_lower (c : ascii) : Str.is_ws (Str.lower c) = Str.is_ws c.
Proof.
  destruct c as [ [ | ] [ | ] [ | ] [ | ] [ | ] [ | ] [ | ] [ | ] ]; reflexivity.
Qed.

Lemma is_digit_lower (c : ascii) : Str.is_digit (Str.lower c) = Str.is_digit c.
Proof.
  destruct c as [ [ | ] [ | ] [ | ] [ | ] [ | ] [ | ] [ | ] [ | ] ]; reflexivity.
Qed.

Lemma lowers_idem (s : string) : lowers (lowers s) = lowers s.
Proof.
  induction s as [ | c s IH ]; cbn [lowers]; [ reflexivity | ].
  rewrite lower_idem, IH. reflexivity.
Qed.

Lemma lastOf_lowers (s : string) : forall p1 p2,
  word_opt p1 = word_opt p2 -> word_opt (lastOf s p1) = word_opt (lastOf (lowers s) p2).
Proof.
  induction s as [ | c s IH ]; intros p1 p2 Hp; cbn [lastOf lowers]; [ exact Hp | ].
  apply IH. cbn [word_opt]. rewrite is_word_lower. reflexivity.
Qed.

Section CaseFolding.

Variable u : string.

Lemma step_same (p : ascii -> bool) (s : string) : step p (folded u) s s.
Proof.
  destruct s as [ | c s ].
  - apply step_fail; exact I.
  - destruct (p c) eqn:E.
    + apply step_take; [ exact E | exact E | ].
      split; [ reflexivity | right; reflexivity ].
    + apply step_fail; exact E.
Qed.

Lemma step_folded (p : ascii -> bool) :
  (forall c, p (Str.lower c) = p c) ->
  forall p1 p2 s1 s2, (folded u) p1 p2 s1 s2 -> step p (folded u) s1 s2.
Proof.
  intros Hp p1 p2 s1 s2 (_ & [ (w1 & w2 & -> & -> & Hw) | -> ]); [ | apply step_same ].
  destruct w1 as [ | c1 w1 ], w2 as [ | c2 w2 ]; cbn [lowers] in Hw; try discriminate.
  - cbn [append]. apply step_same.
  - cbn [append].
    assert (Hc : Str.lower c1 = Str.lower c2) by congruence.
    assert (Hw' : lowers w1 = lowers w2) by congruence.
    assert (E : p c1 = p c2) by (rewrite <- (Hp c1), <- (Hp c2), Hc; reflexivity).
    destruct (p c2) eqn:E2.
    + apply step_take; [ exact E | exact E2 | ].
      split.
      * cbn [word_opt]. rewrite <- (is_word_lower c1), <- (is_word_lower c2), Hc.
        reflexivity.
      * left. exists w1, w2. repeat split. exact Hw'.
    + apply step_fail; [ exact E | exact E2 ].
Qed.

Lemma folded_heads (p1 p2 : option ascii) (s1 s2 : string) :
  (folded u) p1 p2 s1 s2 ->
  word_opt p1 = word_opt p2 /\ word_opt (head s1) = word_opt (head s2).
Proof.
  intros (Hp & [ (w1 & w2 & -> & -> & Hw) | -> ]); split; try exact Hp; try reflexivity.
  destruct w1 as [ | c1 w1 ], w2 as [ | c2 w2 ]; cbn [lowers] in Hw; try discriminate.
  - reflexivity.
  - cbn [append head word_opt].
    assert (Hc : Str.lower c1 = Str.lower c2) by congruence.
    rewrite <- (is_word_lower c1), <- (is_word_lower c2), Hc. reflexivity.
Qed.

Lemma sim_ci (r : re) : ci r -> sim (alike u) r (folded u) (folded u).
Proof.
  induction r as [ | p | a IHa b IHb | a IHa b IHb | p | ]; cbn [ci]; intros H.
  - apply sim_eps.
  - apply sim_cls. apply step_folded. exact H.
  - destruct H as (Ha & Hb). apply (sim_seq (alike u) a b (folded u) (folded u) (folded u)); auto.
  - destruct H as (Ha & Hb). apply sim_alt; auto.
  - apply sim_star; [ apply step_folded; exact H | auto ].
  - apply sim_wordb. apply folded_heads.
Qed.

(** A match that ends right before [u] ends there in any letter case. *)
Lemma match_here_folded (r : re) (prev : option ascii) (w1 w2 : string) :
  ci r -> lowers w1 = lowers w2 ->
  match_here r prev (w2 ++ u) = Some u ->
  match_here r prev (w1 ++ u) = Some u.
Proof.
  intros Hci Hw H2.
  assert (R : res_rel (alike u) (match_here r prev (w1 ++ u)) (match_here r prev (w2 ++ u))).
  { unfold match_here. apply (sim_ci r Hci).
    - split; [ reflexivity | ]. left. exists w1, w2. repeat split. exact Hw.
    - intros q1 q2 t1 t2 (_ & Ht). exact Ht. }
  rewrite H2 in R. destruct (match_here r prev (w1 ++ u)) as [ o | ];
    unfold res_rel in R; [ | contradiction ].
  destruct R as [ (v1 & v2 & -> & Hu & Hv) | -> ]; [ | reflexivity ].
  assert (L : String.length v2 = 0).
  { apply (f_equal String.length) in Hu. rewrite length_app in Hu. lia. }
  destruct v2 as [ | c2 v2 ]; [ | discriminate L ].
  destruct v1 as [ | c1 v1 ]; [ reflexivity | discriminate Hv ].
Qed.

End CaseFolding.

End RegexFacts.

(* ================================================================= *)
(** ** The canonical event key *)

Module GrouperFacts.

Import Regex Grouper Sim RegexFacts.
Local Open Scope string_scope.

(** The part of the date qualifier between its two word boundaries. *)
Lemma dateQualifier_body (p : option ascii) (s : string) (k : Cont) :
  rmatch dateQualifier p s k =
  if xorb (word_opt p) (word_opt (head s)) then
    rmatch
      (Seq (alts (map lit keywords))
         (Seq (plus Str.is_ws) (alts (map lit months ++ [digits_1_2; digits_4]))))
      p s (fun p' s' => rmatch WordB p' s' k)
  else None.
Proof. reflexivity. Qed.

(** No date qualifier starts at a space. *)
Lemma no_match_at_space (p : option ascii) (s : string) :
  match_here dateQualifier p (String " " s) = None.
Proof.
  unfold match_here. rewrite dateQualifier_body.
  destruct (xorb _ _); [ | reflexivity ]. vm_compute. reflexivity.
Qed.

Lemma month_body (w : string) :
  In w months ->
  forall (K : Cont) (p : option ascii) (u : string),
    rmatch
      (Seq (alts (map lit keywords))
         (Seq (plus Str.is_ws) (alts (map lit months ++ [digits_1_2; digits_4]))))
      p ("by " ++ w ++ u) K = K (lastOf w None) u.
Proof.
  intros Hin K p u. unfold months in Hin. cbn [In] in Hin.
  repeat (destruct Hin as [ <- | Hin ];
          [ vm_compute; destruct (K _ u); reflexivity | ]).
  contradiction.
Qed.

Lemma month_last (w : string) (p : option ascii) :
  In w months -> word_opt (lastOf w p) = true.
Proof.
  intros Hin. unfold months in Hin. cbn [In] in Hin.
  repeat (destruct Hin as [ <- | Hin ]; [ reflexivity | ]). contradiction.
Qed.

Lemma month_match_lower (w u : string) :
  In w months -> word_opt (head u) = false ->
  match_here dateQualifier (Some " "%char) ("by " ++ w ++ u) = Some u.
Proof.
  intros Hin Hu. unfold match_here. rewrite dateQualifier_body.
  change (xorb (word_opt (Some " "%char)) (word_opt (head ("by " ++ w ++ u)))) with true.
  cbv iota. rewrite (month_body w Hin).
  cbn [rmatch]. rewrite (month_last w None Hin), Hu. reflexivity.
Qed.

Lemma ci_dateQualifier : ci dateQualifier.
Proof.
  unfold dateQualifier, keywords, months, digits_1_2, digits_4, digit, opt, plus.
  cbn [map app alts lit chr ci].
  repeat split; intros c;
    try apply is_ws_lower; try apply is_digit_lower;
    cbv beta; rewrite lower_idem; reflexivity.
Qed.

(** "by", a space and a month in any letter case form a date qualifier when
    no word character follows. *)
Lemma month_match (m u : string) :
  In (lowers m) months -> word_opt (head u) = false ->
  match_here dateQualifier (Some " "%char) ("by " ++ m ++ u) = Some u.
Proof.
  intros Hin Hu.
  apply (match_here_folded u dateQualifier (Some " "%char) ("by " ++ m) ("by " ++ lowers m)
           ci_dateQualifier).
  - cbn [append lowers]. rewrite lowers_idem. reflexivity.
  - exact (month_match_lower (lowers m) u Hin Hu).
Qed.

(** What is left of " by <month>" and the rest [u]. *)
Lemma tail_value (p : option ascii) (m u : string) :
  In (lowers m) months -> word_opt (head u) = false ->
  replace_from dateQualifier "" p 0 (" by " ++ m ++ u) =
  String " " (replace_from dateQualifier "" (Some "a"%char) 0 u).
Proof.
  intros Hin Hu.
  change (" by " ++ m ++ u) with (String " " ("by " ++ m ++ u)).
  cbn [replace_from]. rewrite no_match_at_space. f_equal.
  change ("by " ++ m ++ u) with (String "b" (("y " ++ m) ++ u)).
  rewrite replace_match
    by (exact (month_match m u Hin Hu)).
  apply replace_from_prev.
  change (lastOf ("y " ++ m) (Some "b"%char)) with (lastOf m (Some " "%char)).
  rewrite (lastOf_lowers m (Some " "%char) (Some " "%char) eq_refl).
  rewrite (month_last (lowers m) (Some " "%char) Hin). reflexivity.
Qed.

(** *** What follows a text does not reach into it

    The two runs read the same text [Y] and then [" b"] and different
    rests. *)

Section Lookahead.

Variables u1 u2 : string.

Lemma step_inText (p : ascii -> bool) (Post : State) :
  p " "%char = false ->
  (forall p1 p2 s1 s2, (inText u1 u2) p1 p2 s1 s2 -> Post p1 p2 s1 s2) ->
  forall p1 p2 s1 s2, (inText u1 u2) p1 p2 s1 s2 -> step p Post s1 s2.
Proof.
  intros Hsp Hsub p1 p2 s1 s2 (_ & Y & -> & ->).
  destruct Y as [ | y Y ]; cbn [append].
  - apply step_fail; exact Hsp.
  - destruct (p y) eqn:E.
    + apply step_take; [ exact E | exact E | ].
      apply Hsub. split; [ reflexivity | ]. exists Y. split; reflexivity.
    + apply step_fail; exact E.
Qed.

Lemma step_either (p : ascii -> bool) :
  p " "%char = false -> p "b"%char = false ->
  forall p1 p2 s1 s2, (either u1 u2) p1 p2 s1 s2 -> step p (inText u1 u2) s1 s2.
Proof.
  intros Hsp Hb p1 p2 s1 s2 [ H | (_ & -> & ->) ].
  - apply (step_inText p (inText u1 u2) Hsp (fun _ _ _ _ H => H) p1 p2 s1 s2 H).
  - apply step_fail; exact Hb.
Qed.

Lemma step_ws : forall p1 p2 s1 s2, (either u1 u2) p1 p2 s1 s2 -> step Str.is_ws (either u1 u2) s1 s2.
Proof.
  intros p1 p2 s1 s2 [ (_ & Y & -> & ->) | (_ & -> & ->) ].
  - destruct Y as [ | y Y ]; cbn [append].
    + apply step_take; [ reflexivity | reflexivity | ].
      right. split; [ reflexivity | split; reflexivity ].
    + destruct (Str.is_ws y) eqn:E.
      * apply step_take; [ exact E | exact E | ].
        left. split; [ reflexivity | ]. exists Y. split; reflexivity.
      * apply step_fail; exact E.
  - apply step_fail; reflexivity.
Qed.

Lemma sim_chr_inText (c : ascii) :
  (Str.lower " " =? c)%char = false -> sim (sameText u1 u2) (chr c) (inText u1 u2) (inText u1 u2).
Proof.
  intros H. apply sim_cls.
  apply (step_inText (fun x => (Str.lower x =? c)%char) (inText u1 u2) H (fun _ _ _ _ H => H)).
Qed.

Lemma sim_chr_either (c : ascii) :
  (Str.lower " " =? c)%char = false -> (Str.lower "b" =? c)%char = false ->
  sim (sameText u1 u2) (chr c) (either u1 u2) (inText u1 u2).
Proof.
  intros H Hb. apply sim_cls.
  apply (step_either (fun x => (Str.lower x =? c)%char) H Hb).
Qed.

Lemma sim_lit_inText (w : string) :
  w <> "" -> avoids " " w = true -> sim (sameText u1 u2) (lit w) (inText u1 u2) (inText u1 u2).
Proof.
  destruct w as [ | c w ]; [ contradiction | ]. intros _. revert c.
  induction w as [ | d w IH ]; intros c Hav; cbn [avoids] in Hav;
    apply andb_true_iff in Hav; destruct Hav as (Hc & Hav);
    apply negb_true_iff in Hc.
  - apply sim_chr_inText. exact Hc.
  - change (lit (String c (String d w))) with (Seq (chr c) (lit (String d w))).
    apply (sim_seq (sameText u1 u2) _ _ (inText u1 u2) (inText u1 u2) (inText u1 u2));
      [ apply sim_chr_inText; exact Hc | apply IH; exact Hav ].
Qed.

Lemma sim_lit_either (w : string) :
  w <> "" -> avoids " " w = true -> avoids "b" (substring 0 1 w) = true ->
  sim (sameText u1 u2) (lit w) (either u1 u2) (inText u1 u2).
Proof.
  destruct w as [ | c w ]; [ contradiction | ]. intros _ Hav Hb.
  cbn [avoids] in Hav. apply andb_true_iff in Hav. destruct Hav as (Hc & Hav).
  apply negb_true_iff in Hc.
  assert (Hb' : (Str.lower "b" =? c)%char = false).
  { cbn [substring] in Hb. destruct w; cbn [substring avoids] in Hb;
      apply andb_true_iff in Hb; destruct Hb as (Hb & _);
      apply negb_true_iff in Hb; exact Hb. }
  destruct w as [ | d w ].
  - apply sim_chr_either; assumption.
  - change (lit (String c (String d w))) with (Seq (chr c) (lit (String d w))).
    apply (sim_seq (sameText u1 u2) _ _ (either u1 u2) (inText u1 u2) (inText u1 u2));
      [ apply sim_chr_either; assumption | apply sim_lit_inText; [ discriminate | exact Hav ] ].
Qed.

Lemma sim_digit_inText : sim (sameText u1 u2) digit (inText u1 u2) (inText u1 u2).
Proof.
  apply sim_cls. apply (step_inText Str.is_digit (inText u1 u2) eq_refl (fun _ _ _ _ H => H)).
Qed.

Lemma sim_digit_either : sim (sameText u1 u2) digit (either u1 u2) (inText u1 u2).
Proof. apply sim_cls. apply (step_either Str.is_digit eq_refl eq_refl). Qed.

Lemma sim_keywords : sim (sameText u1 u2) (alts (map lit keywords)) (inText u1 u2) (inText u1 u2).
Proof.
  apply sim_alts; [ discriminate | ]. unfold keywords. cbn [map].
  repeat (apply Forall_cons; [ apply sim_lit_inText; [ discriminate | reflexivity ] | ]).
  apply Forall_nil.
Qed.

Lemma sim_spaces : sim (sameText u1 u2) (plus Str.is_ws) (inText u1 u2) (either u1 u2).
Proof.
  unfold plus. apply (sim_seq (sameText u1 u2) _ _ (inText u1 u2) (either u1 u2) (either u1 u2)).
  - apply sim_cls. intros p1 p2 s1 s2 H. apply (step_ws p1 p2). left. exact H.
  - apply sim_star; [ exact step_ws | auto ].
Qed.

Lemma sim_dates :
  sim (sameText u1 u2) (alts (map lit months ++ [digits_1_2; digits_4])) (either u1 u2) (inText u1 u2).
Proof.
  apply sim_alts; [ discriminate | ]. unfold months. cbn [map app].
  repeat (apply Forall_cons;
          [ apply sim_lit_either; [ discriminate | reflexivity | reflexivity ] | ]).
  apply Forall_cons.
  { unfold digits_1_2, opt.
    apply (sim_seq (sameText u1 u2) _ _ (either u1 u2) (inText u1 u2) (inText u1 u2)); [ apply sim_digit_either | ].
    apply sim_alt; [ apply sim_digit_inText | apply sim_eps ]. }
  apply Forall_cons; [ | apply Forall_nil ].
  unfold digits_4.
  apply (sim_seq (sameText u1 u2) _ _ (either u1 u2) (inText u1 u2) (inText u1 u2)); [ apply sim_digit_either | ].
  apply (sim_seq (sameText u1 u2) _ _ (inText u1 u2) (inText u1 u2) (inText u1 u2)); [ apply sim_digit_inText | ].
  apply (sim_seq (sameText u1 u2) _ _ (inText u1 u2) (inText u1 u2) (inText u1 u2)); apply sim_digit_inText.
Qed.

Lemma inText_heads (p1 p2 : option ascii) (s1 s2 : string) :
  (inText u1 u2) p1 p2 s1 s2 ->
  word_opt p1 = word_opt p2 /\ word_opt (head s1) = word_opt (head s2).
Proof.
  intros (-> & Y & -> & ->). split; [ reflexivity | ].
  destruct Y; reflexivity.
Qed.

Lemma sim_dateQualifier : sim (sameText u1 u2) dateQualifier (inText u1 u2) (inText u1 u2).
Proof.
  unfold dateQualifier.
  apply (sim_seq (sameText u1 u2) _ _ (inText u1 u2) (inText u1 u2) (inText u1 u2));
    [ apply sim_wordb; exact inText_heads | ].
  apply (sim_seq (sameText u1 u2) _ _ (inText u1 u2) (inText u1 u2) (inText u1 u2)); [ apply sim_keywords | ].
  apply (sim_seq (sameText u1 u2) _ _ (inText u1 u2) (either u1 u2) (inText u1 u2)); [ apply sim_spaces | ].
  apply (sim_seq (sameText u1 u2) _ _ (either u1 u2) (inText u1 u2) (inText u1 u2)); [ apply sim_dates | ].
  apply sim_wordb. exact inText_heads.
Qed.

Lemma match_here_local (p : option ascii) (Y : string) :
  res_rel (sameText u1 u2)
    (match_here dateQualifier p (Y ++ " b" ++ u1))
    (match_here dateQualifier p (Y ++ " b" ++ u2)).
Proof.
  unfold match_here. apply sim_dateQualifier.
  - split; [ reflexivity | ]. exists Y. split; reflexivity.
  - intros q1 q2 t1 t2 (_ & H). exact H.
Qed.

(** The replacements inside [X] are the same before both rests. *)
Lemma dateQualifier_local : forall (X : string) (prev : option ascii) (skip : nat),
  skip <= String.length X ->
  exists A,
    replace_from dateQualifier "" prev skip (X ++ " b" ++ u1) =
      A ++ replace_from dateQualifier "" (lastOf X prev) 0 (" b" ++ u1) /\
    replace_from dateQualifier "" prev skip (X ++ " b" ++ u2) =
      A ++ replace_from dateQualifier "" (lastOf X prev) 0 (" b" ++ u2).
Proof.
  induction X as [ | c X IH ]; intros prev skip Hs.
  - cbn [String.length] in Hs. assert (skip = 0) by lia. subst skip.
    exists "". split; reflexivity.
  - change (String c X ++ " b" ++ u1) with (String c (X ++ " b" ++ u1)).
    change (String c X ++ " b" ++ u2) with (String c (X ++ " b" ++ u2)).
    cbn [lastOf String.length] in Hs |- *.
    destruct skip as [ | n ].
    + cbn [replace_from].
      pose proof (match_here_local prev (String c X)) as R.
      change (String c X ++ " b" ++ u1) with (String c (X ++ " b" ++ u1)) in R.
      change (String c X ++ " b" ++ u2) with (String c (X ++ " b" ++ u2)) in R.
      destruct (match_here dateQualifier prev (String c (X ++ " b" ++ u1))) as [ o1 | ];
        destruct (match_here dateQualifier prev (String c (X ++ " b" ++ u2))) as [ o2 | ];
        unfold res_rel in R; try contradiction.
      * destruct R as (Y & -> & ->).
        assert (E1 : String.length (String c (X ++ " b" ++ u1))
                     - String.length (Y ++ " b" ++ u1)
                     = S (String.length X) - String.length Y).
        { cbn [String.length]. rewrite !length_app. lia. }
        assert (E2 : String.length (String c (X ++ " b" ++ u2))
                     - String.length (Y ++ " b" ++ u2)
                     = S (String.length X) - String.length Y).
        { cbn [String.length]. rewrite !length_app. lia. }
        rewrite E1, E2.
        destruct (S (String.length X) - String.length Y) as [ | n ] eqn:En.
        -- destruct (IH (Some c) 0 (Nat.le_0_l _)) as (A & H1 & H2).
           exists (String c A). rewrite H1, H2. split; reflexivity.
        -- assert (Hn : n <= String.length X) by lia.
           destruct (IH (Some c) n Hn) as (A & H1 & H2).
           exists A. rewrite H1, H2. split; reflexivity.
      * destruct (IH (Some c) 0 (Nat.le_0_l _)) as (A & H1 & H2).
        exists (String c A). rewrite H1, H2. split; reflexivity.
    + cbn [replace_from]. apply IH. lia.
Qed.

End Lookahead.

Lemma dateQualifier_collide (X m1 m2 u : string) :
  In (lowers m1) months -> In (lowers m2) months ->
  word_opt (head u) = false ->
  replaceAll dateQualifier "" (X ++ " by " ++ m1 ++ u) =
  replaceAll dateQualifier "" (X ++ " by " ++ m2 ++ u).
Proof.
  intros H1 H2 Hu. unfold replaceAll.
  destruct (dateQualifier_local ("y " ++ m1 ++ u) ("y " ++ m2 ++ u) X None 0 (Nat.le_0_l _))
    as (A & E1 & E2).
  change (" b" ++ "y " ++ m1 ++ u) with (" by " ++ m1 ++ u) in E1.
  change (" b" ++ "y " ++ m2 ++ u) with (" by " ++ m2 ++ u) in E2.
  rewrite E1, E2, (tail_value _ m1 u H1 Hu), (tail_value _ m2 u H2 Hu). reflexivity.
Qed.

(** C6.  The key of a question is what remains after removing the date
    qualifiers, then the ordinal day tokens, then the standalone yes/no
    tokens, collapsing white space, trimming, and cutting at 50 characters,
    in this order; and for every text [X] the three questions
    "X by March 2026", "X by April 2026" and "X by June 2026" get one and
    the same key. *)
Theorem date_variants_same_key (X : string) :
  extractBaseEvent (X ++ " by March 2026") = extractBaseEvent (X ++ " by April 2026") /\
  extractBaseEvent (X ++ " by April 2026") = extractBaseEvent (X ++ " by June 2026") /\
  (forall question,
     extractBaseEvent question =
     Str.take 50
       (Str.trim
          (replaceAll spaces " "
             (replaceAll yesNo ""
                (replaceAll ordinalDay ""
                   (replaceAll dateQualifier "" question)))))) /\
  extractBaseEvent ("US strikes Iran" ++ " by March 2026") = "US strikes Iran 2026".
Proof.
  assert (Hm : forall m, In m ["March"; "April"; "June"] -> In (lowers m) months).
  { intros m [ <- | [ <- | [ <- | [] ] ] ]; vm_compute; tauto. }
  assert (H : forall m1 m2, In m1 ["March"; "April"; "June"] ->
              In m2 ["March"; "April"; "June"] ->
              extractBaseEvent (X ++ " by " ++ m1 ++ " 2026") =
              extractBaseEvent (X ++ " by " ++ m2 ++ " 2026")).
  { intros m1 m2 H1 H2. unfold extractBaseEvent.
    rewrite (dateQualifier_collide X m1 m2 " 2026" (Hm m1 H1) (Hm m2 H2) eq_refl).
    reflexivity. }
  split; [ apply (H "March" "April"); cbn [In]; tauto | ].
  split; [ apply (H "April" "June"); cbn [In]; tauto | ].
  split; [ intros question; reflexivity | vm_compute; reflexivity ].
Qed.

(** X18.  Date variants collide.  Two questions that differ only in the
    month of a trailing "by <month>" get the same key: for every text [X],
    all month names [m1] and [m2] in any letter case, and every rest [u]
    that does not start with a word character (such as " 2026?"),
    [X by m1 u] and [X by m2 u] normalise to the same key. *)
Theorem date_variants_collide (X m1 m2 u : string) :
  In (lowers m1) months -> In (lowers m2) months ->
  word_opt (head u) = false ->
  extractBaseEvent (X ++ " by " ++ m1 ++ u) = extractBaseEvent (X ++ " by " ++ m2 ++ u).
Proof.
  intros H1 H2 Hu. unfold extractBaseEvent.
  rewrite (dateQualifier_collide X m1 m2 u H1 H2 Hu). reflexivity.
Qed.

Lemma date_variants_collide_witness :
  extractBaseEvent ("US strikes Iran" ++ " by " ++ "March" ++ " 2026?") =
  extractBaseEvent ("US strikes Iran" ++ " by " ++ "JUNE" ++ " 2026?").
Proof.
  apply (date_variants_collide "US strikes Iran" "March" "JUNE" " 2026?").
  - vm_compute. tauto.
  - vm_compute. tauto.
  - reflexivity.
Defined.

(** X19.  Date variants are grouped.  When two markets of the input have
    questions that differ only in the month of a trailing "by <month>",
    [findRelatedMarkets] returns a group that holds both of them, unless it
    throws because some key is an inherited property name. *)
Theorem date_variants_grouped (l1 l2 l3 : list Market) (a b : Market)
    (X m1 m2 u : string) :
  question a = Some (X ++ " by " ++ m1 ++ u) ->
  question b = Some (X ++ " by " ++ m2 ++ u) ->
  In (lowers m1) months -> In (lowers m2) months ->
  word_opt (head u) = false ->
  match Grouping.findRelatedMarkets (l1 ++ a :: l2 ++ b :: l3) with
  | Normal gs => exists g, In g gs /\ In a (markets g) /\ In b (markets g)
  | Throw _ =>
      exists m, In m (l1 ++ a :: l2 ++ b :: l3) /\
                Grouping.is_inherited (Grouping.eventKey m) = true
  end.
Proof.
  intros Qa Qb H1 H2 Hu.
  set (ms := (l1 ++ a :: l2 ++ b :: l3)%list).
  assert (Ina : In a ms) by (apply in_or_app; right; left; reflexivity).
  assert (Inb : In b ms).
  { apply in_or_app. right. right. apply in_or_app. right. left. reflexivity. }
  assert (Hk : Grouping.eventKey b = Grouping.eventKey a).
  { unfold Grouping.eventKey. rewrite Qa, Qb.
    assert (T : forall s, Js.text_or (Some (X ++ s)) "" = X ++ s \/ X ++ s = "").
    { intros s. destruct (X ++ s); [ right | left ]; reflexivity. }
    assert (N : forall m, X ++ " by " ++ m ++ u <> "").
    { intros m. destruct X; discriminate. }
    destruct (T (" by " ++ m1 ++ u)) as [ -> | E ]; [ | destruct (N _ E) ].
    destruct (T (" by " ++ m2 ++ u)) as [ -> | E ]; [ | destruct (N _ E) ].
    unfold extractBaseEvent.
    rewrite (dateQualifier_collide X m2 m1 u H2 H1 Hu). reflexivity. }
  rewrite GroupingFacts.findRelatedMarkets_value.
  destruct (existsb _ ms) eqn:E.
  - apply existsb_exists in E. exact E.
  - exists {| event := Grouping.eventKey a;
              markets := Grouping.members (Grouping.eventKey a) ms |}.
    cbn [markets]. rewrite !GroupingFacts.members_In.
    split; [ | split; [ split; [ exact Ina | reflexivity ] | split; [ exact Inb | exact Hk ] ] ].
    unfold Grouping.grouped.
    apply (in_map (fun k => {| event := k; markets := Grouping.members k ms |})).
    apply filter_In. split.
    + apply (Permutation_in _
               (Permutation_sym (GroupingFacts.propertyOrder_perm (fun k => k) _))).
      apply GroupingFacts.firstSeen_In. apply in_map. exact Ina.
    + apply Nat.ltb_lt. unfold Grouping.members, ms.
      rewrite filter_app. cbn [filter]. rewrite String.eqb_refl.
      rewrite filter_app. cbn [filter]. rewrite Hk, String.eqb_refl.
      rewrite List.length_app. cbn [List.length]. rewrite List.length_app. cbn [List.length]. lia.
Qed.

Lemma date_variants_grouped_witness :
  match
    Grouping.findRelatedMarkets
      [Grouping.asked "US strikes Iran by March 2026?";
       Grouping.asked "US strikes Iran by April 2026?"]
  with
  | Normal gs =>
      exists g, In g gs /\
        In (Grouping.asked "US strikes Iran by March 2026?") (markets g) /\
        In (Grouping.asked "US strikes Iran by April 2026?") (markets g)
  | Throw _ =>
      exists m,
        In m [Grouping.asked "US strikes Iran by March 2026?";
              Grouping.asked "US strikes Iran by April 2026?"] /\
        Grouping.is_inherited (Grouping.eventKey m) = true
  end.
Proof.
  apply (date_variants_grouped [] [] []
           (Grouping.asked "US strikes Iran by March 2026?")
           (Grouping.asked "US strikes Iran by April 2026?")
           "US strikes Iran" "March" "April" " 2026?").
  - reflexivity.
  - reflexivity.
  - vm_compute. tauto.
  - vm_compute. tauto.
  - reflexivity.
Defined.

(** *** The shape of a key *)

Lemma star_spaces (s : string) : forall p,
  star Str.is_ws p s (fun _ rest => Some rest) = Some (Str.trimStart s).
Proof.
  induction s as [ | c s IH ]; intros p; cbn [star Str.trimStart]; [ reflexivity | ].
  destruct (Str.is_ws c); [ rewrite IH; reflexivity | reflexivity ].
Qed.

Lemma match_here_spaces (p : option ascii) (c : ascii) (r : string) :
  match_here spaces p (String c r) =
  if Str.is_ws c then Some (Str.trimStart r) else None.
Proof.
  unfold match_here, spaces, plus. cbn [rmatch].
  destruct (Str.is_ws c); [ apply star_spaces | reflexivity ].
Qed.

Lemma trimStart_length (s : string) :
  String.length (Str.trimStart s) <= String.length s.
Proof.
  induction s as [ | c s IH ]; cbn [Str.trimStart String.length]; [ lia | ].
  destruct (Str.is_ws c); cbn [String.length]; lia.
Qed.

(** The white space replacement, read as [collapse]. *)
Lemma collapse_value (s : string) : forall prev,
  replace_from spaces " " prev 0 s = collapse false s /\
  replace_from spaces " " prev (String.length s - String.length (Str.trimStart s)) s
  = collapse true s.
Proof.
  induction s as [ | c r IH ]; intros prev; [ split; reflexivity | ].
  assert (E : Str.is_ws c = true ->
              String.length (String c r) - String.length (Str.trimStart r) =
              S (String.length r - String.length (Str.trimStart r))).
  { intros _. cbn [String.length]. pose proof (trimStart_length r). lia. }
  split.
  - cbn [replace_from]. rewrite match_here_spaces. cbn [collapse].
    destruct (Str.is_ws c) eqn:W.
    + rewrite (E eq_refl), (proj2 (IH (Some c))). reflexivity.
    + rewrite (proj1 (IH (Some c))). reflexivity.
  - cbn [Str.trimStart collapse]. destruct (Str.is_ws c) eqn:W.
    + rewrite (E eq_refl). cbn [replace_from]. apply IH.
    + rewrite Nat.sub_diag. cbn [replace_from]. rewrite match_here_spaces, W.
      rewrite (proj1 (IH (Some c))). reflexivity.
Qed.

Lemma collapse_shape (s : string) :
  (forall b, single_spaced (collapse b s) = true) /\
  starts_ws (collapse true s) = false.
Proof.
  induction s as [ | c r (IH1 & IH2) ]; [ split; [ intros b | ]; reflexivity | ].
  cbn [collapse]. destruct (Str.is_ws c) eqn:W.
  - split; [ | exact IH2 ].
    intros [ | ]; [ apply IH1 | ].
    cbn [single_spaced]. rewrite IH1, IH2. reflexivity.
  - split.
    + intros b. cbn [single_spaced]. rewrite W, IH1. reflexivity.
    + cbn [starts_ws]. exact W.
Qed.

Lemma single_spaced_tail (c : ascii) (r : string) :
  single_spaced (String c r) = true -> single_spaced r = true.
Proof. cbn [single_spaced]. intros H. apply andb_true_iff in H. apply H. Qed.

Lemma trimStart_shape (s : string) :
  (single_spaced s = true -> single_spaced (Str.trimStart s) = true) /\
  starts_ws (Str.trimStart s) = false.
Proof.
  induction s as [ | c r (IH1 & IH2) ]; [ split; reflexivity | ].
  cbn [Str.trimStart]. destruct (Str.is_ws c) eqn:W.
  - split; [ | exact IH2 ]. intros H. apply IH1. exact (single_spaced_tail c r H).
  - split; [ auto | ]. cbn [starts_ws]. exact W.
Qed.

Lemma trimEnd_head (s : string) : starts_ws (Str.trimEnd s) = true -> starts_ws s = true.
Proof.
  destruct s as [ | c r ]; [ discriminate | ]. cbn [Str.trimEnd].
  destruct (Str.trimEnd r); [ destruct (Str.is_ws c) eqn:W | ]; cbn [starts_ws];
    congruence.
Qed.

Lemma negb_starts (a b : string) :
  (starts_ws a = true -> starts_ws b = true) ->
  negb (starts_ws b) = true -> negb (starts_ws a) = true.
Proof. destruct (starts_ws a), (starts_ws b); intuition congruence. Qed.

Lemma single_spaced_cons (c : ascii) (r r' : string) :
  (starts_ws r' = true -> starts_ws r = true) ->
  single_spaced r' = true ->
  single_spaced (String c r) = true -> single_spaced (String c r') = true.
Proof.
  intros Hh Hr'. cbn [single_spaced]. rewrite Hr', !andb_true_r.
  intros H. apply andb_true_iff in H. destruct H as (H & _).
  destruct (Str.is_ws c); [ | reflexivity ].
  apply andb_true_iff in H. destruct H as (Hc & Hn).
  rewrite Hc. cbn [andb]. exact (negb_starts r' r Hh Hn).
Qed.

Lemma trimEnd_shape (s : string) :
  single_spaced s = true -> single_spaced (Str.trimEnd s) = true.
Proof.
  induction s as [ | c r IH ]; [ reflexivity | ]. intros H.
  pose proof (IH (single_spaced_tail c r H)) as Hr.
  pose proof (trimEnd_head r) as Hh.
  cbn [Str.trimEnd]. destruct (Str.trimEnd r) as [ | d r' ] eqn:E.
  - destruct (Str.is_ws c) eqn:W; [ reflexivity | ].
    cbn [single_spaced]. rewrite W. reflexivity.
  - exact (single_spaced_cons c r (String d r') Hh Hr H).
Qed.

Lemma trimEnd_last (s : string) : forall p,
  match lastOf (Str.trimEnd s) p with
  | Some c => Str.trimEnd s = "" \/ Str.is_ws c = false
  | None => True
  end.
Proof.
  induction s as [ | c r IH ]; intros p.
  - cbn [Str.trimEnd lastOf]. destruct p; [ left; reflexivity | exact I ].
  - cbn [Str.trimEnd]. destruct (Str.trimEnd r) as [ | d r' ] eqn:E.
    + destruct (Str.is_ws c) eqn:W; cbn [lastOf].
      * destruct p; [ left; reflexivity | exact I ].
      * right. exact W.
    + change (lastOf (String c (String d r')) p) with (lastOf (String d r') (Some c)).
      specialize (IH (Some c)).
      destruct (lastOf (String d r') (Some c)); [ | exact I ].
      destruct IH as [ IH | IH ]; [ discriminate IH | right; exact IH ].
Qed.

Lemma take_shape (n : nat) : forall s,
  String.length (Str.take n s) <= n /\
  (starts_ws (Str.take n s) = true -> starts_ws s = true) /\
  (single_spaced s = true -> single_spaced (Str.take n s) = true) /\
  (String.length (Str.take n s) < n -> Str.take n s = s).
Proof.
  unfold Str.take.
  induction n as [ | n IH ]; intros s.
  - destruct s; cbn [substring String.length starts_ws];
      repeat split; try lia; try discriminate; reflexivity.
  - destruct s as [ | c r ]; cbn [substring String.length];
      [ repeat split; try lia; auto | ].
    destruct (IH r) as (L & Hh & Hs & Hid).
    split; [ lia | ]. split; [ auto | ]. split.
    + intros H. exact (single_spaced_cons c r _ Hh (Hs (single_spaced_tail c r H)) H).
    + intros Hl. rewrite Hid by lia. reflexivity.
Qed.

(** X20.  The shape of a key.  A key has at most 50 characters, does not
    start with white space, and its only white space characters are single
    spaces: no tab, line break or other white space, and no two spaces in a
    row.  A key of fewer than 50 characters does not end with white space
    either; a key cut at 50 characters may. *)
Theorem key_shape (question : string) :
  let key := extractBaseEvent question in
  String.length key <= 50 /\
  starts_ws key = false /\
  single_spaced key = true /\
  (String.length key < 50 -> ends_ws key = false).
Proof.
  intros key. unfold key, extractBaseEvent.
  set (s := replaceAll yesNo "" (replaceAll ordinalDay "" (replaceAll dateQualifier "" question))).
  assert (Hc : replaceAll spaces " " s = collapse false s)
    by (unfold replaceAll; apply collapse_value).
  rewrite Hc.
  pose proof (proj1 (collapse_shape s) false) as S1.
  assert (S2 : single_spaced (Str.trim (collapse false s)) = true).
  { unfold Str.trim. apply trimEnd_shape. apply trimStart_shape. exact S1. }
  assert (S3 : starts_ws (Str.trim (collapse false s)) = false).
  { unfold Str.trim.
    pose proof (trimEnd_head (Str.trimStart (collapse false s))) as Hh.
    pose proof (proj2 (trimStart_shape (collapse false s))) as Hs.
    destruct (starts_ws (Str.trimEnd _)); [ | reflexivity ].
    rewrite (Hh eq_refl) in Hs. discriminate. }
  destruct (take_shape 50 (Str.trim (collapse false s))) as (L & Hh & Hs & Hid).
  split; [ exact L | ]. split.
  { destruct (starts_ws (Str.take 50 _)); [ | reflexivity ].
    rewrite (Hh eq_refl) in S3. discriminate. }
  split; [ exact (Hs S2) | ].
  intros Hl. rewrite (Hid Hl). unfold ends_ws, Str.trim.
  pose proof (trimEnd_last (Str.trimStart (collapse false s)) None) as Hlast.
  destruct (lastOf (Str.trimEnd _) None) as [ c | ] eqn:El; [ | reflexivity ].
  destruct Hlast as [ E | E ]; [ | exact E ].
  rewrite E in El. discriminate El.
Qed.

End GrouperFacts.
